(** * task-glitch: the analytics engine of [utils/logic]

    A shallow embedding of the pure computation layer (ROI derivation,
    ranking, aggregate metrics, velocity, weighted pipeline, weekly
    throughput, cohort revenue and the least-squares forecast) together
    with the properties stated about it.  The module exists in two copies
    (lines 1-264 and 265-498 of the source); the definitions follow the
    first, and [Copy] holds the functions whose text differs in the second.

    Numbers.  A JavaScript number is modelled by [num]: a finite value
    (an exact rational, [Qc], so that equal values are equal terms), the
    two infinities and NaN.  The special values follow IEEE-754 and there
    is a single zero.  Finite arithmetic is exact in the definitions that
    the formulas are proved of; the module [Binary64] repeats the engine
    with the range of binary64, where a result too large in magnitude is
    an infinity, and the statements about finite outputs are made there.
    Rounding inside the range is not modelled.

    Strings.  [String.prototype.localeCompare] is implementation-defined;
    it enters through the interface [Collator] (a total preorder on
    strings), and [codeUnitCollator] (comparison by code unit) is the
    instance used to run examples.

    Arrays.  [Array.prototype.sort] is a stable sort; it is modelled by
    insertion, which gives the result of every stable sort when the
    comparator is consistent.  Where identity matters an array is a
    reference into a store.

    Objects used as tables.  [weights[status]] is read as the engine
    reads it: an own key, a name inherited from [Object.prototype], or
    [undefined].  [groups[priority].push] raises a TypeError for every key
    but the three own ones.

    Dates.  An ISO-8601 timestamp is represented by the time value (UTC
    milliseconds since the epoch) that [new Date(s).getTime()] yields; the
    [Date] accessors are those of the proleptic Gregorian calendar.  A
    string that does not parse has no time value ([getTime] gives NaN):
    the tasks of the model are those whose dates parse. *)

From Stdlib Require Import ZArith QArith Qcanon Qround List Bool Lia Lqa Permutation Sorted.
From Stdlib Require Import Strings.String Strings.Ascii DecimalString.
Import ListNotations.

Set Implicit Arguments.

(** ** JavaScript numbers *)

Module JS.

Inductive num : Type :=
| NaN
| PInf
| NInf
| Fin (q : Qc).

Definition num_of_Z (z : Z) : num := Fin (Q2Qc (inject_Z z)).
Definition num_of_nat (n : nat) : num := num_of_Z (Z.of_nat n).

Definition zero : num := num_of_Z 0.
Definition one : num := num_of_Z 1.

(** [Number.isFinite] *)
Definition isFinite (x : num) : bool :=
  match x with Fin _ => true | _ => false end.

Definition isNaN (x : num) : bool :=
  match x with NaN => true | _ => false end.

(** Sign of a number that is not NaN. *)
Definition sign (x : num) : comparison :=
  match x with
  | NaN => Eq
  | PInf => Gt
  | NInf => Lt
  | Fin q => Qccompare q 0
  end.

Definition nneg (x : num) : num :=
  match x with
  | NaN => NaN
  | PInf => NInf
  | NInf => PInf
  | Fin q => Fin (- q)
  end.

Definition nadd (x y : num) : num :=
  match x, y with
  | NaN, _ | _, NaN => NaN
  | PInf, NInf | NInf, PInf => NaN
  | PInf, _ | _, PInf => PInf
  | NInf, _ | _, NInf => NInf
  | Fin a, Fin b => Fin (a + b)
  end.

Definition nsub (x y : num) : num := nadd x (nneg y).

(** The infinity whose sign is the product of two signs; NaN when one of
    them is the sign of zero. *)
Definition inf_of_signs (s t : comparison) : num :=
  match s, t with
  | Eq, _ | _, Eq => NaN
  | Gt, Gt | Lt, Lt => PInf
  | _, _ => NInf
  end.

Definition nmul (x y : num) : num :=
  match x, y with
  | NaN, _ | _, NaN => NaN
  | Fin a, Fin b => Fin (a * b)
  | _, _ => inf_of_signs (sign x) (sign y)
  end.

Definition ndiv (x y : num) : num :=
  match x, y with
  | NaN, _ | _, NaN => NaN
  | Fin a, Fin b =>
      if Qc_eq_bool b 0 then inf_of_signs (Qccompare a 0) Gt
      else Fin (a / b)
  | Fin _, _ => zero
  | _, Fin b => inf_of_signs (sign x) (if Qc_eq_bool b 0 then Gt else Qccompare b 0)
  | _, _ => NaN
  end.

(** Order of two numbers, [None] when one of them is NaN. *)
Definition ncmp (x y : num) : option comparison :=
  match x, y with
  | NaN, _ | _, NaN => None
  | PInf, PInf | NInf, NInf => Some Eq
  | PInf, _ | _, NInf => Some Gt
  | NInf, _ | _, PInf => Some Lt
  | Fin a, Fin b => Some (Qccompare a b)
  end.

(** [x < y], [x > y], [x <= y], [x === y], [x !== y] *)
Definition nltb (x y : num) : bool :=
  match ncmp x y with Some Lt => true | _ => false end.
Definition ngtb (x y : num) : bool :=
  match ncmp x y with Some Gt => true | _ => false end.
Definition nleb (x y : num) : bool :=
  match ncmp x y with Some Lt | Some Eq => true | _ => false end.
Definition ngeb (x y : num) : bool :=
  match ncmp x y with Some Gt | Some Eq => true | _ => false end.
Definition strict_eqb (x y : num) : bool :=
  match ncmp x y with Some Eq => true | _ => false end.
Definition strict_neqb (x y : num) : bool := negb (strict_eqb x y).

(** A number used as a condition: 0 and NaN are falsy. *)
Definition truthy (x : num) : bool :=
  match x with
  | NaN => false
  | Fin q => negb (Qc_eq_bool q 0)
  | _ => true
  end.

(** [x || d] on numbers *)
Definition or_else (x d : num) : num := if truthy x then x else d.

(** [Math.max(x, y)] *)
Definition Math_max (x y : num) : num :=
  match ncmp x y with
  | None => NaN
  | Some Lt => y
  | Some _ => x
  end.

Definition floorQc (q : Qc) : Z := Qfloor q.

(** [Math.floor], [Math.ceil], [Math.round] (halves round up) *)
Definition Math_floor (x : num) : num :=
  match x with Fin q => num_of_Z (floorQc q) | _ => x end.
Definition Math_ceil (x : num) : num :=
  match x with Fin q => num_of_Z (- floorQc (- q)) | _ => x end.
Definition Math_round (x : num) : num :=
  match x with Fin q => num_of_Z (floorQc (q + Q2Qc (1 # 2))) | _ => x end.

(** Decidable equality of numbers, for running examples. *)
Definition num_eqb (x y : num) : bool :=
  match x, y with
  | NaN, NaN | PInf, PInf | NInf, NInf => true
  | Fin a, Fin b => Qc_eq_bool a b
  | _, _ => false
  end.

Fixpoint nums_eqb (l l' : list num) : bool :=
  match l, l' with
  | [], [] => true
  | x :: r, y :: r' => num_eqb x y && nums_eqb r r'
  | _, _ => false
  end.

End JS.

Import JS.

Declare Scope num_scope.
Delimit Scope num_scope with num.
Bind Scope num_scope with num.
Infix "+" := nadd : num_scope.
Infix "-" := nsub : num_scope.
Infix "*" := nmul : num_scope.
Infix "/" := ndiv : num_scope.

Open Scope string_scope.
Open Scope list_scope.

(** ** Strings: the host's collation *)

(** [a.localeCompare(b)]: a negative, zero or positive integer.  The order
    is the host's; what the engine relies on is that it is a total
    preorder on strings. *)
Class Collator : Type := {
  localeCompare : string -> string -> Z;
  localeCompare_refl : forall s, localeCompare s s = 0%Z;
  localeCompare_antisym :
    forall s t, Z.sgn (localeCompare t s) = (- Z.sgn (localeCompare s t))%Z;
  localeCompare_trans :
    forall s t u,
      (localeCompare s t <= 0)%Z -> (localeCompare t u <= 0)%Z ->
      (localeCompare s u <= 0)%Z
}.

Definition Z_of_comparison (c : comparison) : Z :=
  match c with Lt => (-1)%Z | Eq => 0%Z | Gt => 1%Z end.

(** Comparison by code unit, the collation used to run examples. *)
Definition codeUnitCompare (s t : string) : Z := Z_of_comparison (String.compare s t).

Definition codeUnitCollator : Collator.
Proof.
  assert (Hrefl : forall s, String.compare s s = Eq).
  { induction s as [|a s IH]; simpl; [reflexivity|].
    unfold Ascii.compare. now rewrite N.compare_refl. }
  assert (Htrans : forall s t u,
             String.compare s t <> Gt -> String.compare t u <> Gt ->
             String.compare s u <> Gt).
  { induction s as [|a s IH]; intros [|b t] [|c u]; simpl; try congruence.
    unfold Ascii.compare.
    destruct (N.compare_spec (N_of_ascii a) (N_of_ascii b)) as [Eab|Lab|Gab]; try congruence;
      destruct (N.compare_spec (N_of_ascii b) (N_of_ascii c)) as [Ebc|Lbc|Gbc]; try congruence;
      intros H1 H2.
    - rewrite Eab, Ebc, N.compare_refl. eapply IH; eassumption.
    - rewrite Eab. apply N.compare_lt_iff in Lbc. now rewrite Lbc.
    - rewrite <- Ebc. apply N.compare_lt_iff in Lab. now rewrite Lab.
    - assert (L : (N_of_ascii a < N_of_ascii c)%N) by lia.
      apply N.compare_lt_iff in L. now rewrite L. }
  assert (Hle : forall s t, (codeUnitCompare s t <= 0)%Z <-> String.compare s t <> Gt).
  { intros s t. unfold codeUnitCompare.
    destruct (String.compare s t); simpl; split; (lia || congruence). }
  refine {| localeCompare := codeUnitCompare |}.
  - intros s. unfold codeUnitCompare. now rewrite Hrefl.
  - intros s t. unfold codeUnitCompare. rewrite (String.compare_antisym t s).
    now destruct (String.compare s t).
  - intros s t u. rewrite !Hle. apply Htrans.
Defined.

(** ** Data model *)

Record Task : Type := mkTask {
  id : string;
  title : string;
  revenue : num;
  timeTaken : num;
  priority : string;
  status : string;
  notes : option string;
  createdAt : Z;
  completedAt : option Z
}.

(** [{ ...task, roi, priorityWeight }] *)
Record DerivedTask : Type := mkDerived {
  task : Task;
  roi : option num;
  priorityWeight : Z
}.

(** ** ROI and derived fields (lines 7-35) *)

Definition computeROI (revenue timeTaken : num) : option num :=
  if negb (isFinite revenue) || negb (isFinite timeTaken) || nleb timeTaken zero
  then None
  else Some (revenue / timeTaken)%num.

Definition computePriorityWeight (priority : string) : Z :=
  if String.eqb priority "High" then 3%Z
  else if String.eqb priority "Medium" then 2%Z
  else 1%Z.

Definition withDerived (t : Task) : DerivedTask :=
  {| task := t;
     roi := computeROI (revenue t) (timeTaken t);
     priorityWeight := computePriorityWeight (priority t) |}.

(** ** Sorting (lines 41-56) *)

(** [Array.prototype.sort] with a comparator: a stable sort, here by
    insertion.  An element moves behind an earlier one only when the
    comparator is positive on the pair; a NaN result counts as zero. *)
Section Sort.
Context {A : Type} (comparator : A -> A -> num).

Fixpoint sort_insert (x : A) (l : list A) : list A :=
  match l with
  | [] => [x]
  | y :: l' =>
      if ngtb (comparator x y) zero then y :: sort_insert x l'
      else x :: l
  end.

Fixpoint array_sort (l : list A) : list A :=
  match l with
  | [] => []
  | x :: l' => sort_insert x (array_sort l')
  end.

End Sort.

(** [x ?? d] *)
Definition nullish {A : Type} (x : option A) (d : A) : A :=
  match x with Some v => v | None => d end.

(** The ROI a task is ranked by: [roi ?? -Infinity]. *)
Definition roiKey (d : DerivedTask) : num := nullish (roi d) NInf.

Section Ranking.
Context {C : Collator}.

(** The comparator of [sortTasks]. *)
Definition compareTasks (a b : DerivedTask) : num :=
  let aROI := roiKey a in
  let bROI := roiKey b in
  if strict_neqb bROI aROI then (bROI - aROI)%num
  else if negb (Z.eqb (priorityWeight b) (priorityWeight a))
  then num_of_Z (priorityWeight b - priorityWeight a)
  else num_of_Z (localeCompare (title (task a)) (title (task b))).

Definition sortTasks (tasks : list DerivedTask) : list DerivedTask :=
  array_sort compareTasks tasks.

(** The ranking order in the words of the specification: [a] may stand
    directly before [b] when its ROI is greater, or the ROIs are equal and
    its priority weight is greater, or both are equal and its title does
    not collate after that of [b]. *)
Definition rankedBefore (a b : DerivedTask) : Prop :=
  ncmp (roiKey a) (roiKey b) = Some Gt
  \/ (roiKey a = roiKey b /\ (priorityWeight b < priorityWeight a)%Z)
  \/ (roiKey a = roiKey b /\ priorityWeight a = priorityWeight b
      /\ (localeCompare (title (task a)) (title (task b)) <= 0)%Z).

(** Two records that the three sort keys cannot tell apart. *)
Definition tied (a b : DerivedTask) : Prop :=
  roiKey a = roiKey b /\ priorityWeight a = priorityWeight b
  /\ localeCompare (title (task a)) (title (task b)) = 0%Z.

End Ranking.

(** A derived record as the data model has it: its ROI, when present, is a
    number and not NaN. *)
Definition validROI (d : DerivedTask) : bool := negb (isNaN (roiKey d)).

(** ** Arrays as objects

    An array is reached through a reference; [Array.prototype.sort] sorts
    the array it is called on in place, and a spread [[...a]] allocates a
    new array with the same elements. *)

Definition ref : Type := nat.
Definition store (A : Type) : Type := list (list A).

Definition deref {A : Type} (h : store A) (r : ref) : option (list A) := nth_error h r.

Definition alloc {A : Type} (h : store A) (a : list A) : store A * ref :=
  (h ++ [a], List.length h).

Fixpoint assign {A : Type} (h : store A) (r : ref) (a : list A) : store A :=
  match h, r with
  | [], _ => []
  | _ :: h', O => a :: h'
  | x :: h', S r' => x :: assign h' r' a
  end.

(** [r.sort(comparator)] *)
Definition sort_in_place {A : Type} (comparator : A -> A -> num) (h : store A) (r : ref) : store A :=
  match deref h r with
  | Some a => assign h r (array_sort comparator a)
  | None => h
  end.

(** [sortTasks] on references: [[...tasks].sort(compare)]; the result is
    the store after the call and the reference returned. *)
Definition sortTasks_ref {C : Collator} (h : store DerivedTask) (tasks : ref)
  : option (store DerivedTask * ref) :=
  match deref h tasks with
  | None => None
  | Some a =>
      let (h1, copy) := alloc h a in
      Some (sort_in_place compareTasks h1 copy, copy)
  end.

(** ** Core metrics (lines 62-108) *)

Definition isDone (t : Task) : bool := String.eqb (status t) "Done".

Definition computeTotalRevenue (tasks : list Task) : num :=
  fold_left (fun sum t => sum + revenue t)%num (filter isDone tasks) zero.

Definition computeTotalTimeTaken (tasks : list Task) : num :=
  fold_left (fun sum t => sum + timeTaken t)%num tasks zero.

Definition computeTimeEfficiency (tasks : list Task) : num :=
  if Nat.eqb (List.length tasks) 0 then zero
  else (num_of_nat (List.length (filter isDone tasks)) / num_of_nat (List.length tasks)
        * num_of_Z 100)%num.

Definition computeRevenuePerHour (tasks : list Task) : num :=
  let time := computeTotalTimeTaken tasks in
  if ngtb time zero then (computeTotalRevenue tasks / time)%num else zero.

(** [.filter(v => typeof v === 'number')]: drops the [null]s. *)
Fixpoint numbersOf (l : list (option num)) : list num :=
  match l with
  | [] => []
  | Some v :: l' => v :: numbersOf l'
  | None :: l' => numbersOf l'
  end.

(** [.reduce((s, v) => s + v, 0)] *)
Definition total (values : list num) : num := fold_left nadd values zero.

Definition computeAverageROI (tasks : list Task) : num :=
  let values := numbersOf (map (fun t => computeROI (revenue t) (timeTaken t)) tasks) in
  if Nat.eqb (List.length values) 0 then zero
  else (total values / num_of_nat (List.length values))%num.

Definition computePerformanceGrade (avgROI : num) : string :=
  if ngtb avgROI (num_of_Z 500) then "Excellent"
  else if ngeb avgROI (num_of_Z 200) then "Good"
  else "Needs Improvement".

(** ** Dashboard analytics (lines 114-184) *)

Record Funnel : Type := mkFunnel {
  todo : nat;
  inProgress : nat;
  done : nat;
  conversionTodoToInProgress : num;
  conversionInProgressToDone : num
}.

Definition countStatus (s : string) (tasks : list Task) : nat :=
  List.length (filter (fun t => String.eqb (status t) s) tasks).

Definition computeFunnel (tasks : list Task) : Funnel :=
  let todo := countStatus "Todo" tasks in
  let inProgress := countStatus "In Progress" tasks in
  let done := countStatus "Done" tasks in
  let total := (todo + inProgress + done)%nat in
  {| todo := todo;
     inProgress := inProgress;
     done := done;
     conversionTodoToInProgress :=
       if Nat.eqb total 0 then zero
       else (num_of_nat (inProgress + done) / num_of_nat total)%num;
     conversionInProgressToDone :=
       if Nat.eqb inProgress 0 then zero
       else (num_of_nat done / num_of_nat inProgress)%num |}.

Definition msPerDay : Z := 24 * 3600 * 1000.

Definition daysBetween (aISO bISO : Z) : num :=
  let a := num_of_Z aISO in
  let b := num_of_Z bISO in
  Math_max zero (Math_round ((b - a) / num_of_Z msPerDay)%num).

(** [Record<Task['priority'], T>]: an object with the three keys, in the
    order they were written. *)
Record ByPriority (T : Type) : Type := mkByPriority {
  High : T;
  Medium : T;
  Low : T
}.
Arguments mkByPriority {T} _ _ _.
Arguments High {T} _.
Arguments Medium {T} _.
Arguments Low {T} _.


(** [groups[p].push(v)]; [None] is the TypeError raised when [groups[p]]
    is [undefined]. *)
Definition pushKey (groups : ByPriority (list num)) (p : string) (v : num)
  : option (ByPriority (list num)) :=
  if String.eqb p "High" then Some (mkByPriority (High groups ++ [v]) (Medium groups) (Low groups))
  else if String.eqb p "Medium" then Some (mkByPriority (High groups) (Medium groups ++ [v]) (Low groups))
  else if String.eqb p "Low" then Some (mkByPriority (High groups) (Medium groups) (Low groups ++ [v]))
  else None.

(** The [forEach] that fills the groups. *)
Fixpoint collectDays (tasks : list Task) (groups : ByPriority (list num))
  : option (ByPriority (list num)) :=
  match tasks with
  | [] => Some groups
  | t :: rest =>
      match completedAt t with
      | None => collectDays rest groups
      | Some c =>
          match pushKey groups (priority t) (daysBetween (createdAt t) c) with
          | None => None
          | Some groups' => collectDays rest groups'
          end
      end
  end.

Record Velocity : Type := mkVelocity {
  avgDays : num;
  medianDays : num
}.

(** [(a, b) => a - b] *)
Definition ascending (a b : num) : num := (a - b)%num.

(** [arr[i]]; an index past the end reads [undefined], NaN as a number. *)
Definition at_index (arr : list num) (i : nat) : num := nth i arr NaN.

(** The statistics of one group (the body of the second [forEach]). *)
Definition velocityOf (group : list num) : Velocity :=
  let arr := array_sort ascending group in
  if Nat.eqb (List.length arr) 0 then mkVelocity zero zero
  else mkVelocity (total arr / num_of_nat (List.length arr))%num
                  (at_index arr (List.length arr / 2)).

Definition emptyGroups : ByPriority (list num) := mkByPriority [] [] [].

Definition computeVelocityByPriority (tasks : list Task) : option (ByPriority Velocity) :=
  match collectDays tasks emptyGroups with
  | None => None
  | Some groups =>
      Some (mkByPriority (velocityOf (High groups)) (velocityOf (Medium groups))
              (velocityOf (Low groups)))
  end.

(** The property names that every object inherits from
    [Object.prototype]. *)
Definition objectPrototypeKeys : list string :=
  ["constructor"; "__defineGetter__"; "__defineSetter__"; "hasOwnProperty";
   "__lookupGetter__"; "__lookupSetter__"; "isPrototypeOf"; "propertyIsEnumerable";
   "toString"; "valueOf"; "__proto__"; "toLocaleString"].

Definition inherited (key : string) : bool := existsb (String.eqb key) objectPrototypeKeys.

(** [weights[status]]; [None] is [undefined].  Under an inherited name the
    object literal answers with a function (with [Object.prototype] itself
    for [__proto__]): a value that is not nullish and that is NaN as a
    number. *)
Definition weights (status : string) : option num :=
  if String.eqb status "Todo" then Some (Fin (Q2Qc (1 # 10)))
  else if String.eqb status "In Progress" then Some (Fin (Q2Qc (1 # 2)))
  else if String.eqb status "Done" then Some one
  else if inherited status then Some NaN
  else None.

Definition computeWeightedPipeline (tasks : list Task) : num :=
  fold_left (fun sum t => sum + revenue t * nullish (weights (status t)) zero)%num tasks zero.

(** Decimal notation of an integer, as a template literal prints it. *)
Definition decimal (z : Z) : string := NilZero.string_of_int (Z.to_int z).

(** ** Dates

    The accessors of [Date] on a time value, by the day-number algorithms
    of the proleptic Gregorian calendar (months are 1..12 in
    [days_from_civil] and [civil_from_days], 0..11 in the accessors, as in
    JavaScript). *)

Open Scope Z_scope.

Definition Day (t : Z) : Z := t / msPerDay.

Definition days_from_civil (y m d : Z) : Z :=
  let y' := if m <=? 2 then y - 1 else y in
  let era := y' / 400 in
  let yoe := y' - era * 400 in
  let doy := (153 * (if 2 <? m then m - 3 else m + 9) + 2) / 5 + d - 1 in
  let doe := yoe * 365 + yoe / 4 - yoe / 100 + doy in
  era * 146097 + doe - 719468.

Definition civil_from_days (z : Z) : Z * Z * Z :=
  let z' := z + 719468 in
  let era := z' / 146097 in
  let doe := z' - era * 146097 in
  let yoe := (doe - doe / 1460 + doe / 36524 - doe / 146096) / 365 in
  let doy := doe - (365 * yoe + yoe / 4 - yoe / 100) in
  let mp := (5 * doy + 2) / 153 in
  let d := doy - (153 * mp + 2) / 5 + 1 in
  let m := if mp <? 10 then mp + 3 else mp - 9 in
  (yoe + era * 400 + (if m <=? 2 then 1 else 0), m, d).

Definition getUTCFullYear (t : Z) : Z := fst (fst (civil_from_days (Day t))).
Definition getUTCMonth (t : Z) : Z := snd (fst (civil_from_days (Day t))) - 1.
Definition getUTCDate (t : Z) : Z := snd (civil_from_days (Day t)).

(** 0 is Sunday; the epoch was a Thursday. *)
Definition getUTCDay (t : Z) : Z := (Day t + 4) mod 7.

(** The day number of a year, a month (0-based, any integer) and a day of
    the month (any integer).  [Date.UTC] reads the years 0 to 99 as 1900 to
    1999; those years are outside the model. *)
Definition MakeDay (year month date : Z) : Z :=
  days_from_civil (year + month / 12) (month mod 12 + 1) 1 + date - 1.

Definition Date_UTC (year month date : Z) : Z := MakeDay year month date * msPerDay.

Definition setUTCDate (t date : Z) : Z :=
  MakeDay (getUTCFullYear t) (getUTCMonth t) date * msPerDay + t mod msPerDay.

Close Scope Z_scope.

(** A number in a template literal; the engine prints whole numbers only. *)
Definition toStringNum (x : num) : string :=
  match x with
  | NaN => "NaN"
  | PInf => "Infinity"
  | NInf => "-Infinity"
  | Fin q => decimal (floorQc q)
  end.

(** ** Weekly throughput (lines 186-204, 257-264) *)

Definition getWeekNumber (d : Z) : num :=
  let t := Date_UTC (getUTCFullYear d) (getUTCMonth d) (getUTCDate d) in
  let t := setUTCDate t (getUTCDate t + 4 - (if Z.eqb (getUTCDay t) 0 then 7 else getUTCDay t))%Z in
  let y := Date_UTC (getUTCFullYear t) 0 1 in
  Math_ceil ((((num_of_Z t - num_of_Z y) / num_of_Z 86400000) + one) / num_of_Z 7)%num.

Definition weekKey (d : Z) : string :=
  (decimal (getUTCFullYear d) ++ "-W" ++ toStringNum (getWeekNumber d))%string.

(** A [Map] with string keys: its entries in insertion order. *)
Fixpoint map_get {V : Type} (m : list (string * V)) (k : string) : option V :=
  match m with
  | [] => None
  | (k', v) :: rest => if String.eqb k' k then Some v else map_get rest k
  end.

Fixpoint map_set {V : Type} (m : list (string * V)) (k : string) (v : V) : list (string * V) :=
  match m with
  | [] => [(k, v)]
  | (k', v') :: rest =>
      if String.eqb k' k then (k, v) :: rest else (k', v') :: map_set rest k v
  end.

Module Bucket.
Record t : Type := mk {
  week : string;
  count : nat;
  revenue : num
}.
End Bucket.

Section Throughput.
Context {C : Collator}.

(** [(a, b) => a[0].localeCompare(b[0])] *)
Definition byKey {V : Type} (a b : string * V) : num :=
  num_of_Z (localeCompare (fst a) (fst b)).

Definition computeThroughputByWeek (tasks : list Task) : list Bucket.t :=
  let map :=
    fold_left
      (fun map t =>
         match completedAt t with
         | None => map
         | Some d =>
             let key := weekKey d in
             let v := nullish (map_get map key) (0%nat, zero) in
             map_set map key (S (fst v), (snd v + revenue t)%num)
         end)
      tasks [] in
  List.map (fun e => Bucket.mk (fst e) (fst (snd e)) (snd (snd e)))
    (array_sort byKey map).

End Throughput.

(** ** Cohort revenue (lines 233-251) *)

(** [s.split('|')] *)
Fixpoint split_bar (s : string) (current : string) : list string :=
  match s with
  | EmptyString => [current]
  | String c rest =>
      if Ascii.eqb c "|"%char then current :: split_bar rest EmptyString
      else split_bar rest (current ++ String c EmptyString)%string
  end.

Module Cohort.
Record t : Type := mk {
  week : string;
  priority : string;
  revenue : num
}.
End Cohort.

(** A component of a destructured array; [undefined] prints as such. *)
Definition part (parts : list string) (i : nat) : string := nth i parts "undefined".

Definition computeCohortRevenue (tasks : list Task) : list Cohort.t :=
  let map :=
    fold_left
      (fun map t =>
         let key := (weekKey (createdAt t) ++ "|" ++ priority t)%string in
         map_set map key (nullish (map_get map key) zero + revenue t)%num)
      tasks [] in
  List.map (fun e =>
              let parts := split_bar (fst e) EmptyString in
              Cohort.mk (part parts 0) (part parts 1) (snd e))
    map.

(** ** Forecast (lines 206-231) *)

(** A point of a weekly series, [{ week, revenue }]. *)
Record Weekly : Type := mkWeekly {
  week : string;
  weekRevenue : num
}.

(** [l.reduce((s, v, i) => f(s, v, i), acc)], the index starting at [i]. *)
Fixpoint reduce_indexed {A B : Type} (f : B -> A -> nat -> B) (l : list A) (i : nat) (acc : B) : B :=
  match l with
  | [] => acc
  | v :: rest => reduce_indexed f rest (S i) (f acc v i)
  end.

(** [weekly.map((_, i) => i)] *)
Definition indices {A : Type} (l : list A) : list num :=
  map num_of_nat (seq 0 (List.length l)).

(** [Array.from({ length: n }, (_, i) => f(i))] *)
Definition array_from {A : Type} (n : nat) (f : nat -> A) : list A := map f (seq 0 n).

Definition computeForecast (weekly : list Weekly) (horizonWeeks : nat) : list Weekly :=
  if Nat.ltb (List.length weekly) 2 then []
  else
    let y := map weekRevenue weekly in
    let x := indices weekly in
    let n := num_of_nat (List.length x) in
    let sumX := total x in
    let sumY := total y in
    let sumXY := reduce_indexed (fun s v i => s + v * at_index y i)%num x 0 zero in
    let sumXX := fold_left (fun s v => s + v * v)%num x zero in
    let slope := ((n * sumXY - sumX * sumY) / or_else (n * sumXX - sumX * sumX) one)%num in
    let intercept := ((sumY - slope * sumX) / n)%num in
    array_from horizonWeeks
      (fun i => {| week := "+" ++ decimal (Z.of_nat (i + 1));
                   weekRevenue :=
                     Math_max zero
                       (slope * (num_of_nat (List.length x) + num_of_nat i) + intercept)%num |}).

(** The horizon when the caller gives none. *)
Definition defaultHorizon : nat := 4.

(** ** The second copy of the module (lines 265-498)

    It repeats [computeROI] (with [typeof] tests that every number
    passes), [computePriorityWeight], [withDerived], [sortTasks] and the
    core metrics with the same meaning; the two functions below differ in
    their text. *)

Module Copy.

(** [groups[k].slice().sort(...)], and 0 for an empty group. *)
Definition velocityOf (group : list num) : Velocity :=
  let arr := array_sort ascending group in
  let avg := if Nat.eqb (List.length arr) 0 then zero
             else (total arr / num_of_nat (List.length arr))%num in
  let median := if Nat.eqb (List.length arr) 0 then zero
                else at_index arr (List.length arr / 2) in
  mkVelocity avg median.

Definition computeVelocityByPriority (tasks : list Task) : option (ByPriority Velocity) :=
  match collectDays tasks emptyGroups with
  | None => None
  | Some groups =>
      Some (mkByPriority (velocityOf (High groups)) (velocityOf (Medium groups))
              (velocityOf (Low groups)))
  end.

(** A number times [undefined] is NaN. *)
Definition times_weight (revenue : num) (w : option num) : num :=
  match w with Some v => (revenue * v)%num | None => NaN end.

(** No [?? 0] here: [sum + t.revenue * weights[t.status]]. *)
Definition computeWeightedPipeline (tasks : list Task) : num :=
  fold_left (fun sum t => sum + times_weight (revenue t) (weights (status t)))%num tasks zero.

End Copy.

(** ** Sample records *)

(** The two tasks of the specification's scenario. *)
Definition taskA : Task :=
  mkTask "t-a" "A" (num_of_Z 1000) (num_of_Z 10) "High" "Done" None 0 None.
Definition taskB : Task :=
  mkTask "t-b" "B" (num_of_Z 500) (num_of_Z 10) "Low" "Done" None 0 None.

(** Two different tasks with the same title, revenue, time and priority. *)
Definition twin1 : Task :=
  mkTask "t-1" "Sync" (num_of_Z 300) (num_of_Z 3) "Medium" "Todo" None 0 None.
Definition twin2 : Task :=
  mkTask "t-2" "Sync" (num_of_Z 300) (num_of_Z 3) "Medium" "Todo" None 0 None.

(** ** Specification-side notions *)

(** The ROI of a task is defined. *)
Definition hasROI (t : Task) : bool :=
  match computeROI (revenue t) (timeTaken t) with Some _ => true | None => false end.

(** The sum of [f] over a collection. *)
Definition sumOver {A : Type} (f : A -> num) (l : list A) : num :=
  fold_right (fun x acc => f x + acc)%num zero l.

(** The factor a status contributes to the pipeline: its weight, NaN for a
    name inherited from [Object.prototype], 0 for any other status. *)
Definition statusWeight (s : string) : num :=
  if String.eqb s "Todo" then Fin (Q2Qc (1 # 10))
  else if String.eqb s "In Progress" then Fin (Q2Qc (1 # 2))
  else if String.eqb s "Done" then Fin (Q2Qc 1)
  else if inherited s then NaN
  else Fin (Q2Qc 0).

(** A priority that names one of the three groups. *)
Definition knownPriority (p : string) : bool :=
  String.eqb p "High" || String.eqb p "Medium" || String.eqb p "Low".

(** Every completed task has one of the three priorities. *)
Definition completedHaveKnownPriority (tasks : list Task) : bool :=
  forallb (fun t => match completedAt t with
                    | None => true
                    | Some _ => knownPriority (priority t)
                    end) tasks.

(** The cycle times, in days, of the completed tasks of priority [p]. *)
Definition completedDays (p : string) (tasks : list Task) : list num :=
  flat_map (fun t => match completedAt t with
                     | Some c => if String.eqb (priority t) p
                                 then [daysBetween (createdAt t) c] else []
                     | None => []
                     end) tasks.



(** A task whose status is none of the three. *)
Definition archived : Task :=
  mkTask "t-x" "Old deal" (num_of_Z 100) (num_of_Z 5) "Low" "Archived" None 0 None.

(** Four completed High tasks taking 1, 5, 3 and 9 days, and an open one. *)
Definition completedAfter (name : string) (days : Z) : Task :=
  mkTask name name (num_of_Z 100) (num_of_Z 4) "High" "Done" None
    (10 * msPerDay)%Z (Some ((10 + days) * msPerDay)%Z).

Definition velocitySample : list Task :=
  [completedAfter "a" 1; completedAfter "b" 5; taskB; completedAfter "c" 3;
   completedAfter "d" 9].

(** *** Least squares

    The points of a series are its revenues against the indices 0, 1, 2,
    ...; a line is the least-squares line when no other line has a smaller
    sum of squared residuals. *)

Definition qn (n : nat) : Qc := Q2Qc (inject_Z (Z.of_nat n)).

Definition pointsOf (ys : list Qc) : list (Qc * Qc) :=
  combine (map qn (seq 0 (List.length ys))) ys.

Definition squaredResiduals (a b : Qc) (pts : list (Qc * Qc)) : Qc :=
  fold_right (fun p acc => (snd p - (a * fst p + b)) * (snd p - (a * fst p + b)) + acc)%Qc
    0%Qc pts.

Definition leastSquaresLine (a b : Qc) (ys : list Qc) : Prop :=
  forall a' b', (squaredResiduals a b (pointsOf ys) <= squaredResiduals a' b' (pointsOf ys))%Qc.

(** The series of the specification's scenario. *)
Definition twoWeeks : list Weekly :=
  [mkWeekly "w1" (num_of_Z 10); mkWeekly "w2" (num_of_Z 20)].

Definition sumQc (l : list Qc) : Qc := fold_right Qcplus 0%Qc l.

(** The sums of the closed form, and the line they give. *)
Definition sumX (pts : list (Qc * Qc)) : Qc := sumQc (map fst pts).
Definition sumY (pts : list (Qc * Qc)) : Qc := sumQc (map snd pts).
Definition sumXY (pts : list (Qc * Qc)) : Qc := sumQc (map (fun p => fst p * snd p)%Qc pts).
Definition sumXX (pts : list (Qc * Qc)) : Qc := sumQc (map (fun p => fst p * fst p)%Qc pts).

Definition olsSlope (pts : list (Qc * Qc)) : Qc :=
  let n := qn (List.length pts) in
  ((n * sumXY pts - sumX pts * sumY pts) / (n * sumXX pts - sumX pts * sumX pts))%Qc.

Definition olsIntercept (pts : list (Qc * Qc)) : Qc :=
  ((sumY pts - olsSlope pts * sumX pts) / qn (List.length pts))%Qc.

(** Tasks completed on given days (UTC noon). *)
Definition completedOn (name : string) (year month date : Z) (amount : Z) : Task :=
  mkTask name name (num_of_Z amount) (num_of_Z 2) "Medium" "Done" None
    (Date_UTC year month date) (Some (Date_UTC year month date + 12 * 3600 * 1000)%Z).

(** All revenues and times of a collection are finite. *)
Definition finiteTask (t : Task) : bool := isFinite (revenue t) && isFinite (timeTaken t).

Definition finiteGroups (groups : ByPriority (list num)) : Prop :=
  Forall (fun x => isFinite x = true) (High groups)
  /\ Forall (fun x => isFinite x = true) (Medium groups)
  /\ Forall (fun x => isFinite x = true) (Low groups).

Definition finiteVelocity (v : Velocity) : bool :=
  isFinite (avgDays v) && isFinite (medianDays v).

(** A task whose time is NaN and one whose revenue is infinite, as an
    unvalidated feed can deliver them. *)
Definition noTime : Task :=
  mkTask "t-n" "No time" (num_of_Z 100) NaN "Low" "Todo" None 0 None.
Definition windfall : Task :=
  mkTask "t-w" "Windfall" PInf (num_of_Z 1) "High" "Done" None 0 None.

(** ** The task store ([hooks/useTasks], src/hooks/useTasks.ts)

    The hook keeps the task list and the last deleted task in React state;
    a state update is a function of the previous state.  The clock
    ([new Date()]) and [crypto.randomUUID()] are arguments. *)

(** [Partial<Task>]: the keys a patch carries; a key that is present
    carries a defined value. *)
Record Patch : Type := mkPatch {
  p_id : option string;
  p_title : option string;
  p_revenue : option num;
  p_timeTaken : option num;
  p_priority : option string;
  p_status : option string;
  p_notes : option string;
  p_createdAt : option Z;
  p_completedAt : option Z
}.

(** [present ?? fallback] for a key that may itself be absent. *)
Definition override {A : Type} (present fallback : option A) : option A :=
  match present with Some v => Some v | None => fallback end.

(** [{ ...t, ...patch }] *)
Definition spread (t : Task) (patch : Patch) : Task :=
  {| id := nullish (p_id patch) (id t);
     title := nullish (p_title patch) (title t);
     revenue := nullish (p_revenue patch) (revenue t);
     timeTaken := nullish (p_timeTaken patch) (timeTaken t);
     priority := nullish (p_priority patch) (priority t);
     status := nullish (p_status patch) (status t);
     notes := override (p_notes patch) (notes t);
     createdAt := nullish (p_createdAt patch) (createdAt t);
     completedAt := override (p_completedAt patch) (completedAt t) |}.

(** The argument of [addTask]: a task whose id and timestamps may be
    missing. *)
Record NewTask : Type := mkNewTask {
  n_id : option string;
  n_title : string;
  n_revenue : num;
  n_timeTaken : num;
  n_priority : string;
  n_status : string;
  n_notes : option string;
  n_createdAt : option Z;
  n_completedAt : option Z
}.

Definition hasId (i : string) (t : Task) : bool := String.eqb (id t) i.

Module UseTasks.

Record State : Type := mkState {
  tasks : list Task;
  lastDeleted : option Task
}.

(** [{ ...task, id: crypto.randomUUID(), createdAt: task.createdAt ?? now }] *)
Definition addTask (task : NewTask) (uuid : string) (now : Z) (s : State) : State :=
  {| tasks :=
       tasks s ++
       [ {| id := uuid;
            title := n_title task;
            revenue := n_revenue task;
            timeTaken := n_timeTaken task;
            priority := n_priority task;
            status := n_status task;
            notes := n_notes task;
            createdAt := nullish (n_createdAt task) now;
            completedAt := n_completedAt task |} ];
     lastDeleted := lastDeleted s |}.

Definition updateTask (i : string) (patch : Patch) (s : State) : State :=
  {| tasks := map (fun t => if hasId i t then spread t patch else t) (tasks s);
     lastDeleted := lastDeleted s |}.

Definition deleteTask (i : string) (s : State) : State :=
  {| tasks := filter (fun t => negb (hasId i t)) (tasks s);
     lastDeleted := find (hasId i) (tasks s) |}.

Definition undoDelete (s : State) : State :=
  match lastDeleted s with
  | None => s
  | Some t => {| tasks := tasks s ++ [t]; lastDeleted := None |}
  end.

Definition clearLastDeleted (s : State) : State :=
  {| tasks := tasks s; lastDeleted := None |}.

(** [sortTasks(tasks.map(withDerived))] *)
Definition derivedSorted {C : Collator} (s : State) : list DerivedTask :=
  sortTasks (map withDerived (tasks s)).

Record Metrics : Type := mkMetrics {
  totalRevenue : num;
  totalTimeTaken : num;
  timeEfficiencyPct : num;
  revenuePerHour : num;
  averageROI : num;
  performanceGrade : string
}.

Definition EMPTY_METRICS : Metrics :=
  mkMetrics zero zero zero zero zero "Needs Improvement".

Definition metrics (s : State) : Metrics :=
  if Nat.eqb (List.length (tasks s)) 0 then EMPTY_METRICS
  else
    let avgROI := computeAverageROI (tasks s) in
    {| totalRevenue := computeTotalRevenue (tasks s);
       totalTimeTaken := fold_left (fun acc t => acc + timeTaken t)%num (tasks s) zero;
       timeEfficiencyPct := computeTimeEfficiency (tasks s);
       revenuePerHour := computeRevenuePerHour (tasks s);
       averageROI := avgROI;
       performanceGrade := computePerformanceGrade avgROI |}.

End UseTasks.

(** ** The other copy of the hook (src/unnamed/part_000)

    It shares the state, [deleteTask], [undoDelete], [derivedSorted] and
    [metrics] with the first; adding and updating guard the time taken and
    stamp the completion time. *)

Module UseTasksGuarded.

(** [task.timeTaken > 0 ? task.timeTaken : 1] *)
Definition positiveOr1 (v : num) : num := if ngtb v zero then v else one.

Definition addTask (task : NewTask) (uuid : string) (now : Z) (s : UseTasks.State)
  : UseTasks.State :=
  {| UseTasks.tasks :=
       UseTasks.tasks s ++
       [ {| id := nullish (n_id task) uuid;
            title := n_title task;
            revenue := n_revenue task;
            timeTaken := positiveOr1 (n_timeTaken task);
            priority := n_priority task;
            status := n_status task;
            notes := n_notes task;
            createdAt := now;
            completedAt := if String.eqb (n_status task) "Done" then Some now else None |} ];
     UseTasks.lastDeleted := UseTasks.lastDeleted s |}.

(** [patch.timeTaken && patch.timeTaken > 0] *)
Definition patchesTime (patch : Patch) : bool :=
  match p_timeTaken patch with Some v => ngtb v zero | None => false end.

(** The patched task: the spread, then the guarded [timeTaken] and the
    [completedAt] stamp. *)
Definition patched (t : Task) (patch : Patch) (now : Z) : Task :=
  let u := spread t patch in
  {| id := id u;
     title := title u;
     revenue := revenue u;
     timeTaken := if patchesTime patch then nullish (p_timeTaken patch) (timeTaken t)
                  else timeTaken t;
     priority := priority u;
     status := status u;
     notes := notes u;
     createdAt := createdAt u;
     completedAt :=
       if negb (String.eqb (status t) "Done")
          && match p_status patch with Some st => String.eqb st "Done" | None => false end
       then Some now
       else completedAt t |}.

Definition updateTask (i : string) (patch : Patch) (now : Z) (s : UseTasks.State)
  : UseTasks.State :=
  {| UseTasks.tasks := map (fun t => if hasId i t then patched t patch now else t)
                         (UseTasks.tasks s);
     UseTasks.lastDeleted := UseTasks.lastDeleted s |}.

End UseTasksGuarded.

(** ** The filtered view (App, src/unnamed/part_001 lines 69-79)

    Strings are byte strings: [toLowerCase] maps the letters A-Z, and
    letters outside ASCII are outside the model. *)

Definition lowerChar (c : ascii) : ascii :=
  let n := nat_of_ascii c in
  if (65 <=? n)%nat && (n <=? 90)%nat then ascii_of_nat (n + 32) else c.

Fixpoint toLowerCase (s : string) : string :=
  match s with
  | EmptyString => EmptyString
  | String c rest => String (lowerChar c) (toLowerCase rest)
  end.

(** [s.includes(q)] *)
Fixpoint includes (s q : string) : bool :=
  String.prefix q s
  || match s with
     | EmptyString => false
     | String _ rest => includes rest q
     end.

Definition keeps (q fStatus fPriority : string) (t : DerivedTask) : bool :=
  if negb (String.eqb q "") && negb (includes (toLowerCase (title (task t))) (toLowerCase q))
  then false
  else if negb (String.eqb fStatus "All") && negb (String.eqb (status (task t)) fStatus)
  then false
  else if negb (String.eqb fPriority "All") && negb (String.eqb (priority (task t)) fPriority)
  then false
  else true.

Definition filtered (derivedSorted : list DerivedTask) (q fStatus fPriority : string)
  : list DerivedTask :=
  filter (keeps q fStatus fPriority) derivedSorted.

(** ** Further specification-side notions *)

(** Records with the same three sort keys as [x]. *)
Definition tiedWith {C : Collator} (x d : DerivedTask) : bool :=
  strict_eqb (roiKey x) (roiKey d)
  && Z.eqb (priorityWeight x) (priorityWeight d)
  && Z.eqb (localeCompare (title (task x)) (title (task d))) 0.

(** The completed tasks whose week key is [k], and the tasks of cohort
    key [k]. *)
Definition completedInWeek (k : string) (t : Task) : bool :=
  match completedAt t with
  | Some d => String.eqb (weekKey d) k
  | None => false
  end.

Definition cohortKey (t : Task) : string :=
  (weekKey (createdAt t) ++ "|" ++ priority t)%string.

Definition inCohort (k : string) (t : Task) : bool := String.eqb (cohortKey t) k.

(** The different keys of a list, each at the place of its first
    occurrence. *)
Fixpoint firstOccurrences (keys : list string) : list string :=
  match keys with
  | [] => []
  | k :: rest => k :: filter (fun k' => negb (String.eqb k' k)) (firstOccurrences rest)
  end.

(** A string without the separator of the cohort key. *)
Fixpoint noBar (s : string) : bool :=
  match s with
  | EmptyString => true
  | String c rest => negb (Ascii.eqb c "|"%char) && noBar rest
  end.

(** Day numbers: the Monday and the Thursday of the week of a day (day 0,
    1 January 1970, was a Thursday). *)
Definition mondayOf (z : Z) : Z := (z - (z + 3) mod 7)%Z.
Definition thursdayOf (z : Z) : Z := (mondayOf z + 3)%Z.

(** Every task has a time greater than zero. *)
Definition positiveTime (t : Task) : bool := ngtb (timeTaken t) zero.

(** The ids in use in a state: those of the tasks and of the task kept for
    undo. *)
Definition idsInUse (s : UseTasks.State) : list string :=
  map id (UseTasks.tasks s)
  ++ match UseTasks.lastDeleted s with Some t => [id t] | None => [] end.

(** Every task of a state, the one kept for undo included, has a time
    greater than zero. *)
Definition positiveTimes (s : UseTasks.State) : bool :=
  forallb positiveTime (UseTasks.tasks s)
  && match UseTasks.lastDeleted s with Some t => positiveTime t | None => true end.

(** A state with the two tasks of the scenario. *)
Definition twoTasks : UseTasks.State := UseTasks.mkState [taskA; taskB] None.

(** *** Grouping

    The two bucketing functions fill a [Map] the same way: a record with a
    key replaces the value stored under it by an update of that value. *)

Section GroupBy.
Context {A V : Type} (key : A -> option string) (upd : option V -> A -> V).

Definition groupStep (m : list (string * V)) (x : A) : list (string * V) :=
  match key x with
  | None => m
  | Some k => map_set m k (upd (map_get m k) x)
  end.

(** The records filed under [k]. *)
Definition filedUnder (k : string) (x : A) : bool :=
  match key x with Some k' => String.eqb k' k | None => false end.

(** The value a group ends with, from the value it started with. *)
Definition foldGroup (start : option V) (l : list A) : option V :=
  fold_left (fun o x => Some (upd o x)) l start.

End GroupBy.

(** The updates of [computeThroughputByWeek] and [computeCohortRevenue]. *)
Definition weekOfCompletion (t : Task) : option string := option_map weekKey (completedAt t).

Definition countAndAdd (o : option (nat * num)) (t : Task) : nat * num :=
  let v := nullish o (0%nat, zero) in (S (fst v), (snd v + revenue t)%num).

Definition addRevenue (o : option num) (t : Task) : num := (nullish o zero + revenue t)%num.

(** The completed tasks of a collection. *)
Definition isCompleted (t : Task) : bool :=
  match completedAt t with Some _ => true | None => false end.


(** A task that is done carries the instant of its completion; a state
    in which every task does, the one kept for undo included. *)
Definition stamped (t : Task) : bool := negb (isDone t) || isCompleted t.

Definition completionsRecorded (s : UseTasks.State) : bool :=
  forallb stamped (UseTasks.tasks s)
  && match UseTasks.lastDeleted s with Some t => stamped t | None => true end.

(** A task in one of the three stages of the funnel. *)
Definition inFunnel (t : Task) : bool :=
  String.eqb (status t) "Todo" || String.eqb (status t) "In Progress"
  || String.eqb (status t) "Done".

(** ** Calendar notions

    ISO 8601 numbers the weeks of a year by their Thursdays: the week of a
    day belongs to the year of its Thursday, and its number is the rank of
    that Thursday among the Thursdays of the year. *)

Open Scope Z_scope.

Definition yearOfDay (z : Z) : Z := fst (fst (civil_from_days z)).
Definition monthOfDay (z : Z) : Z := snd (fst (civil_from_days z)).
Definition dateOfDay (z : Z) : Z := snd (civil_from_days z).

(** The day number of the first of January of a year, and the day of the
    year of a day number, from 0. *)
Definition newYearsDay (y : Z) : Z := days_from_civil y 1 1.
Definition dayOfYear (z : Z) : Z := z - newYearsDay (yearOfDay z).

Definition isoWeek (z : Z) : Z := dayOfYear (thursdayOf z) / 7 + 1.

(** The instants of the model: [Date.UTC] reads the years 0 to 99 as 1900
    to 1999, and a [Date] holds no instant after 8.64e15 ms. *)
Definition modelledInstant (d : Z) : Prop :=
  Date_UTC 100 0 4 <= d <= 8640000000000000.

Close Scope Z_scope.

(** A state with the two tasks that share their sort keys. *)
Definition twinTasks : UseTasks.State := UseTasks.mkState [twin1; twin2] None.

(** A state with a task to do, a task done and stamped, and a task kept
    for undo. *)
Definition stampedTasks : UseTasks.State :=
  UseTasks.mkState [twin1; completedAfter "c" 2] (Some twin2).

(** A deal of 2^1023 closed in a quarter of an hour: both numbers are
    binary64 numbers, their quotient 2^1025 is not. *)
Definition hugeDeal : Task :=
  mkTask "t-h" "Huge" (num_of_Z (2 ^ 1023)) (Fin (Q2Qc (1 # 4))) "Low" "Done" None 0 None.

(** A task whose status is a name every object inherits. *)
Definition inheritedStatus : Task :=
  mkTask "t-c" "Odd" (num_of_Z 100) (num_of_Z 5) "Low" "constructor" None 0 None.

(** * The range of binary64

    The definitions above compute with exact numbers, as the formulas of
    the specification do.  Whether an output is finite cannot be read off
    them: in the engine a sum, a product or a quotient of finite numbers
    whose magnitude reaches [2^1024 - 2^970] (half way between the greatest
    finite number and [2^1024]) is an infinity.  [Binary64] repeats the
    functions of the module with that range: [add], [sub], [mul] and [div]
    stand for [+], [-], [*] and [/], and their results pass through
    [ranged].  Rounding inside the range is not modelled. *)

Module Binary64.

Definition threshold : Qc := Q2Qc (inject_Z (2 ^ 1024 - 2 ^ 970)).

Definition ranged (x : num) : num :=
  match x with
  | Fin q =>
      match Qccompare q threshold with
      | Lt => match Qccompare (- threshold) q with
              | Lt => Fin q
              | _ => NInf
              end
      | _ => PInf
      end
  | _ => x
  end.

Definition add (x y : num) : num := ranged (x + y)%num.
Definition sub (x y : num) : num := ranged (x - y)%num.
Definition mul (x y : num) : num := ranged (x * y)%num.
Definition div (x y : num) : num := ranged (x / y)%num.

(** ** ROI and derived fields (lines 7-35) *)

Definition computeROI (revenue timeTaken : num) : option num :=
  if negb (isFinite revenue) || negb (isFinite timeTaken) || nleb timeTaken zero
  then None
  else Some (div revenue timeTaken).

Definition withDerived (t : Task) : DerivedTask :=
  {| task := t;
     roi := computeROI (revenue t) (timeTaken t);
     priorityWeight := computePriorityWeight (priority t) |}.

(** ** Sorting (lines 41-56) *)

Section Ranking.
Context {C : Collator}.

Definition compareTasks (a b : DerivedTask) : num :=
  let aROI := roiKey a in
  let bROI := roiKey b in
  if strict_neqb bROI aROI then sub bROI aROI
  else if negb (Z.eqb (priorityWeight b) (priorityWeight a))
  then num_of_Z (priorityWeight b - priorityWeight a)
  else num_of_Z (localeCompare (title (task a)) (title (task b))).

Definition sortTasks (tasks : list DerivedTask) : list DerivedTask :=
  array_sort compareTasks tasks.

(** [sortTasks(tasks.map(withDerived))], the list the hook displays. *)
Definition derivedSorted (tasks : list Task) : list DerivedTask :=
  sortTasks (map withDerived tasks).

End Ranking.

(** ** Core metrics (lines 62-100) *)

Definition computeTotalRevenue (tasks : list Task) : num :=
  fold_left (fun sum t => add sum (revenue t)) (filter isDone tasks) zero.

Definition computeTotalTimeTaken (tasks : list Task) : num :=
  fold_left (fun sum t => add sum (timeTaken t)) tasks zero.

Definition computeTimeEfficiency (tasks : list Task) : num :=
  if Nat.eqb (List.length tasks) 0 then zero
  else mul (div (num_of_nat (List.length (filter isDone tasks)))
                 (num_of_nat (List.length tasks)))
           (num_of_Z 100).

Definition computeRevenuePerHour (tasks : list Task) : num :=
  let time := computeTotalTimeTaken tasks in
  if ngtb time zero then div (computeTotalRevenue tasks) time else zero.

Definition total (values : list num) : num := fold_left add values zero.

Definition computeAverageROI (tasks : list Task) : num :=
  let values := numbersOf (map (fun t => computeROI (revenue t) (timeTaken t)) tasks) in
  if Nat.eqb (List.length values) 0 then zero
  else div (total values) (num_of_nat (List.length values)).

(** ** Dashboard analytics (lines 114-251) *)

Definition computeFunnel (tasks : list Task) : Funnel :=
  let todo := countStatus "Todo" tasks in
  let inProgress := countStatus "In Progress" tasks in
  let done := countStatus "Done" tasks in
  let total := (todo + inProgress + done)%nat in
  {| todo := todo;
     inProgress := inProgress;
     done := done;
     conversionTodoToInProgress :=
       if Nat.eqb total 0 then zero
       else div (num_of_nat (inProgress + done)) (num_of_nat total);
     conversionInProgressToDone :=
       if Nat.eqb inProgress 0 then zero
       else div (num_of_nat done) (num_of_nat inProgress) |}.

(** [daysBetween] on the two results of [getTime]: the time value of a
    date, or NaN for a string that does not parse. *)
Definition daysBetweenTimes (a b : num) : num :=
  Math_max zero (Math_round (div (sub b a) (num_of_Z msPerDay))).

Definition daysBetween (aISO bISO : Z) : num :=
  daysBetweenTimes (num_of_Z aISO) (num_of_Z bISO).

Fixpoint collectDays (tasks : list Task) (groups : ByPriority (list num))
  : option (ByPriority (list num)) :=
  match tasks with
  | [] => Some groups
  | t :: rest =>
      match completedAt t with
      | None => collectDays rest groups
      | Some c =>
          match pushKey groups (priority t) (daysBetween (createdAt t) c) with
          | None => None
          | Some groups' => collectDays rest groups'
          end
      end
  end.

(** [(a, b) => a - b] *)
Definition ascending (a b : num) : num := sub a b.

Definition velocityOf (group : list num) : Velocity :=
  let arr := array_sort ascending group in
  if Nat.eqb (List.length arr) 0 then mkVelocity zero zero
  else mkVelocity (div (total arr) (num_of_nat (List.length arr)))
                  (at_index arr (List.length arr / 2)).

Definition computeVelocityByPriority (tasks : list Task) : option (ByPriority Velocity) :=
  match collectDays tasks emptyGroups with
  | None => None
  | Some groups =>
      Some (mkByPriority (velocityOf (High groups)) (velocityOf (Medium groups))
              (velocityOf (Low groups)))
  end.

Definition computeWeightedPipeline (tasks : list Task) : num :=
  fold_left (fun sum t => add sum (mul (revenue t) (nullish (weights (status t)) zero)))
    tasks zero.

(** The week keys come from dates, whose arithmetic stays inside the
    range; they are those of [weekKey]. *)
Definition computeThroughputByWeek {C : Collator} (tasks : list Task) : list Bucket.t :=
  let map :=
    fold_left
      (fun map t =>
         match completedAt t with
         | None => map
         | Some d =>
             let key := weekKey d in
             let v := nullish (map_get map key) (0%nat, zero) in
             map_set map key (S (fst v), add (snd v) (revenue t))
         end)
      tasks [] in
  List.map (fun e => Bucket.mk (fst e) (fst (snd e)) (snd (snd e)))
    (array_sort byKey map).

Definition computeCohortRevenue (tasks : list Task) : list Cohort.t :=
  let map :=
    fold_left
      (fun map t =>
         let key := (weekKey (createdAt t) ++ "|" ++ priority t)%string in
         map_set map key (add (nullish (map_get map key) zero) (revenue t)))
      tasks [] in
  List.map (fun e =>
              let parts := split_bar (fst e) EmptyString in
              Cohort.mk (part parts 0) (part parts 1) (snd e))
    map.

(** ** Forecast (lines 206-231) *)

Definition computeForecast (weekly : list Weekly) (horizonWeeks : nat) : list Weekly :=
  if Nat.ltb (List.length weekly) 2 then []
  else
    let y := map weekRevenue weekly in
    let x := indices weekly in
    let n := num_of_nat (List.length x) in
    let sumX := total x in
    let sumY := total y in
    let sumXY := reduce_indexed (fun s v i => add s (mul v (at_index y i))) x 0 zero in
    let sumXX := fold_left (fun s v => add s (mul v v)) x zero in
    let slope := div (sub (mul n sumXY) (mul sumX sumY))
                     (or_else (sub (mul n sumXX) (mul sumX sumX)) one) in
    let intercept := div (sub sumY (mul slope sumX)) n in
    array_from horizonWeeks
      (fun i => {| week := "+" ++ decimal (Z.of_nat (i + 1));
                   weekRevenue :=
                     Math_max zero
                       (add (mul slope (add (num_of_nat (List.length x)) (num_of_nat i)))
                            intercept) |}).

End Binary64.

(** ** Inputs inside the range *)

(** The magnitude of a finite number. *)
Definition magnitude (x : num) : Qc :=
  match x with
  | Fin q => match Qccompare q 0 with Lt => (- q)%Qc | _ => q end
  | _ => 0%Qc
  end.

Definition qleb (a b : Qc) : bool :=
  match Qccompare a b with Gt => false | _ => true end.

(** Half of the range: a sum whose terms have magnitudes adding up to no
    more than this stays finite, roundings included. *)
Definition safe : Qc := Q2Qc (inject_Z (2 ^ 1023)).

(** A number [x] with [-B <= x <= B]. *)
Definition bounded (B : Qc) (x : num) : Prop :=
  exists q, x = Fin q /\ (- B <= q)%Qc /\ (q <= B)%Qc.

(** Revenues and times are finite, and the magnitudes of the revenues and
    of the times each add up to [safe] at most. *)
Definition modest (tasks : list Task) : bool :=
  forallb finiteTask tasks
  && qleb (sumQc (map (fun t => magnitude (revenue t)) tasks)) safe
  && qleb (sumQc (map (fun t => magnitude (timeTaken t)) tasks)) safe.

(** No status is a name inherited from [Object.prototype]. *)
Definition ownStatuses (tasks : list Task) : bool :=
  forallb (fun t => negb (inherited (status t))) tasks.

(** An array holds fewer than 2^32 elements. *)
Definition arrayLength {A : Type} (l : list A) : bool :=
  (Z.of_nat (List.length l) <? 2 ^ 32)%Z.

(** The time values a [Date] can hold, and tasks whose dates are valid. *)
Definition validTime (d : Z) : bool :=
  ((-8640000000000000 <=? d) && (d <=? 8640000000000000))%Z.

Definition validDates (tasks : list Task) : bool :=
  forallb (fun t => validTime (createdAt t)
                    && match completedAt t with Some c => validTime c | None => true end)
    tasks.

(** The magnitudes of the ROIs of the rated tasks add up to [safe] at
    most. *)
Definition modestROIs (tasks : list Task) : bool :=
  qleb (sumQc (map magnitude
                 (numbersOf (map (fun t => computeROI (revenue t) (timeTaken t)) tasks))))
    safe.

(** No time is negative and the total time is not a fraction of an hour:
    it is 0, or it is 1 at least.  Dividing by such a total does not
    enlarge the revenue, whatever the rounding of the sum of the times. *)
Definition wholeHours (tasks : list Task) : bool :=
  forallb (fun t => ngeb (timeTaken t) zero) tasks
  && (ngeb (computeTotalTimeTaken tasks) one || negb (ngtb (computeTotalTimeTaken tasks) zero)).

(** A whole number of days between 0 and the span of the dates a [Date]
    can hold. *)
Definition dayCount (x : num) : Prop :=
  exists k, x = num_of_Z k /\ (0 <= k <= 200000001)%Z.

(** A series whose revenues are finite and of magnitude 2^500 at most. *)
Definition modestSeries (weekly : list Weekly) : bool :=
  forallb (fun p => isFinite (weekRevenue p)
                    && qleb (magnitude (weekRevenue p)) (Q2Qc (inject_Z (2 ^ 500))))
    weekly.
(** * Properties *)

(** ** Numbers *)

Lemma Qccompare_num_of_Z (z : Z) : Qccompare (Q2Qc (inject_Z z)) 0 = Z.compare z 0.
Proof.
  unfold Qccompare.
  assert (E : (Q2Qc (inject_Z z) : Q) == inject_Z z) by apply Qred_correct.
  rewrite E.
  unfold Qcompare, inject_Z. simpl. now rewrite Z.mul_1_r.
Qed.

Lemma Qccompare_minus (a b : Qc) : Qccompare (a + - b) 0 = Qccompare a b.
Proof.
  destruct (Qccompare a b) eqn:E.
  - apply Qceq_alt in E. subst b. rewrite Qcplus_opp_r. now apply Qceq_alt.
  - apply Qclt_alt in E. apply Qclt_alt.
    apply Qclt_minus_iff in E. apply Qclt_minus_iff.
    replace (0 + - (a + - b)) with (b + - a) by ring. exact E.
  - apply Qcgt_alt in E. apply Qcgt_alt.
    apply Qclt_minus_iff in E. exact E.
Qed.

Lemma ngtb_num_of_Z (z : Z) : ngtb (num_of_Z z) zero = (0 <? z)%Z.
Proof.
  unfold ngtb, num_of_Z, zero. simpl.
  change (Q2Qc (inject_Z 0)) with (0 : Qc).
  rewrite Qccompare_num_of_Z.
  rewrite Z.ltb_antisym, Z.leb_compare. now destruct (z ?= 0)%Z.
Qed.

(** The sign of a difference of two different numbers is their order. *)
Lemma ncmp_sub (x y : num) :
  isNaN x = false -> isNaN y = false -> strict_eqb x y = false ->
  ncmp (x - y) zero = ncmp x y.
Proof.
  unfold strict_eqb, nsub.
  destruct x as [| | |a], y as [| | |b]; simpl; try discriminate; auto.
  intros _ _ _. f_equal.
  change (Q2Qc (inject_Z 0)) with (0 : Qc). apply Qccompare_minus.
Qed.

Lemma ncmp_antisym (x y : num) :
  ncmp y x = option_map CompOpp (ncmp x y).
Proof.
  destruct x as [| | |a], y as [| | |b]; simpl; auto.
  f_equal. unfold Qccompare. symmetry. apply Qcompare_antisym.
Qed.

Lemma ncmp_eq (x y : num) : ncmp x y = Some Eq -> x = y.
Proof.
  destruct x as [| | |a], y as [| | |b]; simpl; try discriminate; auto.
  intros H. injection H as H. apply Qceq_alt in H. now subst.
Qed.

Lemma ncmp_gt_trans (x y z : num) :
  ncmp x y = Some Gt -> ncmp y z = Some Gt -> ncmp x z = Some Gt.
Proof.
  destruct x as [| | |a], y as [| | |b], z as [| | |c]; simpl; try discriminate; auto.
  intros H1 H2. injection H1 as H1. injection H2 as H2. f_equal.
  apply Qcgt_alt in H1. apply Qcgt_alt in H2. apply Qcgt_alt.
  eapply Qclt_trans; eassumption.
Qed.

Lemma strict_eqb_sym (x y : num) : strict_eqb x y = strict_eqb y x.
Proof.
  unfold strict_eqb. rewrite (ncmp_antisym y x).
  destruct (ncmp y x) as [[]|]; reflexivity.
Qed.

Lemma strict_eqb_true (x y : num) : strict_eqb x y = true -> x = y.
Proof.
  unfold strict_eqb. destruct (ncmp x y) as [[]|] eqn:E; try discriminate.
  intros _. now apply ncmp_eq.
Qed.

Lemma strict_eqb_refl (x : num) : isNaN x = false -> strict_eqb x x = true.
Proof.
  unfold strict_eqb. destruct x as [| | |a]; simpl; try discriminate; auto.
  intros _. now rewrite (proj1 (Qceq_alt a a) eq_refl).
Qed.

Lemma Qc_eq_bool_false (x y : Qc) : x <> y -> Qc_eq_bool x y = false.
Proof. unfold Qc_eq_bool. now destruct (Qc_eq_dec x y). Qed.

Lemma Qc_eq_bool_true (x y : Qc) : x = y -> Qc_eq_bool x y = true.
Proof. unfold Qc_eq_bool. now destruct (Qc_eq_dec x y). Qed.

Lemma num_eqb_eq (x y : num) : num_eqb x y = true -> x = y.
Proof.
  destruct x as [| | |a], y as [| | |b]; simpl; try discriminate; auto.
  intros H. f_equal. now apply Qc_eq_bool_correct.
Qed.

Lemma nums_eqb_eq (l l' : list num) : nums_eqb l l' = true -> l = l'.
Proof.
  revert l'. induction l as [|x l IH]; intros [|y l']; simpl; try discriminate; auto.
  intros H. apply andb_prop in H. destruct H as [H1 H2].
  f_equal; [now apply num_eqb_eq | now apply IH].
Qed.

Lemma nadd_Fin (a b : Qc) : (Fin a + Fin b)%num = Fin (a + b).
Proof. reflexivity. Qed.

Lemma nsub_Fin (a b : Qc) : (Fin a - Fin b)%num = Fin (a - b).
Proof. reflexivity. Qed.

Lemma nmul_Fin (a b : Qc) : (Fin a * Fin b)%num = Fin (a * b).
Proof. reflexivity. Qed.

(** Dividing by a finite number other than zero. *)
Lemma ndiv_Fin (a b : Qc) : b <> 0%Qc -> (Fin a / Fin b)%num = Fin (a / b).
Proof. intros H. simpl. now rewrite Qc_eq_bool_false. Qed.

Lemma nleb_zero_Fin (d : Qc) : nleb (Fin d) zero = false <-> (0 < d)%Qc.
Proof.
  unfold nleb, zero, num_of_Z. simpl. change (Q2Qc (inject_Z 0)) with (0 : Qc).
  destruct (Qccompare d 0) eqn:E; split; intros H; try discriminate; try reflexivity.
  - apply Qceq_alt in E. subst. exfalso. now apply (Qclt_not_eq _ _ H).
  - apply Qclt_alt in E. exfalso. apply (Qclt_not_le _ _ H). now apply Qclt_le_weak.
  - now apply Qcgt_alt in E.
Qed.

(** The two outcomes of [computeROI]. *)
Lemma computeROI_cases (r t : num) :
  ((isFinite r = false \/ isFinite t = false \/ nleb t zero = true)
   /\ computeROI r t = None)
  \/ (exists a b, r = Fin a /\ t = Fin b /\ (0 < b)%Qc
                  /\ computeROI r t = Some (Fin (a / b))).
Proof.
  unfold computeROI.
  destruct r as [| | |a]; simpl; try (left; split; [now left | reflexivity]).
  destruct t as [| | |b]; simpl; try (left; split; [right; now left | reflexivity]).
  destruct (nleb (Fin b) zero) eqn:E; simpl.
  - left. split; [right; now right | reflexivity].
  - right. exists a, b. apply nleb_zero_Fin in E. repeat split; auto.
    rewrite Qc_eq_bool_false; [reflexivity|].
    intros ->. now apply (Qclt_not_eq _ _ E).
Qed.

(** ** The stable sort *)

Section SortFacts.
Context {A : Type} (comparator : A -> A -> num).

Lemma sort_insert_perm (x : A) (l : list A) :
  Permutation (sort_insert comparator x l) (x :: l).
Proof.
  induction l as [|y l IH]; simpl.
  - apply Permutation_refl.
  - destruct (ngtb (comparator x y) zero).
    + eapply perm_trans; [apply perm_skip, IH | apply perm_swap].
    + apply Permutation_refl.
Qed.

Lemma array_sort_perm (l : list A) : Permutation (array_sort comparator l) l.
Proof.
  induction l as [|x l IH]; simpl.
  - constructor.
  - eapply perm_trans; [apply sort_insert_perm | now apply perm_skip].
Qed.

Lemma array_sort_length (l : list A) : List.length (array_sort comparator l) = List.length l.
Proof. apply Permutation_length, array_sort_perm. Qed.

(** The sort orders its output by any relation the comparator decides on
    the elements it is given. *)
Variable ok : A -> Prop.
Variable R : A -> A -> Prop.
Hypothesis keep : forall x y, ok x -> ok y -> ngtb (comparator x y) zero = false -> R x y.
Hypothesis swap : forall x y, ok x -> ok y -> ngtb (comparator x y) zero = true -> R y x.

Lemma sort_insert_HdRel (a x : A) (l : list A) :
  R a x -> HdRel R a l -> HdRel R a (sort_insert comparator x l).
Proof.
  intros Hax Hal. destruct l as [|y l]; simpl.
  - now constructor.
  - destruct (ngtb (comparator x y) zero).
    + constructor. now inversion Hal.
    + now constructor.
Qed.

Lemma sort_insert_Sorted (x : A) (l : list A) :
  ok x -> Forall ok l -> Sorted R l -> Sorted R (sort_insert comparator x l).
Proof.
  intros Hx Hl Hs. induction l as [|y l IH]; simpl.
  - repeat constructor.
  - inversion Hl as [|? ? Hy Hl']; subst. inversion Hs as [|? ? Hs' Hd]; subst.
    destruct (ngtb (comparator x y) zero) eqn:E.
    + constructor; [now apply IH|].
      apply sort_insert_HdRel; [now apply swap | assumption].
    + constructor; [assumption|]. constructor. now apply keep.
Qed.

Lemma array_sort_Sorted (l : list A) :
  Forall ok l -> Sorted R (array_sort comparator l).
Proof.
  induction l as [|x l IH]; simpl; intros H.
  - constructor.
  - inversion H; subst. apply sort_insert_Sorted; auto.
    eapply Permutation_Forall; [apply Permutation_sym, array_sort_perm | assumption].
Qed.

End SortFacts.

Lemma Sorted_adjacent {A : Type} (R : A -> A -> Prop) (l : list A) :
  Sorted R l ->
  forall i a b, nth_error l i = Some a -> nth_error l (S i) = Some b -> R a b.
Proof.
  induction 1 as [|x l Hs IH Hd]; intros i a b Ha Hb.
  - destruct i; discriminate.
  - destruct i as [|i]; simpl in *.
    + injection Ha as <-. destruct l as [|y l]; [discriminate|].
      injection Hb as <-. now inversion Hd.
    + eapply IH; eassumption.
Qed.

(** Two lists sorted by a relation that is antisymmetric on their elements
    are equal as soon as they hold the same elements. *)
Lemma StronglySorted_perm_eq {A : Type} (R : A -> A -> Prop) (l1 : list A) :
  forall l2,
    StronglySorted R l1 -> StronglySorted R l2 -> Permutation l1 l2 ->
    (forall a b, In a l1 -> In b l1 -> R a b -> R b a -> a = b) ->
    l1 = l2.
Proof.
  induction l1 as [|a l1 IH]; intros l2 H1 H2 Hp Hanti.
  - apply Permutation_nil in Hp. now subst.
  - destruct l2 as [|b l2].
    + apply Permutation_sym, Permutation_nil in Hp. discriminate.
    + inversion H1 as [|? ? S1 F1]; subst. inversion H2 as [|? ? S2 F2]; subst.
      assert (Hab : a = b).
      { assert (Hb : In b (a :: l1))
          by (eapply Permutation_in; [apply Permutation_sym, Hp | now left]).
        assert (Ha : In a (b :: l2))
          by (eapply Permutation_in; [apply Hp | now left]).
        destruct Hb as [Hb|Hb]; [assumption|].
        destruct Ha as [Ha|Ha]; [now symmetry|].
        rewrite Forall_forall in F1, F2.
        apply Hanti; [now left | now right | now apply F1 | now apply F2]. }
      subst b. f_equal. apply IH; auto.
      * eapply Permutation_cons_inv; eassumption.
      * intros x y Hx Hy. apply Hanti; now right.
Qed.

(** ** Ranking *)

Lemma validROI_notNaN (d : DerivedTask) : validROI d = true -> isNaN (roiKey d) = false.
Proof. unfold validROI. now destruct (isNaN (roiKey d)). Qed.

Lemma ncmp_defined (x y : num) :
  isNaN x = false -> isNaN y = false -> exists c, ncmp x y = Some c.
Proof.
  destruct x as [| | |a], y as [| | |b]; simpl; try discriminate; eauto.
Qed.

Section RankingFacts.
Context {C : Collator}.

Lemma localeCompare_flip (s t : string) :
  (0 < localeCompare s t)%Z -> (localeCompare t s < 0)%Z.
Proof.
  intros H. pose proof (localeCompare_antisym s t) as E.
  rewrite (Z.sgn_pos (localeCompare s t)) in E by assumption.
  apply Z.sgn_neg_iff. lia.
Qed.

Lemma localeCompare_zero_sym (s t : string) :
  localeCompare s t = 0%Z -> localeCompare t s = 0%Z.
Proof.
  intros H. pose proof (localeCompare_antisym s t) as E.
  rewrite H in E. simpl in E. now apply Z.sgn_null_iff.
Qed.

Lemma compareTasks_keep (x y : DerivedTask) :
  validROI x = true -> validROI y = true ->
  ngtb (compareTasks x y) zero = false -> rankedBefore x y.
Proof.
  intros Hx%validROI_notNaN Hy%validROI_notNaN. unfold compareTasks, rankedBefore, strict_neqb.
  destruct (strict_eqb (roiKey y) (roiKey x)) eqn:E; simpl.
  - apply strict_eqb_true in E.
    destruct (Z.eqb_spec (priorityWeight y) (priorityWeight x)) as [Hp|Hp]; simpl;
      rewrite ngtb_num_of_Z; intros H%Z.ltb_ge.
    + right; right. auto.
    + right; left. split; [auto | lia].
  - unfold ngtb. rewrite ncmp_sub by assumption.
    destruct (ncmp_defined _ _ Hy Hx) as [c Hc]. rewrite Hc.
    intros H. left. rewrite (ncmp_antisym (roiKey y) (roiKey x)), Hc.
    unfold strict_eqb in E. rewrite Hc in E.
    destruct c; try discriminate; reflexivity.
Qed.

Lemma compareTasks_swap (x y : DerivedTask) :
  validROI x = true -> validROI y = true ->
  ngtb (compareTasks x y) zero = true -> rankedBefore y x.
Proof.
  intros Hx%validROI_notNaN Hy%validROI_notNaN. unfold compareTasks, rankedBefore, strict_neqb.
  destruct (strict_eqb (roiKey y) (roiKey x)) eqn:E; simpl.
  - apply strict_eqb_true in E.
    destruct (Z.eqb_spec (priorityWeight y) (priorityWeight x)) as [Hp|Hp]; simpl;
      rewrite ngtb_num_of_Z; intros H%Z.ltb_lt.
    + right; right. repeat split; auto.
      apply Z.lt_le_incl. now apply localeCompare_flip.
    + right; left. split; [auto | lia].
  - unfold ngtb. rewrite ncmp_sub by assumption.
    destruct (ncmp (roiKey y) (roiKey x)) as [[]|]; try discriminate. now left.
Qed.

Lemma rankedBefore_trans (a b c : DerivedTask) :
  rankedBefore a b -> rankedBefore b c -> rankedBefore a c.
Proof.
  unfold rankedBefore.
  intros [H1|[[E1 H1]|[E1 [P1 H1]]]] [H2|[[E2 H2]|[E2 [P2 H2]]]].
  - left. eapply ncmp_gt_trans; eassumption.
  - left. now rewrite <- E2.
  - left. now rewrite <- E2.
  - left. now rewrite E1.
  - right; left. split; [congruence | lia].
  - right; left. split; [congruence | lia].
  - left. now rewrite E1.
  - right; left. split; [congruence | lia].
  - right; right. repeat split; try congruence.
    eapply localeCompare_trans; eassumption.
Qed.

Lemma rankedBefore_antisym_tied (a b : DerivedTask) :
  rankedBefore a b -> rankedBefore b a -> tied a b.
Proof.
  unfold rankedBefore, tied.
  assert (Hgt : forall x y, ncmp x y = Some Gt -> ncmp y x = Some Gt -> False).
  { intros x y H1 H2. rewrite (ncmp_antisym x y), H1 in H2. discriminate. }
  assert (Hne : forall x y, ncmp x y = Some Gt -> x = y -> False).
  { intros x y H1 ->. pose proof (ncmp_antisym y y) as E. rewrite H1 in E. discriminate. }
  intros [H1|[[E1 H1]|[E1 [P1 H1]]]] [H2|[[E2 H2]|[E2 [P2 H2]]]];
    try (exfalso; eauto; lia).
  repeat split; auto.
  pose proof (localeCompare_antisym (title (task a)) (title (task b))) as E.
  destruct (Z.sgn_spec (localeCompare (title (task a)) (title (task b)))) as [[? ?]|[[? ?]|[? ?]]];
    destruct (Z.sgn_spec (localeCompare (title (task b)) (title (task a)))) as [[? ?]|[[? ?]|[? ?]]];
    lia.
Qed.

Lemma sortTasks_Sorted (l : list DerivedTask) :
  forallb validROI l = true -> Sorted rankedBefore (sortTasks l).
Proof.
  intros H. unfold sortTasks.
  apply array_sort_Sorted with (ok := fun d => validROI d = true).
  - apply compareTasks_keep.
  - apply compareTasks_swap.
  - apply Forall_forall. now apply forallb_forall.
Qed.

Lemma sortTasks_StronglySorted (l : list DerivedTask) :
  forallb validROI l = true -> StronglySorted rankedBefore (sortTasks l).
Proof.
  intros H. apply Sorted_StronglySorted.
  - intros a b c. apply rankedBefore_trans.
  - now apply sortTasks_Sorted.
Qed.

End RankingFacts.

(** ** The array store *)

Lemma deref_alloc_old {A : Type} (h : store A) (a : list A) (r : ref) (x : list A) :
  deref h r = Some x -> deref (fst (alloc h a)) r = Some x.
Proof.
  unfold deref, alloc. simpl. intros H.
  rewrite nth_error_app1; [assumption|].
  apply nth_error_Some. congruence.
Qed.

Lemma deref_alloc_new {A : Type} (h : store A) (a : list A) :
  deref (fst (alloc h a)) (snd (alloc h a)) = Some a /\ deref h (snd (alloc h a)) = None.
Proof.
  unfold deref, alloc. simpl. split.
  - rewrite nth_error_app2 by lia. now rewrite Nat.sub_diag.
  - now apply nth_error_None.
Qed.

Lemma deref_assign_same {A : Type} (h : store A) (r : ref) (a x : list A) :
  deref h r = Some x -> deref (assign h r a) r = Some a.
Proof.
  unfold deref. revert r. induction h as [|y h IH]; intros [|r]; simpl; try discriminate; auto.
Qed.

Lemma deref_assign_other {A : Type} (h : store A) (r r' : ref) (a : list A) :
  r <> r' -> deref (assign h r a) r' = deref h r'.
Proof.
  unfold deref. revert r r'.
  induction h as [|y h IH]; intros [|r] [|r'] Hne; simpl; auto; try congruence.
Qed.

(** ** Claims about [sortTasks] *)

(** C8.  In the output of [sortTasks], any two adjacent elements are
    ordered by ROI descending (an absent ROI counting as -Infinity), then
    by priority weight descending when the ROIs are equal, then by title
    ascending in the collation's order.  The records are those of the data
    model: a present ROI is a number, not NaN. *)
Theorem sortTasks_adjacent_ranked {C : Collator} (l : list DerivedTask)
  (Hvalid : forallb validROI l = true) (i : nat) (a b : DerivedTask)
  (Ha : nth_error (sortTasks l) i = Some a)
  (Hb : nth_error (sortTasks l) (S i) = Some b) :
  rankedBefore a b.
Proof.
  eapply Sorted_adjacent; [apply sortTasks_Sorted | |]; eassumption.
Qed.

Lemma sortTasks_adjacent_ranked_witness :
  @rankedBefore codeUnitCollator (withDerived taskA) (withDerived taskB).
Proof.
  apply (@sortTasks_adjacent_ranked codeUnitCollator
           [withDerived taskB; withDerived taskA] eq_refl 0%nat);
    reflexivity.
Defined.

(** Every record produced by [withDerived] is one of the data model. *)
Lemma withDerived_validROI (t : Task) : validROI (withDerived t) = true.
Proof.
  unfold validROI, roiKey, withDerived. simpl.
  destruct (computeROI_cases (revenue t) (timeTaken t)) as [[_ E]|(r & d & _ & _ & _ & E)];
    now rewrite E.
Qed.

(** C10.  [sortTasks] allocates a new array: the reference it returns was
    not in use, every array of the store, the input among them, is left as
    it was, and the new array holds a permutation of the input's elements. *)
Theorem sortTasks_new_array_permutation {C : Collator}
  (h : store DerivedTask) (tasks : ref) (a : list DerivedTask)
  (Hin : deref h tasks = Some a) :
  exists h' out,
    sortTasks_ref h tasks = Some (h', out)
    /\ deref h out = None
    /\ (forall r x, deref h r = Some x -> deref h' r = Some x)
    /\ deref h' tasks = Some a
    /\ deref h' out = Some (sortTasks a)
    /\ Permutation (sortTasks a) a.
Proof.
  unfold sortTasks_ref. rewrite Hin.
  destruct (deref_alloc_new h a) as [Hnew Hfresh].
  destruct (alloc h a) as [h1 copy] eqn:E. simpl in Hnew, Hfresh.
  exists (sort_in_place compareTasks h1 copy), copy.
  assert (Hold : forall r x, deref h r = Some x ->
                             deref (sort_in_place compareTasks h1 copy) r = Some x).
  { intros r x Hr. unfold sort_in_place. rewrite Hnew.
    rewrite deref_assign_other by (intros ->; congruence).
    change h1 with (fst (h1, copy)). rewrite <- E. now apply deref_alloc_old. }
  repeat split; auto.
  - unfold sort_in_place. rewrite Hnew. eapply deref_assign_same; eassumption.
  - apply array_sort_perm.
Qed.

Lemma sortTasks_new_array_permutation_witness :
  exists h' out,
    @sortTasks_ref codeUnitCollator [[withDerived taskB; withDerived taskA]] 0%nat
      = Some (h', out)
    /\ deref [[withDerived taskB; withDerived taskA]] out = None
    /\ (forall r x, deref [[withDerived taskB; withDerived taskA]] r = Some x ->
                    deref h' r = Some x)
    /\ deref h' 0%nat = Some [withDerived taskB; withDerived taskA]
    /\ deref h' out = Some (@sortTasks codeUnitCollator [withDerived taskB; withDerived taskA])
    /\ Permutation (@sortTasks codeUnitCollator [withDerived taskB; withDerived taskA])
         [withDerived taskB; withDerived taskA].
Proof.
  exact (@sortTasks_new_array_permutation codeUnitCollator
           [[withDerived taskB; withDerived taskA]] 0%nat
           [withDerived taskB; withDerived taskA] eq_refl).
Defined.

(** C1 (as amended).  Two calls on equal input give the same output, and
    on two inputs that are permutations of each other [sortTasks] gives
    the same output provided no two different records are tied on ROI,
    priority weight and title. *)
Theorem sortTasks_permutation_invariant {C : Collator} (l l' : list DerivedTask)
  (Hperm : Permutation l l')
  (Hvalid : forallb validROI l = true)
  (Hties : forall a b, In a l -> In b l -> tied a b -> a = b) :
  sortTasks l = sortTasks l'
  /\ (forall l1 l2 : list DerivedTask, l1 = l2 -> sortTasks l1 = sortTasks l2).
Proof.
  split; [|now intros l1 l2 ->].
  assert (Hvalid' : forallb validROI l' = true).
  { apply forallb_forall. intros x Hx.
    apply (proj1 (forallb_forall validROI l) Hvalid).
    eapply Permutation_in; [apply Permutation_sym|]; eassumption. }
  apply StronglySorted_perm_eq with (R := rankedBefore).
  - now apply sortTasks_StronglySorted.
  - now apply sortTasks_StronglySorted.
  - unfold sortTasks.
    eapply perm_trans; [apply array_sort_perm|].
    eapply perm_trans; [eassumption | apply Permutation_sym, array_sort_perm].
  - intros a b Ha Hb Hab Hba. apply Hties.
    + eapply Permutation_in; [apply array_sort_perm | exact Ha].
    + eapply Permutation_in; [apply array_sort_perm | exact Hb].
    + now apply rankedBefore_antisym_tied.
Qed.

Lemma sortTasks_permutation_invariant_witness :
  @sortTasks codeUnitCollator [withDerived taskB; withDerived taskA]
  = @sortTasks codeUnitCollator [withDerived taskA; withDerived taskB]
  /\ (forall l1 l2 : list DerivedTask,
         l1 = l2 -> @sortTasks codeUnitCollator l1 = @sortTasks codeUnitCollator l2).
Proof.
  apply (@sortTasks_permutation_invariant codeUnitCollator
           [withDerived taskB; withDerived taskA] [withDerived taskA; withDerived taskB]).
  - apply perm_swap.
  - reflexivity.
  - intros a b [<-|[<-|[]]] [<-|[<-|[]]] (_ & Hp & _); try reflexivity; discriminate Hp.
Defined.

(** Records tied on the three keys are never moved past each other. *)
Lemma compareTasks_tied {C : Collator} (a b : DerivedTask) :
  validROI a = true -> tied a b -> ngtb (compareTasks a b) zero = false.
Proof.
  intros Ha (Hr & Hp & Ht). unfold compareTasks, strict_neqb.
  rewrite <- Hr, strict_eqb_refl by now apply validROI_notNaN.
  cbn [negb]. rewrite Hp, Z.eqb_refl. cbn [negb]. now rewrite Ht.
Qed.

(** C1 (as stated) fails, whatever the collation: two different tasks tied
    on ROI, priority weight and title come out in the order they went in. *)
Lemma sortTasks_order_depends_on_input :
  Permutation [withDerived twin1; withDerived twin2] [withDerived twin2; withDerived twin1]
  /\ (forall C : Collator,
         @sortTasks C [withDerived twin1; withDerived twin2]
         = [withDerived twin1; withDerived twin2]
         /\ @sortTasks C [withDerived twin2; withDerived twin1]
            = [withDerived twin2; withDerived twin1])
  /\ [withDerived twin1; withDerived twin2] <> [withDerived twin2; withDerived twin1].
Proof.
  split; [apply perm_swap|]. split.
  - intros C.
    assert (T12 : tied (withDerived twin1) (withDerived twin2))
      by (split; [reflexivity | split; [reflexivity | apply localeCompare_refl]]).
    assert (T21 : tied (withDerived twin2) (withDerived twin1))
      by (split; [reflexivity | split; [reflexivity | apply localeCompare_refl]]).
    unfold sortTasks. cbn [array_sort sort_insert].
    rewrite (@compareTasks_tied C (withDerived twin2) (withDerived twin1) eq_refl T21).
    rewrite (@compareTasks_tied C (withDerived twin1) (withDerived twin2) eq_refl T12).
    split; reflexivity.
  - intros H. apply (f_equal (map (fun d => id (task d)))) in H. discriminate H.
Qed.

(** The scenario of the specification: ROIs 100 and 50, order [A, B]. *)
Example sortTasks_scenario :
  @sortTasks codeUnitCollator [withDerived taskB; withDerived taskA]
  = [withDerived taskA; withDerived taskB].
Proof. reflexivity. Qed.

(** ** Sums *)

Lemma nadd_comm (x y : num) : (x + y)%num = (y + x)%num.
Proof.
  destruct x as [| | |a], y as [| | |b]; simpl; try reflexivity.
  now rewrite Qcplus_comm.
Qed.

Lemma nadd_assoc (x y z : num) : (x + (y + z))%num = (x + y + z)%num.
Proof.
  destruct x as [| | |a], y as [| | |b], z as [| | |c]; simpl; try reflexivity.
  now rewrite Qcplus_assoc.
Qed.

Lemma nadd_zero_l (x : num) : (zero + x)%num = x.
Proof.
  destruct x as [| | |a]; simpl; try reflexivity.
  change (Q2Qc (inject_Z 0)) with (0 : Qc). now rewrite Qcplus_0_l.
Qed.

Lemma nadd_zero_r (x : num) : (x + zero)%num = x.
Proof. rewrite nadd_comm. apply nadd_zero_l. Qed.

(** A [reduce] that adds [f] of each element, started from any value. *)
Lemma reduce_add {A : Type} (f : A -> num) (l : list A) (acc : num) :
  fold_left (fun sum x => sum + f x)%num l acc = (acc + sumOver f l)%num.
Proof.
  revert acc. induction l as [|x l IH]; intros acc; simpl.
  - now rewrite nadd_zero_r.
  - rewrite IH. now rewrite nadd_assoc.
Qed.

Lemma reduce_sumOver {A : Type} (f : A -> num) (l : list A) :
  fold_left (fun sum x => sum + f x)%num l zero = sumOver f l.
Proof. rewrite reduce_add. apply nadd_zero_l. Qed.

Lemma total_sumOver (l : list num) : total l = sumOver (fun v => v) l.
Proof. unfold total. apply (reduce_sumOver (fun v => v)). Qed.

Lemma num_of_nat_nonzero (n : nat) : n <> 0%nat -> Q2Qc (inject_Z (Z.of_nat n)) <> 0%Qc.
Proof.
  intros Hn E. apply (f_equal (fun q => Qccompare q 0)) in E.
  rewrite Qccompare_num_of_Z in E.
  rewrite (proj1 (Qceq_alt 0 0) eq_refl) in E.
  apply Z.compare_eq in E. lia.
Qed.

Lemma ndiv_num_of_nat (a : Qc) (n : nat) :
  n <> 0%nat -> (Fin a / num_of_nat n)%num = Fin (a / Q2Qc (inject_Z (Z.of_nat n))).
Proof. intros H. unfold num_of_nat, num_of_Z. now rewrite ndiv_Fin by now apply num_of_nat_nonzero. Qed.

(** ** [computeROI] *)


Example computeROI_scenario :
  computeROI (num_of_Z 1000) (num_of_Z 10) = Some (num_of_Z 100)
  /\ computeROI (num_of_Z 500) (num_of_Z 0) = None
  /\ computeROI PInf (num_of_Z 10) = None
  /\ computeROI (num_of_Z 500) NaN = None.
Proof.
  repeat split; try reflexivity.
  unfold computeROI. simpl. f_equal. now apply num_eqb_eq.
Qed.

(** ** [computeAverageROI] *)

Lemma hasROI_value (t : Task) :
  hasROI t = true ->
  computeROI (revenue t) (timeTaken t) = Some (revenue t / timeTaken t)%num
  /\ isFinite (revenue t / timeTaken t)%num = true.
Proof.
  unfold hasROI.
  destruct (computeROI_cases (revenue t) (timeTaken t)) as [[_ E]|(a & b & Ha & Hb & Hpos & E)];
    rewrite E; [discriminate|].
  intros _. rewrite Ha, Hb, ndiv_Fin; [now split|].
  intros ->. now apply (Qclt_not_eq _ _ Hpos).
Qed.

(** The numbers kept by the [filter] are the ROIs of the tasks that have one. *)
Lemma numbersOf_computeROI (tasks : list Task) :
  numbersOf (map (fun t => computeROI (revenue t) (timeTaken t)) tasks)
  = map (fun t => revenue t / timeTaken t)%num (filter hasROI tasks).
Proof.
  induction tasks as [|t tasks IH]; simpl; [reflexivity|].
  destruct (hasROI t) eqn:E.
  - rewrite (proj1 (hasROI_value t E)). simpl. now rewrite IH.
  - unfold hasROI in E. destruct (computeROI (revenue t) (timeTaken t)); [discriminate|assumption].
Qed.

Lemma sumOver_map {A B : Type} (g : A -> B) (f : B -> num) (l : list A) :
  sumOver f (map g l) = sumOver (fun x => f (g x)) l.
Proof. induction l as [|x l IH]; simpl; [reflexivity | now rewrite IH]. Qed.

Lemma computeAverageROI_eq (tasks : list Task) :
  computeAverageROI tasks
  = (if Nat.eqb (List.length (filter hasROI tasks)) 0 then zero
     else (sumOver (fun t => revenue t / timeTaken t) (filter hasROI tasks)
           / num_of_nat (List.length (filter hasROI tasks)))%num).
Proof.
  unfold computeAverageROI. rewrite numbersOf_computeROI, length_map.
  destruct (Nat.eqb (List.length (filter hasROI tasks)) 0); [reflexivity|].
  now rewrite total_sumOver, sumOver_map.
Qed.

Lemma filter_hasROI_none (tasks : list Task) :
  (forall t, In t tasks -> computeROI (revenue t) (timeTaken t) = None) ->
  filter hasROI tasks = [].
Proof.
  induction tasks as [|t tasks IH]; intros H; simpl; [reflexivity|].
  unfold hasROI at 1. rewrite (H t) by now left.
  apply IH. intros u Hu. apply H. now right.
Qed.

(** C7.  [computeAverageROI] is the arithmetic mean of the ROI over the
    tasks whose ROI is defined, the others counting neither in the sum nor
    in the number of terms; it is 0 when no task has a defined ROI, the
    empty collection included. *)
Theorem computeAverageROI_mean (tasks : list Task) :
  computeAverageROI tasks
  = (if Nat.eqb (List.length (filter hasROI tasks)) 0 then zero
     else (sumOver (fun t => revenue t / timeTaken t) (filter hasROI tasks)
           / num_of_nat (List.length (filter hasROI tasks)))%num)
  /\ ((forall t, In t tasks -> computeROI (revenue t) (timeTaken t) = None) ->
      computeAverageROI tasks = zero)
  /\ computeAverageROI [] = zero.
Proof.
  split; [apply computeAverageROI_eq|]. split; [|reflexivity].
  intros Hnone. rewrite computeAverageROI_eq.
  now rewrite (filter_hasROI_none tasks Hnone).
Qed.

(** The scenario of the specification: ROIs 100 and 50 average to 75,
    graded "Needs Improvement". *)
Example computeAverageROI_scenario :
  computeAverageROI [taskA; taskB] = num_of_Z 75
  /\ computePerformanceGrade (num_of_Z 75) = "Needs Improvement".
Proof. split; [now apply num_eqb_eq | reflexivity]. Qed.

(** ** [computeWeightedPipeline] *)

Lemma weights_statusWeight (s : string) : nullish (weights s) zero = statusWeight s.
Proof.
  unfold weights, statusWeight.
  destruct (String.eqb s "Todo"); [reflexivity|].
  destruct (String.eqb s "In Progress"); [reflexivity|].
  destruct (String.eqb s "Done"); [reflexivity|].
  destruct (inherited s); reflexivity.
Qed.

(** The first copy (lines 171-184): the pipeline is the sum of revenue
    times the factor of the status: 1/10 for Todo, 1/2 for In Progress, 1
    for Done, and for any other status 0, unless it is a name inherited
    from [Object.prototype]: the factor is then NaN, and so is the
    pipeline.  It is 0 on the empty collection. *)
Lemma computeWeightedPipeline_weighted_sum (tasks : list Task) :
  computeWeightedPipeline tasks
  = sumOver (fun t => revenue t * statusWeight (status t))%num tasks
  /\ computeWeightedPipeline [] = zero
  /\ weights "Todo" = Some (Fin (Q2Qc (1 # 10)))
  /\ weights "In Progress" = Some (Fin (Q2Qc (1 # 2)))
  /\ weights "Done" = Some (Fin (Q2Qc 1))
  /\ (forall s, s <> "Todo" -> s <> "In Progress" -> s <> "Done" ->
                statusWeight s = if inherited s then NaN else zero)
  /\ ((exists t, In t tasks /\ inherited (status t) = true) ->
      computeWeightedPipeline tasks = NaN).
Proof.
  assert (E : computeWeightedPipeline tasks
              = sumOver (fun t => revenue t * statusWeight (status t))%num tasks).
  { unfold computeWeightedPipeline.
    rewrite (reduce_sumOver (fun t => revenue t * nullish (weights (status t)) zero)%num).
    induction tasks as [|t tasks IH]; simpl; [reflexivity|].
    now rewrite IH, weights_statusWeight. }
  split; [exact E|]. split; [reflexivity|]. split; [reflexivity|]. split; [reflexivity|].
  split; [reflexivity|]. split.
  - intros s H1 H2 H3. unfold statusWeight.
    apply String.eqb_neq in H1, H2, H3. now rewrite H1, H2, H3.
  - intros (t & Ht & Hi). rewrite E. clear E.
    induction tasks as [|u tasks IH]; [contradiction|]. unfold sumOver. cbn [fold_right].
    fold (sumOver (fun t => revenue t * statusWeight (status t))%num tasks).
    destruct Ht as [->|Ht].
    + assert (Ew : statusWeight (status t) = NaN).
      { unfold statusWeight, inherited in *.
        destruct (String.eqb_spec (status t) "Todo") as [e|_]; [rewrite e in Hi; discriminate|].
        destruct (String.eqb_spec (status t) "In Progress") as [e|_];
          [rewrite e in Hi; discriminate|].
        destruct (String.eqb_spec (status t) "Done") as [e|_]; [rewrite e in Hi; discriminate|].
        now rewrite Hi. }
      rewrite Ew. now destruct (revenue t).
    + rewrite (IH Ht). now destruct (revenue u * statusWeight (status u))%num.
Qed.

(** C6, second copy (lines 485-498).  There a task whose status is none of
    the three makes the whole pipeline NaN, while the first copy counts it
    with weight 0. *)
Lemma computeWeightedPipeline_copy_unrecognized_status :
  Copy.computeWeightedPipeline [taskA; archived] = NaN
  /\ computeWeightedPipeline [taskA; archived] = num_of_Z 1000.
Proof. split; [reflexivity | now apply num_eqb_eq]. Qed.

(** Where [weights[t.status]] is not [undefined] the two copies agree. *)
Lemma computeWeightedPipeline_copy_agrees (tasks : list Task) :
  (forall t, In t tasks -> weights (status t) <> None) ->
  Copy.computeWeightedPipeline tasks = computeWeightedPipeline tasks.
Proof.
  unfold Copy.computeWeightedPipeline, computeWeightedPipeline. intros H.
  enough (G : forall acc,
             fold_left (fun sum t => sum + Copy.times_weight (revenue t) (weights (status t)))%num
               tasks acc
             = fold_left (fun sum t => sum + revenue t * nullish (weights (status t)) zero)%num
                 tasks acc) by apply G.
  induction tasks as [|t tasks IH]; intros acc; simpl; [reflexivity|].
  rewrite IH by (intros u Hu; apply H; now right).
  specialize (H t (or_introl eq_refl)).
  destruct (weights (status t)); [reflexivity | congruence].
Qed.

(** ** [daysBetween] and the velocity statistics *)

Lemma Qccompare_inject_Z (a b : Z) :
  Qccompare (Q2Qc (inject_Z a)) (Q2Qc (inject_Z b)) = Z.compare a b.
Proof.
  unfold Qccompare.
  assert (Ea : (Q2Qc (inject_Z a) : Q) == inject_Z a) by apply Qred_correct.
  assert (Eb : (Q2Qc (inject_Z b) : Q) == inject_Z b) by apply Qred_correct.
  rewrite Ea, Eb. unfold Qcompare, inject_Z. simpl. now rewrite !Z.mul_1_r.
Qed.

Lemma ncmp_num_of_Z (a b : Z) : ncmp (num_of_Z a) (num_of_Z b) = Some (Z.compare a b).
Proof. unfold num_of_Z. simpl. now rewrite Qccompare_inject_Z. Qed.

Lemma Math_max_zero_num_of_Z (k : Z) : Math_max zero (num_of_Z k) = num_of_Z (Z.max 0 k).
Proof.
  unfold Math_max, zero. rewrite ncmp_num_of_Z.
  destruct (Z.compare_spec 0 k) as [E|L|G].
  - subst. reflexivity.
  - now rewrite Z.max_r by lia.
  - now rewrite Z.max_l by lia.
Qed.


Lemma daysBetween_scenario :
  daysBetween 0 (3 * msPerDay) = num_of_Z 3
  /\ daysBetween 0 (msPerDay / 2) = num_of_Z 1
  /\ daysBetween (5 * msPerDay) 0 = num_of_Z 0.
Proof. repeat split; now apply num_eqb_eq. Qed.





Lemma sumOver_perm {A : Type} (f : A -> num) (l l' : list A) :
  Permutation l l' -> sumOver f l = sumOver f l'.
Proof.
  induction 1 as [|x l l' _ IH|x y l|l l' l'' _ IH1 _ IH2]; simpl.
  - reflexivity.
  - now rewrite IH.
  - rewrite !nadd_assoc. now rewrite (nadd_comm (f y) (f x)).
  - now rewrite IH1.
Qed.



Lemma completedDays_cons (p : string) (t : Task) (tasks : list Task) :
  completedDays p (t :: tasks)
  = match completedAt t with
    | Some c => if String.eqb (priority t) p then [daysBetween (createdAt t) c] else []
    | None => []
    end ++ completedDays p tasks.
Proof. reflexivity. Qed.

Lemma collectDays_spec (tasks : list Task) :
  forall groups,
    completedHaveKnownPriority tasks = true ->
    collectDays tasks groups
    = Some (mkByPriority (High groups ++ completedDays "High" tasks)
              (Medium groups ++ completedDays "Medium" tasks)
              (Low groups ++ completedDays "Low" tasks)).
Proof.
  induction tasks as [|t tasks IH]; intros groups H.
  - simpl. rewrite !app_nil_r. now destruct groups.
  - simpl in H. apply andb_prop in H. destruct H as [Ht Hrest].
    rewrite !completedDays_cons. simpl collectDays.
    destruct (completedAt t) as [c|]; [|now apply IH].
    unfold knownPriority in Ht. unfold pushKey.
    destruct (String.eqb_spec (priority t) "High") as [E|_].
    { rewrite E. simpl String.eqb. cbv iota. rewrite IH by assumption.
      simpl. now rewrite <- app_assoc. }
    destruct (String.eqb_spec (priority t) "Medium") as [E|_].
    { rewrite E. simpl String.eqb. cbv iota. rewrite IH by assumption.
      simpl. now rewrite <- app_assoc. }
    destruct (String.eqb_spec (priority t) "Low") as [E|_]; [|discriminate Ht].
    rewrite IH by assumption. simpl. now rewrite <- app_assoc.
Qed.




(** Days 1, 5, 3, 9: the mean is 9/2 and the median is 5, the upper of the
    two middle values; the other buckets report 0 and 0. *)
Example computeVelocityByPriority_sample :
  option_map (fun r => (avgDays (High r), medianDays (High r), Medium r, Low r))
    (computeVelocityByPriority velocitySample)
  = Some (Fin (Q2Qc (9 # 2)), num_of_Z 5, mkVelocity zero zero, mkVelocity zero zero).
Proof.
  vm_compute. do 2 f_equal. f_equal. f_equal; f_equal; now apply Qc_is_canon.
Qed.


(** ** Least squares *)

Lemma Qc_square_nonneg (q : Qc) : (0 <= q * q)%Qc.
Proof.
  unfold Qcle. change (this (q * q)%Qc) with (Qred (q * q)%Q).
  rewrite (Qred_correct (q * q)).
  unfold Qle, Qmult. simpl. rewrite Z.mul_1_r. apply Z.square_nonneg.
Qed.

Lemma qz_add (a b : Z) :
  Q2Qc (inject_Z (a + b)) = (Q2Qc (inject_Z a) + Q2Qc (inject_Z b))%Qc.
Proof.
  apply Qc_is_canon.
  change (Qred (inject_Z (a + b)) == Qred (Qred (inject_Z a) + Qred (inject_Z b))).
  rewrite !Qred_correct. now rewrite inject_Z_plus.
Qed.

Lemma qz_mul (a b : Z) :
  Q2Qc (inject_Z (a * b)) = (Q2Qc (inject_Z a) * Q2Qc (inject_Z b))%Qc.
Proof.
  apply Qc_is_canon.
  change (Qred (inject_Z (a * b)) == Qred (Qred (inject_Z a) * Qred (inject_Z b))).
  rewrite !Qred_correct. now rewrite inject_Z_mult.
Qed.

Lemma qz_opp (a : Z) : Q2Qc (inject_Z (- a)) = (- Q2Qc (inject_Z a))%Qc.
Proof.
  apply Qc_is_canon.
  change (Qred (inject_Z (- a)) == Qred (- Qred (inject_Z a))).
  rewrite !Qred_correct. now rewrite inject_Z_opp.
Qed.

Lemma qz_nonzero (a : Z) : a <> 0%Z -> Q2Qc (inject_Z a) <> 0%Qc.
Proof.
  intros Ha E. apply (f_equal (fun q => Qccompare q 0)) in E.
  rewrite Qccompare_num_of_Z in E.
  rewrite (proj1 (Qceq_alt 0 0) eq_refl) in E.
  apply Z.compare_eq in E. contradiction.
Qed.

Lemma qn_S (n : nat) : qn (S n) = (qn n + 1)%Qc.
Proof. unfold qn. rewrite Nat2Z.inj_succ, <- Z.add_1_r. now rewrite qz_add. Qed.

Lemma qn_add (n m : nat) : qn (n + m) = (qn n + qn m)%Qc.
Proof. unfold qn. now rewrite Nat2Z.inj_add, qz_add. Qed.

Section LeastSquares.
Variable pts : list (Qc * Qc).

Lemma sum_residuals (a b : Qc) :
  sumQc (map (fun p => snd p - (a * fst p + b))%Qc pts)
  = (sumY pts - a * sumX pts - qn (List.length pts) * b)%Qc.
Proof.
  unfold sumY, sumX, sumQc.
  induction pts as [|[x y] l IH]; cbn [map fold_right fst snd List.length].
  - change (qn 0) with 0%Qc. ring.
  - rewrite IH, qn_S. ring.
Qed.

Lemma sum_weighted_residuals (a b : Qc) :
  sumQc (map (fun p => fst p * (snd p - (a * fst p + b)))%Qc pts)
  = (sumXY pts - a * sumXX pts - b * sumX pts)%Qc.
Proof.
  unfold sumXY, sumXX, sumX, sumQc.
  induction pts as [|[x y] l IH]; cbn [map fold_right fst snd].
  - ring.
  - rewrite IH. ring.
Qed.

Lemma squaredResiduals_shift (a b a' b' : Qc) :
  squaredResiduals a' b' pts
  = (squaredResiduals a b pts
     + sumQc (map (fun p => ((a' - a) * fst p + (b' - b)) * ((a' - a) * fst p + (b' - b)))%Qc pts)
     - (1 + 1) * ((a' - a) * sumQc (map (fun p => fst p * (snd p - (a * fst p + b)))%Qc pts)
                  + (b' - b) * sumQc (map (fun p => snd p - (a * fst p + b))%Qc pts)))%Qc.
Proof.
  unfold squaredResiduals, sumQc.
  induction pts as [|[x y] l IH]; cbn [map fold_right fst snd].
  - ring.
  - rewrite IH. ring.
Qed.

Lemma sumQc_squares_nonneg (f : Qc * Qc -> Qc) :
  (0 <= sumQc (map (fun p => f p * f p) pts))%Qc.
Proof.
  unfold sumQc. induction pts as [|p l IH]; cbn [map fold_right].
  - apply Qcle_refl.
  - replace 0%Qc with (0 + 0)%Qc at 1 by ring.
    apply Qcplus_le_compat; [apply Qc_square_nonneg | exact IH].
Qed.

(** The closed form gives the least-squares line whenever its two
    divisors are not zero. *)
Lemma ols_minimizes (a' b' : Qc) :
  qn (List.length pts) <> 0%Qc ->
  (qn (List.length pts) * sumXX pts - sumX pts * sumX pts)%Qc <> 0%Qc ->
  (squaredResiduals (olsSlope pts) (olsIntercept pts) pts <= squaredResiduals a' b' pts)%Qc.
Proof.
  intros Hn Hd.
  rewrite (squaredResiduals_shift (olsSlope pts) (olsIntercept pts) a' b').
  rewrite sum_residuals, sum_weighted_residuals.
  set (a := olsSlope pts). set (b := olsIntercept pts).
  assert (E1 : (sumY pts - a * sumX pts - qn (List.length pts) * b)%Qc = 0%Qc).
  { unfold b, olsIntercept. fold a. field. exact Hn. }
  assert (E2 : (sumXY pts - a * sumXX pts - b * sumX pts)%Qc = 0%Qc).
  { unfold b, olsIntercept. fold a. unfold a, olsSlope. field. split; assumption. }
  rewrite E1, E2.
  set (s := sumQc _).
  assert (Hs : (0 <= s)%Qc)
    by apply (sumQc_squares_nonneg (fun p => (a' - a) * fst p + (b' - b))%Qc).
  replace (squaredResiduals a b pts + s - (1 + 1) * ((a' - a) * 0 + (b' - b) * 0))%Qc
    with (squaredResiduals a b pts + s)%Qc by ring.
  replace (squaredResiduals a b pts) with (squaredResiduals a b pts + 0)%Qc at 1 by ring.
  apply Qcplus_le_compat; [apply Qcle_refl | exact Hs].
Qed.

End LeastSquares.

(** *** The indices 0, 1, ..., n-1 *)

Lemma sumQc_app (l l' : list Qc) : sumQc (l ++ l') = (sumQc l + sumQc l')%Qc.
Proof.
  unfold sumQc. induction l as [|x l IH]; cbn [app fold_right].
  - ring.
  - rewrite IH. ring.
Qed.

Lemma sum_indices (n : nat) :
  ((1 + 1) * sumQc (map qn (seq 0 n)) = qn n * (qn n - 1))%Qc.
Proof.
  induction n as [|n IH].
  - cbn [seq map]. change (qn 0) with 0%Qc. unfold sumQc. cbn [fold_right]. ring.
  - rewrite seq_S, map_app, sumQc_app. cbn [map Nat.add]. unfold sumQc at 2. cbn [fold_right].
    rewrite qn_S.
    replace ((1 + 1) * (sumQc (map qn (seq 0 n)) + (qn n + 0)))%Qc
      with ((1 + 1) * sumQc (map qn (seq 0 n)) + (1 + 1) * qn n)%Qc by ring.
    rewrite IH. ring.
Qed.

Lemma sum_index_squares (n : nat) :
  ((1 + 1) * (1 + 1 + 1) * sumQc (map (fun i => qn i * qn i) (seq 0 n))
   = (qn n - 1) * qn n * ((1 + 1) * qn n - 1))%Qc.
Proof.
  induction n as [|n IH].
  - cbn [seq map]. change (qn 0) with 0%Qc. unfold sumQc. cbn [fold_right]. ring.
  - rewrite seq_S, map_app, sumQc_app. cbn [map Nat.add]. unfold sumQc at 2. cbn [fold_right].
    rewrite qn_S.
    replace ((1 + 1) * (1 + 1 + 1)
             * (sumQc (map (fun i => qn i * qn i) (seq 0 n)) + (qn n * qn n + 0)))%Qc
      with ((1 + 1) * (1 + 1 + 1) * sumQc (map (fun i => qn i * qn i) (seq 0 n))
            + (1 + 1) * (1 + 1 + 1) * (qn n * qn n))%Qc by ring.
    rewrite IH. ring.
Qed.

Lemma qn_nonzero (n : nat) : n <> 0%nat -> qn n <> 0%Qc.
Proof. intros H. unfold qn. apply qz_nonzero. lia. Qed.

Lemma qn_pred_nonzero (n : nat) : (2 <= n)%nat -> (qn n - 1)%Qc <> 0%Qc.
Proof.
  intros H. destruct n as [|n]; [lia|]. rewrite qn_S.
  replace (qn n + 1 - 1)%Qc with (qn n) by ring. apply qn_nonzero. lia.
Qed.

Lemma qn_succ_nonzero (n : nat) : (qn n + 1)%Qc <> 0%Qc.
Proof. rewrite <- qn_S. now apply qn_nonzero. Qed.

(** [n * sum(x^2) - (sum x)^2] is not zero on two indices or more: the
    guard of the divisor never replaces it. *)
Lemma indices_denominator_nonzero (n : nat) :
  (2 <= n)%nat ->
  (qn n * sumQc (map (fun i => qn i * qn i) (seq 0 n))
   - sumQc (map qn (seq 0 n)) * sumQc (map qn (seq 0 n)))%Qc <> 0%Qc.
Proof.
  intros Hn E.
  set (s1 := sumQc (map qn (seq 0 n))) in *.
  set (s2 := sumQc (map (fun i => qn i * qn i) (seq 0 n))) in *.
  assert (H : (qn n * qn n * ((qn n - 1) * (qn n + 1)))%Qc = 0%Qc).
  { replace (qn n * qn n * ((qn n - 1) * (qn n + 1)))%Qc
      with ((1 + 1) * qn n * ((qn n - 1) * qn n * ((1 + 1) * qn n - 1))
            - (1 + 1 + 1) * ((qn n * (qn n - 1)) * (qn n * (qn n - 1))))%Qc by ring.
    rewrite <- (sum_indices n), <- (sum_index_squares n). fold s1 s2.
    replace ((1 + 1) * qn n * ((1 + 1) * (1 + 1 + 1) * s2)
             - (1 + 1 + 1) * ((1 + 1) * s1 * ((1 + 1) * s1)))%Qc
      with ((1 + 1) * (1 + 1) * (1 + 1 + 1) * (qn n * s2 - s1 * s1))%Qc by ring.
    rewrite E. ring. }
  assert (N0 : qn n <> 0%Qc) by (apply qn_nonzero; lia).
  apply Qcmult_integral in H. destruct H as [H|H].
  - apply Qcmult_integral in H. now destruct H.
  - apply Qcmult_integral in H. destruct H as [H|H].
    + now apply (qn_pred_nonzero Hn).
    + now apply (@qn_succ_nonzero n).
Qed.

Lemma map_fst_combine {A B : Type} (l : list A) :
  forall l' : list B, List.length l = List.length l' -> map fst (combine l l') = l.
Proof.
  induction l as [|x l IH]; intros [|y l'] H; simpl in *; try discriminate; auto.
  f_equal. apply IH. congruence.
Qed.

Lemma map_snd_combine {A B : Type} (l : list A) :
  forall l' : list B, List.length l = List.length l' -> map snd (combine l l') = l'.
Proof.
  induction l as [|x l IH]; intros [|y l'] H; simpl in *; try discriminate; auto.
  f_equal. apply IH. congruence.
Qed.

Lemma pointsOf_fst (ys : list Qc) : map fst (pointsOf ys) = map qn (seq 0 (List.length ys)).
Proof. unfold pointsOf. apply map_fst_combine. now rewrite length_map, length_seq. Qed.

Lemma pointsOf_snd (ys : list Qc) : map snd (pointsOf ys) = ys.
Proof. unfold pointsOf. apply map_snd_combine. now rewrite length_map, length_seq. Qed.

Lemma pointsOf_length (ys : list Qc) : List.length (pointsOf ys) = List.length ys.
Proof. rewrite <- (length_map snd). now rewrite pointsOf_snd. Qed.

Lemma pointsOf_sumXX (ys : list Qc) :
  sumXX (pointsOf ys) = sumQc (map (fun i => qn i * qn i)%Qc (seq 0 (List.length ys))).
Proof.
  unfold sumXX.
  rewrite <- (map_map fst (fun x => x * x)%Qc), pointsOf_fst. now rewrite map_map.
Qed.

(** The closed form on a series of two points or more is its
    least-squares line. *)
Lemma ols_leastSquaresLine (ys : list Qc) :
  (2 <= List.length ys)%nat ->
  leastSquaresLine (olsSlope (pointsOf ys)) (olsIntercept (pointsOf ys)) ys.
Proof.
  intros Hn a' b'. apply ols_minimizes.
  - rewrite pointsOf_length. apply qn_nonzero. lia.
  - rewrite pointsOf_length, pointsOf_sumXX. unfold sumX. rewrite pointsOf_fst.
    now apply indices_denominator_nonzero.
Qed.

(** ** [computeForecast] *)

Lemma sumOver_Fin {A : Type} (f : A -> num) (g : A -> Qc) (l : list A) :
  (forall x, f x = Fin (g x)) -> sumOver f l = Fin (sumQc (map g l)).
Proof.
  intros H. unfold sumOver, sumQc.
  induction l as [|x l IH]; cbn [map fold_right]; [reflexivity|].
  now rewrite IH, H.
Qed.

Lemma total_Fin (qs : list Qc) : total (map Fin qs) = Fin (sumQc qs).
Proof.
  rewrite total_sumOver, sumOver_map.
  rewrite (sumOver_Fin (fun q => Fin q) (fun q => q)) by reflexivity.
  now rewrite map_id.
Qed.

Lemma sum_squares_Fin (qs : list Qc) :
  fold_left (fun s v => s + v * v)%num (map Fin qs) zero
  = Fin (sumQc (map (fun q => q * q)%Qc qs)).
Proof.
  rewrite (reduce_sumOver (fun v => v * v)%num), sumOver_map.
  now apply sumOver_Fin.
Qed.

(** The indexed [reduce] that pairs each index with the revenue at it. *)
Lemma sum_products_Fin (xs : list Qc) :
  forall (ys before : list Qc) (acc : Qc),
    List.length xs = List.length ys ->
    reduce_indexed (fun s v i => s + v * at_index (map Fin (before ++ ys)) i)%num
      (map Fin xs) (List.length before) (Fin acc)
    = Fin (acc + sumQc (map (fun p => fst p * snd p)%Qc (combine xs ys))).
Proof.
  induction xs as [|x xs IH]; intros [|y ys] before acc Hlen; try discriminate Hlen.
  - cbn [map reduce_indexed combine]. unfold sumQc. cbn [fold_right]. f_equal. ring.
  - cbn [map reduce_indexed combine].
    assert (Hy : at_index (map Fin (before ++ y :: ys)) (List.length before) = Fin y).
    { unfold at_index. rewrite map_app. cbn [map].
      rewrite <- (length_map Fin before). apply nth_middle. }
    rewrite Hy.
    replace (before ++ y :: ys) with ((before ++ [y]) ++ ys) by now rewrite <- app_assoc.
    replace (S (List.length before)) with (List.length (before ++ [y]))
      by (rewrite length_app; simpl; lia).
    change (Fin acc + Fin x * Fin y)%num with (Fin (acc + x * y)).
    rewrite IH by (simpl in Hlen; congruence).
    unfold sumQc. cbn [map fold_right fst snd]. f_equal. ring.
Qed.

Lemma indices_Fin {A : Type} (l : list A) :
  indices l = map Fin (map qn (seq 0 (List.length l))).
Proof. unfold indices. now rewrite map_map. Qed.

Lemma or_else_Fin (d : Qc) : d <> 0%Qc -> or_else (Fin d) one = Fin d.
Proof. intros H. unfold or_else, truthy. now rewrite Qc_eq_bool_false. Qed.

(** On a series of finite revenues with two points or more the forecast
    follows the closed-form line through the points. *)
Lemma computeForecast_finite (weekly : list Weekly) (ys : list Qc) (horizonWeeks : nat) :
  map weekRevenue weekly = map Fin ys ->
  (2 <= List.length ys)%nat ->
  map weekRevenue (computeForecast weekly horizonWeeks)
  = map (fun i => Math_max zero
                    (Fin (olsSlope (pointsOf ys) * qn (List.length ys + i)
                          + olsIntercept (pointsOf ys))))
      (seq 0 horizonWeeks).
Proof.
  intros Hy Hn.
  assert (Hlen : List.length weekly = List.length ys).
  { rewrite <- (length_map weekRevenue weekly), Hy. apply length_map. }
  unfold computeForecast.
  destruct (Nat.ltb_spec (List.length weekly) 2) as [Hlt|_]; [lia|].
  rewrite indices_Fin, Hy, Hlen, !length_map, length_seq.
  rewrite !total_Fin, sum_squares_Fin.
  assert (HP := sum_products_Fin (map qn (seq 0 (List.length ys))) ys [] 0).
  cbn [app List.length] in HP. change (Fin 0) with zero in HP.
  rewrite HP by now rewrite length_map, length_seq.
  clear HP. fold (pointsOf ys). rewrite Qcplus_0_l. fold (sumXY (pointsOf ys)).
  rewrite (map_map qn (fun q => q * q)%Qc), <- pointsOf_sumXX.
  replace (sumQc (map qn (seq 0 (List.length ys)))) with (sumX (pointsOf ys))
    by (unfold sumX; now rewrite pointsOf_fst).
  replace (sumQc ys) with (sumY (pointsOf ys))
    by (unfold sumY; now rewrite pointsOf_snd).
  unfold olsIntercept, olsSlope. rewrite pointsOf_length.
  change (num_of_nat (List.length ys)) with (Fin (qn (List.length ys))).
  set (pts := pointsOf ys). set (n := qn (List.length ys)).
  assert (Hd : (n * sumXX pts - sumX pts * sumX pts)%Qc <> 0%Qc).
  { unfold n, pts. rewrite pointsOf_sumXX. unfold sumX. rewrite pointsOf_fst.
    now apply indices_denominator_nonzero. }
  assert (Hq : n <> 0%Qc) by (apply qn_nonzero; lia).
  unfold array_from. rewrite map_map. cbn [weekRevenue].
  apply map_ext. intros i. f_equal.
  rewrite !nmul_Fin, !nsub_Fin, (or_else_Fin Hd), (ndiv_Fin _ Hd).
  change (num_of_nat i) with (Fin (qn i)).
  rewrite !nmul_Fin, !nsub_Fin, !nadd_Fin, (ndiv_Fin _ Hq), !nmul_Fin, !nadd_Fin.
  unfold n at 3. rewrite <- qn_add. reflexivity.
Qed.

Lemma Math_max_zero_not_negative (v : num) : nltb (Math_max zero v) zero = false.
Proof.
  unfold Math_max, nltb.
  destruct (ncmp zero v) as [c|] eqn:E; [|reflexivity].
  destruct c; try reflexivity.
  rewrite (ncmp_antisym zero v), E. reflexivity.
Qed.

Lemma computeForecast_length (weekly : list Weekly) (horizonWeeks : nat) :
  (2 <= List.length weekly)%nat ->
  List.length (computeForecast weekly horizonWeeks) = horizonWeeks.
Proof.
  intros H. unfold computeForecast.
  destruct (Nat.ltb_spec (List.length weekly) 2) as [Hlt|_]; [lia|].
  unfold array_from. now rewrite length_map, length_seq.
Qed.

(** C5.  With fewer than two points the forecast is empty.  With two or
    more it has exactly [horizonWeeks] points; when the revenues are
    finite their values are [max(0, slope * x + intercept)] at
    [x = n, n+1, ...] for the least-squares line of revenue against the
    indices [0..n-1].  The series 10, 20 with horizon 2 gives 30 and 40, and
    no forecast revenue is negative. *)
Theorem computeForecast_spec (weekly : list Weekly) (horizonWeeks : nat) :
  ((List.length weekly < 2)%nat -> computeForecast weekly horizonWeeks = [])
  /\ ((2 <= List.length weekly)%nat ->
      List.length (computeForecast weekly horizonWeeks) = horizonWeeks
      /\ forall ys, map weekRevenue weekly = map Fin ys ->
           exists slope intercept,
             leastSquaresLine slope intercept ys
             /\ map weekRevenue (computeForecast weekly horizonWeeks)
                = map (fun i => Math_max zero
                                  (Fin (slope * qn (List.length weekly + i) + intercept)))
                    (seq 0 horizonWeeks))
  /\ map weekRevenue (computeForecast twoWeeks 2) = [num_of_Z 30; num_of_Z 40]
  /\ (forall p, In p (computeForecast weekly horizonWeeks) ->
                nltb (weekRevenue p) zero = false).
Proof.
  split; [|split; [|split]].
  - intros H. unfold computeForecast.
    destruct (Nat.ltb_spec (List.length weekly) 2) as [_|Hge]; [reflexivity | lia].
  - intros H. split; [now apply computeForecast_length|].
    intros ys Hy.
    assert (Hlen : List.length weekly = List.length ys).
    { rewrite <- (length_map weekRevenue weekly), Hy. apply length_map. }
    exists (olsSlope (pointsOf ys)), (olsIntercept (pointsOf ys)). split.
    + apply ols_leastSquaresLine. lia.
    + rewrite Hlen. apply computeForecast_finite; [assumption | lia].
  - now apply nums_eqb_eq.
  - intros p Hp. unfold computeForecast in Hp.
    destruct (Nat.ltb (List.length weekly) 2); [contradiction|].
    unfold array_from in Hp. apply in_map_iff in Hp. destruct Hp as (i & <- & _).
    apply Math_max_zero_not_negative.
Qed.

Example computeForecast_scenario :
  computeForecast [] 4 = []
  /\ computeForecast [mkWeekly "w1" (num_of_Z 10)] 4 = []
  /\ map week (computeForecast twoWeeks 2) = ["+1"; "+2"].
Proof. repeat split. Qed.

(** ** Dates and weeks *)

(** The calendar on known days: 26 February 2024 and 4 March 2024 were
    Mondays, in ISO weeks 9 and 10; 30 December 2024 belongs to week 1 of
    2025; 3 January 2021, a Sunday, to week 53 of 2020. *)
Example calendar_samples :
  Day (Date_UTC 1970 0 1) = 0%Z
  /\ Day (Date_UTC 2024 1 26) = 19779%Z
  /\ (getUTCFullYear (Date_UTC 2024 1 29), getUTCMonth (Date_UTC 2024 1 29),
      getUTCDate (Date_UTC 2024 1 29)) = (2024, 1, 29)%Z
  /\ (getUTCFullYear (Date_UTC 2023 1 29), getUTCMonth (Date_UTC 2023 1 29),
      getUTCDate (Date_UTC 2023 1 29)) = (2023, 2, 1)%Z
  /\ getUTCDay (Date_UTC 2024 1 26) = 1%Z
  /\ getUTCDay (Date_UTC 2021 0 3) = 0%Z.
Proof. repeat split. Qed.

Example getWeekNumber_samples :
  getWeekNumber (Date_UTC 2024 1 26) = num_of_Z 9
  /\ getWeekNumber (Date_UTC 2024 2 4) = num_of_Z 10
  /\ getWeekNumber (Date_UTC 2024 11 30) = num_of_Z 1
  /\ getWeekNumber (Date_UTC 2021 0 3) = num_of_Z 53
  /\ getWeekNumber (Date_UTC 2026 10 2) = num_of_Z 45.
Proof. repeat split; now apply num_eqb_eq. Qed.

Example weekKey_samples :
  weekKey (Date_UTC 2024 1 26) = "2024-W9"
  /\ weekKey (Date_UTC 2024 2 4) = "2024-W10"
  /\ weekKey (Date_UTC 2024 11 30) = "2024-W1".
Proof. repeat split. Qed.

(** ** [computeThroughputByWeek] *)

(** C2.  The week key is the calendar year and the week number without
    padding, and the buckets are sorted by that string: week 10 comes out
    before week 9 of the same year, and 30 December 2024, which belongs to
    ISO week 1 of 2025, is filed under "2024-W1", ahead of February 2024. *)
Lemma computeThroughputByWeek_not_chronological :
  map Bucket.week
    (@computeThroughputByWeek codeUnitCollator
       [completedOn "a" 2024 1 26 100; completedOn "b" 2024 2 4 200])
  = ["2024-W10"; "2024-W9"]
  /\ map Bucket.week
       (@computeThroughputByWeek codeUnitCollator
          [completedOn "a" 2024 1 26 100; completedOn "c" 2024 11 30 50])
     = ["2024-W1"; "2024-W9"].
Proof. split; reflexivity. Qed.

Section ThroughputFacts.
Context {C : Collator}.

(** What the sort does give: the keys ascend in the collation's order. *)
Lemma computeThroughputByWeek_sorted_by_key (tasks : list Task) :
  Sorted (fun a b => (localeCompare (Bucket.week a) (Bucket.week b) <= 0)%Z)
    (computeThroughputByWeek tasks).
Proof.
  unfold computeThroughputByWeek.
  set (m := fold_left _ tasks []).
  assert (H : Sorted (fun a b : string * (nat * num) =>
                        (localeCompare (fst a) (fst b) <= 0)%Z) (array_sort byKey m)).
  { apply array_sort_Sorted with (ok := fun _ => True).
    - intros x y _ _. unfold byKey. rewrite ngtb_num_of_Z. intros H%Z.ltb_ge. exact H.
    - intros x y _ _. unfold byKey. rewrite ngtb_num_of_Z. intros H%Z.ltb_lt.
      apply Z.lt_le_incl. now apply localeCompare_flip.
    - apply Forall_forall. auto. }
  induction H as [|e l Hs IH Hd]; cbn [map]; constructor; auto.
  destruct Hd; cbn [map]; constructor. assumption.
Qed.

End ThroughputFacts.

Example computeThroughputByWeek_sample :
  map (fun b => (Bucket.week b, Bucket.count b, num_eqb (Bucket.revenue b) (num_of_Z 300)))
    (@computeThroughputByWeek codeUnitCollator
       [completedOn "a" 2024 1 26 100; taskA; completedOn "b" 2024 1 28 200])
  = [("2024-W9", 2%nat, true)].
Proof. reflexivity. Qed.

(** ** Further properties *)

(** [daysBetween] never returns a negative value, even when the end
    precedes the start. *)
Lemma daysBetween_never_negative (a b : Z) : nltb (daysBetween a b) zero = false.
Proof. unfold daysBetween. apply Math_max_zero_not_negative. Qed.

(** [sortTasks] is idempotent on records of the data model. *)
Lemma sortTasks_idempotent {C : Collator} (l : list DerivedTask)
  (Hvalid : forallb validROI l = true) :
  sortTasks (sortTasks l) = sortTasks l.
Proof.
  assert (Hs : Sorted rankedBefore (sortTasks l)) by now apply sortTasks_Sorted.
  assert (Hv : Forall (fun d => validROI d = true) (sortTasks l)).
  { eapply Permutation_Forall; [apply Permutation_sym, array_sort_perm|].
    apply Forall_forall. now apply forallb_forall. }
  induction Hs as [|a m Hm IH Hd]; [reflexivity|].
  inversion Hv as [|? ? Ha Hv']; subst.
  change (sortTasks (a :: m)) with (sort_insert compareTasks a (sortTasks m)).
  rewrite IH by assumption.
  destruct Hd as [|b m' Hab]; [reflexivity|].
  cbn [sort_insert].
  destruct (ngtb (compareTasks a b) zero) eqn:E; [|reflexivity].
  exfalso. inversion Hv' as [|? ? Hb _]; subst.
  pose proof (compareTasks_swap a b Ha Hb E) as Hba.
  pose proof (rankedBefore_antisym_tied Hab Hba) as (_ & Hp & Ht).
  unfold compareTasks, strict_neqb in E.
  destruct (rankedBefore_antisym_tied Hab Hba) as (Hr & _ & _).
  rewrite Hr, strict_eqb_refl in E by (rewrite <- Hr; now apply validROI_notNaN).
  cbn [negb] in E. rewrite Hp, Z.eqb_refl in E. cbn [negb] in E.
  rewrite Ht in E. discriminate E.
Qed.

Lemma sortTasks_idempotent_witness :
  @sortTasks codeUnitCollator
    (@sortTasks codeUnitCollator [withDerived taskB; withDerived taskA])
  = @sortTasks codeUnitCollator [withDerived taskB; withDerived taskA].
Proof.
  exact (@sortTasks_idempotent codeUnitCollator [withDerived taskB; withDerived taskA] eq_refl).
Defined.

(** [computeTotalRevenue] is the sum of the revenue of the Done tasks: a
    collection without a Done task yields 0 whatever the revenues. *)
Lemma computeTotalRevenue_done_only (tasks : list Task) :
  computeTotalRevenue tasks = sumOver revenue (filter isDone tasks)
  /\ ((forall t, In t tasks -> status t <> "Done") -> computeTotalRevenue tasks = zero)
  /\ computeTotalRevenue [] = zero.
Proof.
  unfold computeTotalRevenue. rewrite (reduce_sumOver revenue).
  split; [reflexivity|]. split; [|reflexivity].
  intros H. replace (filter isDone tasks) with (@nil Task); [reflexivity|].
  symmetry. induction tasks as [|t tasks IH]; [reflexivity|]. cbn [filter].
  unfold isDone at 1. rewrite (proj2 (String.eqb_neq _ _) (H t (or_introl eq_refl))).
  apply IH. intros u Hu. apply H. now right.
Qed.

(** The grade: above 500 Excellent, from 200 to 500 inclusive Good, below
    200 Needs Improvement. *)
Lemma computePerformanceGrade_boundaries (q : Qc) :
  ((Q2Qc (inject_Z 500) < q)%Qc -> computePerformanceGrade (Fin q) = "Excellent")
  /\ ((Q2Qc (inject_Z 200) <= q)%Qc -> (q <= Q2Qc (inject_Z 500))%Qc ->
      computePerformanceGrade (Fin q) = "Good")
  /\ ((q < Q2Qc (inject_Z 200))%Qc -> computePerformanceGrade (Fin q) = "Needs Improvement")
  /\ computePerformanceGrade (num_of_Z 500) = "Good"
  /\ computePerformanceGrade (num_of_Z 200) = "Good".
Proof.
  unfold computePerformanceGrade, ngtb, ngeb, num_of_Z. cbn [ncmp].
  split; [|split; [|split; [|split; reflexivity]]].
  - intros H. now rewrite (proj1 (Qcgt_alt _ _) H).
  - intros H1 H2.
    destruct (Qccompare q (Q2Qc (inject_Z 500))) eqn:E5;
      try (apply Qcgt_alt in E5; exfalso; now apply (Qcle_not_lt _ _ H2));
      (destruct (Qccompare q (Q2Qc (inject_Z 200))) eqn:E2; try reflexivity;
       apply Qclt_alt in E2; exfalso; now apply (Qcle_not_lt _ _ H1)).
  - intros H.
    assert (H5 : (q < Q2Qc (inject_Z 500))%Qc)
      by (eapply Qclt_trans; [exact H | now apply Qclt_alt]).
    now rewrite (proj1 (Qclt_alt _ _) H5), (proj1 (Qclt_alt _ _) H).
Qed.
(** * The hook, the view and the analytics: further properties *)
(** * More of the code *)

(** ** Stability of the sort *)

Section Stability.
Context {A : Type} (comparator : A -> A -> num) (P : A -> bool).

Lemma sort_insert_filter_out (x : A) (l : list A) :
  P x = false -> filter P (sort_insert comparator x l) = filter P l.
Proof.
  intros Hx. induction l as [|y l IH]; cbn [sort_insert filter].
  - now rewrite Hx.
  - destruct (ngtb (comparator x y) zero); cbn [filter].
    + now rewrite IH.
    + now rewrite Hx.
Qed.

Lemma sort_insert_filter_in (x : A) (l : list A) :
  P x = true ->
  (forall y, In y l -> P y = true -> ngtb (comparator x y) zero = false) ->
  filter P (sort_insert comparator x l) = x :: filter P l.
Proof.
  intros Hx. induction l as [|y l IH]; intros H; cbn [sort_insert filter].
  - now rewrite Hx.
  - destruct (ngtb (comparator x y) zero) eqn:E; cbn [filter].
    + destruct (P y) eqn:Hy.
      * rewrite (H y (or_introl eq_refl) Hy) in E. discriminate E.
      * apply IH. intros z Hz. apply H. now right.
    + now rewrite Hx.
Qed.

(** Elements that the comparator never puts after one another keep their
    relative order. *)
Lemma array_sort_stable (l : list A) :
  (forall a b, In a l -> In b l -> P a = true -> P b = true ->
               ngtb (comparator a b) zero = false) ->
  filter P (array_sort comparator l) = filter P l.
Proof.
  induction l as [|x l IH]; intros H; cbn [array_sort filter]; [reflexivity|].
  assert (IH' : filter P (array_sort comparator l) = filter P l).
  { apply IH. intros a b Ha Hb. apply H; now right. }
  destruct (P x) eqn:Hx.
  - rewrite sort_insert_filter_in; [now rewrite IH' | assumption |].
    intros y Hy HPy. apply H; [now left | | assumption | assumption].
    right. eapply Permutation_in; [apply array_sort_perm | exact Hy].
  - rewrite sort_insert_filter_out by assumption. exact IH'.
Qed.

End Stability.

Lemma strict_eqb_notNaN (x y : num) :
  strict_eqb x y = true -> isNaN x = false /\ isNaN y = false.
Proof. destruct x, y; try discriminate; now split. Qed.

Section MoreRanking.
Context {C : Collator}.

Lemma tiedWith_pair (x a b : DerivedTask) :
  tiedWith x a = true -> tiedWith x b = true -> tied a b /\ validROI a = true.
Proof.
  unfold tiedWith. intros Ha Hb.
  apply andb_prop in Ha. destruct Ha as [Ha Ha3]. apply andb_prop in Ha. destruct Ha as [Ha1 Ha2].
  apply andb_prop in Hb. destruct Hb as [Hb Hb3]. apply andb_prop in Hb. destruct Hb as [Hb1 Hb2].
  destruct (strict_eqb_notNaN _ _ Ha1) as [_ Hna].
  apply strict_eqb_true in Ha1, Hb1. apply Z.eqb_eq in Ha2, Ha3, Hb2, Hb3.
  split; [|unfold validROI; now rewrite Hna].
  repeat split; try congruence.
  pose proof (localeCompare_zero_sym _ _ Ha3) as Hax.
  pose proof (localeCompare_zero_sym _ _ Hb3) as Hbx.
  assert (L1 : (localeCompare (title (task a)) (title (task b)) <= 0)%Z)
    by (eapply localeCompare_trans; [rewrite Hax | rewrite Hb3]; lia).
  assert (L2 : (localeCompare (title (task b)) (title (task a)) <= 0)%Z)
    by (eapply localeCompare_trans; [rewrite Hbx | rewrite Ha3]; lia).
  pose proof (localeCompare_antisym (title (task a)) (title (task b))) as E.
  destruct (Z.sgn_spec (localeCompare (title (task a)) (title (task b)))) as [[? ?]|[[? ?]|[? ?]]];
    destruct (Z.sgn_spec (localeCompare (title (task b)) (title (task a))))
      as [[? ?]|[[? ?]|[? ?]]];
    lia.
Qed.

(** [sortTasks] is stable on its ties.  On records of the data model (an
    ROI that is absent or a number other than NaN), where the comparator
    is consistent, the records that share the ROI, the priority weight and
    the title of a record [x] come out in the order they went in. *)
Lemma sortTasks_stable_on_ties (x : DerivedTask) (l : list DerivedTask)
  (Hvalid : forallb validROI l = true) :
  filter (tiedWith x) (sortTasks l) = filter (tiedWith x) l.
Proof.
  unfold sortTasks. apply array_sort_stable.
  intros a b _ _ Ha Hb.
  destruct (tiedWith_pair x a b Ha Hb) as [T V].
  now apply compareTasks_tied.
Qed.

End MoreRanking.

Lemma sortTasks_stable_on_ties_witness :
  filter (@tiedWith codeUnitCollator (withDerived twin1))
    (@sortTasks codeUnitCollator (map withDerived [twin1; taskA; twin2]))
  = filter (@tiedWith codeUnitCollator (withDerived twin1))
      (map withDerived [twin1; taskA; twin2]).
Proof.
  exact (@sortTasks_stable_on_ties codeUnitCollator (withDerived twin1)
           (map withDerived [twin1; taskA; twin2]) eq_refl).
Defined.

(** ** The display order of the hook *)

(** With exact quotients an ROI that is not absent is a finite number. *)
Lemma withDerived_roi (t : Task) :
  roi (withDerived t) = None \/ exists q, roi (withDerived t) = Some (Fin q).
Proof.
  unfold withDerived. cbn [roi].
  destruct (computeROI_cases (revenue t) (timeTaken t)) as [[_ E]|(a & b & _ & _ & _ & E)];
    rewrite E; eauto.
Qed.

Lemma forallb_validROI_map (ts : list Task) : forallb validROI (map withDerived ts) = true.
Proof.
  apply forallb_forall. intros d Hd. apply in_map_iff in Hd.
  destruct Hd as (t & <- & _). apply withDerived_validROI.
Qed.

Lemma StronglySorted_filter {A : Type} (R : A -> A -> Prop) (P : A -> bool) (l : list A) :
  StronglySorted R l -> StronglySorted R (filter P l).
Proof.
  induction 1 as [|x l Hs IH Hx]; cbn [filter]; [constructor|].
  destruct (P x); [|assumption].
  constructor; [assumption|].
  apply Forall_forall. intros y Hy. apply filter_In in Hy.
  rewrite Forall_forall in Hx. now apply Hx.
Qed.

Lemma filter_none {A : Type} (P : A -> bool) (l : list A) :
  (forall y, In y l -> P y = false) ->
  filter P l = [] /\ filter (fun x => negb (P x)) l = l.
Proof.
  induction l as [|y l IH]; intros H; [now split|]. cbn [filter].
  rewrite (H y (or_introl eq_refl)). cbn [negb].
  destruct IH as [E1 E2]; [intros z Hz; apply H; now right|].
  now rewrite E1, E2.
Qed.

(** A sorted list splits at the first element that fails a test which, once
    failed, stays failed along the order. *)
Lemma StronglySorted_split {A : Type} (R : A -> A -> Prop) (P : A -> bool) (l : list A) :
  StronglySorted R l ->
  (forall a b, In a l -> In b l -> R a b -> P a = false -> P b = false) ->
  l = filter P l ++ filter (fun x => negb (P x)) l.
Proof.
  induction 1 as [|x l Hs IH Hx]; intros Hmono; cbn [filter]; [reflexivity|].
  destruct (P x) eqn:E; cbn [negb app].
  - f_equal. apply IH. intros a b Ha Hb. apply Hmono; now right.
  - rewrite Forall_forall in Hx.
    destruct (filter_none P l) as [E1 E2].
    { intros y Hy. apply (Hmono x y); [now left | now right | now apply Hx | exact E]. }
    now rewrite E1, E2.
Qed.

Section DisplayOrder.
Context {C : Collator}.

Lemma sortTasks_perm_eq (l l' : list DerivedTask) :
  Permutation l l' -> forallb validROI l = true ->
  (forall a b, In a l -> In b l -> tied a b -> a = b) ->
  sortTasks l = sortTasks l'.
Proof.
  intros Hperm Hvalid Hties.
  assert (Hvalid' : forallb validROI l' = true).
  { apply forallb_forall. intros x Hx.
    apply (proj1 (forallb_forall validROI l) Hvalid).
    eapply Permutation_in; [apply Permutation_sym|]; eassumption. }
  apply StronglySorted_perm_eq with (R := rankedBefore).
  - now apply sortTasks_StronglySorted.
  - now apply sortTasks_StronglySorted.
  - unfold sortTasks.
    eapply perm_trans; [apply array_sort_perm|].
    eapply perm_trans; [eassumption | apply Permutation_sym, array_sort_perm].
  - intros a b Ha Hb Hab Hba. apply Hties.
    + eapply Permutation_in; [apply array_sort_perm | exact Ha].
    + eapply Permutation_in; [apply array_sort_perm | exact Hb].
    + now apply rankedBefore_antisym_tied.
Qed.

(** The list the hook displays is, for every task list, a permutation of
    the derived tasks in ranking order: each element may stand before the
    next by ROI, then priority weight, then title. *)
Lemma derivedSorted_ranked (s : UseTasks.State) :
  Sorted rankedBefore (UseTasks.derivedSorted s)
  /\ Permutation (UseTasks.derivedSorted s) (map withDerived (UseTasks.tasks s))
  /\ List.length (UseTasks.derivedSorted s) = List.length (UseTasks.tasks s).
Proof.
  unfold UseTasks.derivedSorted. split; [|split].
  - apply sortTasks_Sorted, forallb_validROI_map.
  - apply array_sort_perm.
  - unfold sortTasks. now rewrite array_sort_length, length_map.
Qed.

(** The filtered view of the display list is still in ranking order, holds
    only displayed tasks that pass the three filters, and is the whole
    list when no filter is set. *)
Lemma filtered_view (s : UseTasks.State) (q fStatus fPriority : string) :
  Sorted rankedBefore (filtered (UseTasks.derivedSorted s) q fStatus fPriority)
  /\ (forall d, In d (filtered (UseTasks.derivedSorted s) q fStatus fPriority) ->
        In d (UseTasks.derivedSorted s)
        /\ (fStatus <> "All" -> status (task d) = fStatus)
        /\ (fPriority <> "All" -> priority (task d) = fPriority)
        /\ (q <> "" -> includes (toLowerCase (title (task d))) (toLowerCase q) = true))
  /\ filtered (UseTasks.derivedSorted s) "" "All" "All" = UseTasks.derivedSorted s.
Proof.
  split; [|split].
  - apply StronglySorted_Sorted. unfold filtered. apply StronglySorted_filter.
    apply sortTasks_StronglySorted, forallb_validROI_map.
  - intros d Hd. unfold filtered in Hd. apply filter_In in Hd. destruct Hd as [Hd Hk].
    split; [assumption|]. unfold keeps in Hk.
    destruct (String.eqb_spec q "") as [Eq|Nq]; cbn [negb andb] in Hk.
    + destruct (String.eqb_spec fStatus "All") as [Es|Ns]; cbn [negb andb] in Hk;
        [|destruct (String.eqb_spec (status (task d)) fStatus); [|discriminate Hk]];
        (destruct (String.eqb_spec fPriority "All") as [Ep|Np]; cbn [negb andb] in Hk;
         [|destruct (String.eqb_spec (priority (task d)) fPriority); [|discriminate Hk]]);
        repeat split; intros; try congruence.
    + destruct (includes _ _) eqn:Ei; [|discriminate Hk]. cbn [negb] in Hk.
      destruct (String.eqb_spec fStatus "All") as [Es|Ns]; cbn [negb andb] in Hk;
        [|destruct (String.eqb_spec (status (task d)) fStatus); [|discriminate Hk]];
        (destruct (String.eqb_spec fPriority "All") as [Ep|Np]; cbn [negb andb] in Hk;
         [|destruct (String.eqb_spec (priority (task d)) fPriority); [|discriminate Hk]]);
        repeat split; intros; try congruence.
  - unfold filtered. apply forallb_filter_id. apply forallb_forall. intros d _. reflexivity.
Qed.

End DisplayOrder.

(** ** The task store *)

Lemma find_hasId (i : string) (l : list Task) (t : Task) :
  find (hasId i) l = Some t -> In t l /\ id t = i.
Proof.
  intros H. apply find_some in H. destruct H as [Hin Hid].
  split; [assumption|]. now apply String.eqb_eq.
Qed.

Lemma filter_other_ids (i : string) (l : list Task) :
  ~ In i (map id l) -> filter (fun t => negb (hasId i t)) l = l.
Proof.
  induction l as [|t l IH]; intros H; cbn [filter]; [reflexivity|].
  unfold hasId at 1.
  destruct (String.eqb_spec (id t) i) as [E|_]; cbn [negb].
  - exfalso. apply H. now left.
  - f_equal. apply IH. intros Hin. apply H. now right.
Qed.

Lemma find_absent (i : string) (l : list Task) :
  ~ In i (map id l) -> find (hasId i) l = None.
Proof.
  induction l as [|t l IH]; intros H; cbn [find]; [reflexivity|].
  unfold hasId at 1.
  destruct (String.eqb_spec (id t) i) as [E|_].
  - exfalso. apply H. now left.
  - apply IH. intros Hin. apply H. now right.
Qed.

Lemma delete_then_restore_perm (i : string) (l : list Task) :
  NoDup (map id l) ->
  Permutation
    (filter (fun t => negb (hasId i t)) l
     ++ match find (hasId i) l with Some t => [t] | None => [] end)
    l.
Proof.
  induction l as [|t l IH]; intros Hnd; cbn [filter find]; [constructor|].
  cbn [map] in Hnd. inversion Hnd as [|? ? Hnotin Hnd']; subst.
  destruct (hasId i t) eqn:E; cbn [negb].
  - apply String.eqb_eq in E. subst i. rewrite (filter_other_ids (id t) l Hnotin).
    apply Permutation_sym, Permutation_cons_append.
  - cbn [app]. apply perm_skip. now apply IH.
Qed.

Lemma deleteTask_undoDelete_tasks (i : string) (s : UseTasks.State) :
  UseTasks.lastDeleted (UseTasks.undoDelete (UseTasks.deleteTask i s)) = None
  /\ UseTasks.tasks (UseTasks.undoDelete (UseTasks.deleteTask i s))
     = filter (fun t => negb (hasId i t)) (UseTasks.tasks s)
       ++ match find (hasId i) (UseTasks.tasks s) with Some t => [t] | None => [] end.
Proof.
  unfold UseTasks.undoDelete, UseTasks.deleteTask. cbn.
  destruct (find (hasId i) (UseTasks.tasks s)); cbn; [now split|].
  now rewrite app_nil_r.
Qed.

(** Deleting a task and undoing: the task kept is the first with that id,
    the undo puts it back at the end and empties the undo slot; when ids
    are unique the list holds the same tasks as before. *)
Lemma deleteTask_undoDelete_roundtrip (i : string) (s : UseTasks.State) :
  UseTasks.lastDeleted (UseTasks.undoDelete (UseTasks.deleteTask i s)) = None
  /\ UseTasks.tasks (UseTasks.undoDelete (UseTasks.deleteTask i s))
     = filter (fun t => negb (hasId i t)) (UseTasks.tasks s)
       ++ match find (hasId i) (UseTasks.tasks s) with Some t => [t] | None => [] end
  /\ (NoDup (map id (UseTasks.tasks s)) ->
      Permutation (UseTasks.tasks (UseTasks.undoDelete (UseTasks.deleteTask i s)))
        (UseTasks.tasks s)).
Proof.
  destruct (deleteTask_undoDelete_tasks i s) as [E1 E2].
  split; [exact E1|]. split; [exact E2|].
  intros Hnd. rewrite E2. now apply delete_then_restore_perm.
Qed.

(** After a delete and its undo the display shows the same ranking as
    before, provided ids are unique and no two tasks are tied on the three
    sort keys. *)
Lemma deleteTask_undoDelete_display {C : Collator} (i : string) (s : UseTasks.State)
  (Hids : NoDup (map id (UseTasks.tasks s)))
  (Hties : forall a b, In a (map withDerived (UseTasks.tasks s)) ->
                       In b (map withDerived (UseTasks.tasks s)) -> tied a b -> a = b) :
  UseTasks.derivedSorted (UseTasks.undoDelete (UseTasks.deleteTask i s))
  = UseTasks.derivedSorted s.
Proof.
  unfold UseTasks.derivedSorted. symmetry. apply sortTasks_perm_eq.
  - apply Permutation_map, Permutation_sym.
    rewrite (proj2 (deleteTask_undoDelete_tasks i s)).
    now apply delete_then_restore_perm.
  - apply forallb_validROI_map.
  - exact Hties.
Qed.

Lemma deleteTask_undoDelete_display_witness :
  @UseTasks.derivedSorted codeUnitCollator
    (UseTasks.undoDelete (UseTasks.deleteTask "t-a" twoTasks))
  = @UseTasks.derivedSorted codeUnitCollator twoTasks.
Proof.
  apply (@deleteTask_undoDelete_display codeUnitCollator "t-a" twoTasks).
  - repeat constructor; cbn; intuition discriminate.
  - intros a b [<-|[<-|[]]] [<-|[<-|[]]] (_ & Hp & _); try reflexivity; discriminate Hp.
Defined.

(** Deleting an id that no task has leaves the list as it is and empties
    the undo slot: a task kept from an earlier delete can no longer be
    restored. *)
Lemma deleteTask_absent_id (i : string) (s : UseTasks.State)
  (Habsent : existsb (hasId i) (UseTasks.tasks s) = false) :
  UseTasks.deleteTask i s = UseTasks.mkState (UseTasks.tasks s) None
  /\ UseTasks.undoDelete (UseTasks.deleteTask i s) = UseTasks.mkState (UseTasks.tasks s) None.
Proof.
  assert (Hnot : ~ In i (map id (UseTasks.tasks s))).
  { intros Hin. apply in_map_iff in Hin. destruct Hin as (t & Ht & Hin).
    assert (E : existsb (hasId i) (UseTasks.tasks s) = true).
    { apply existsb_exists. exists t. split; [assumption|]. now apply String.eqb_eq. }
    congruence. }
  assert (E : UseTasks.deleteTask i s = UseTasks.mkState (UseTasks.tasks s) None).
  { unfold UseTasks.deleteTask. now rewrite (filter_other_ids i _ Hnot), (find_absent i _ Hnot). }
  split; [exact E|]. now rewrite E.
Qed.

Lemma deleteTask_absent_id_witness :
  UseTasks.deleteTask "t-z" (UseTasks.mkState [taskA; taskB] (Some twin1))
  = UseTasks.mkState [taskA; taskB] None
  /\ UseTasks.undoDelete (UseTasks.deleteTask "t-z" (UseTasks.mkState [taskA; taskB] (Some twin1)))
     = UseTasks.mkState [taskA; taskB] None.
Proof.
  exact (deleteTask_absent_id "t-z" (UseTasks.mkState [taskA; taskB] (Some twin1)) eq_refl).
Defined.

(** [deleteTask] removes every task with the id but keeps only the first
    for undo: after the undo the list is shorter by the number of further
    tasks that shared the id. *)
Lemma deleteTask_undoDelete_length (i : string) (s : UseTasks.State) :
  (List.length (UseTasks.tasks (UseTasks.undoDelete (UseTasks.deleteTask i s)))
   + List.length (filter (hasId i) (UseTasks.tasks s))
   = List.length (UseTasks.tasks s)
     + (if existsb (hasId i) (UseTasks.tasks s) then 1 else 0))%nat.
Proof.
  rewrite (proj2 (deleteTask_undoDelete_tasks i s)), length_app.
  induction (UseTasks.tasks s) as [|t l IH]; [reflexivity|].
  cbn [filter find existsb]. destruct (hasId i t) eqn:E; cbn [negb orb List.length].
  - clear IH. rewrite Nat.add_1_r.
    assert (G : (List.length (filter (fun t0 => negb (hasId i t0)) l)
                 + List.length (filter (hasId i) l) = List.length l)%nat).
    { clear. induction l as [|u l IH]; [reflexivity|]. cbn [filter].
      destruct (hasId i u); cbn [negb List.length]; lia. }
    lia.
  - lia.
Qed.

Lemma map_id_spread (i : string) (patch : Patch) (l : list Task) :
  p_id patch = None ->
  map id (map (fun t => if hasId i t then spread t patch else t) l) = map id l.
Proof.
  intros Hp. rewrite map_map. apply map_ext. intros t.
  destruct (hasId i t); [|reflexivity]. unfold spread. cbn [id]. now rewrite Hp.
Qed.

(** Ids stay unique.  When the ids of the tasks and of the task kept for
    undo are pairwise different, they still are after adding a task under
    a fresh id, updating with a patch that carries no id, deleting, undoing
    and clearing the undo slot. *)
Lemma ids_stay_unique (s : UseTasks.State) (Hunique : NoDup (idsInUse s)) :
  (forall task uuid now,
      ~ In uuid (idsInUse s) -> NoDup (idsInUse (UseTasks.addTask task uuid now s)))
  /\ (forall i patch,
         p_id patch = None -> NoDup (idsInUse (UseTasks.updateTask i patch s)))
  /\ (forall i, NoDup (idsInUse (UseTasks.deleteTask i s)))
  /\ NoDup (idsInUse (UseTasks.undoDelete s))
  /\ NoDup (idsInUse (UseTasks.clearLastDeleted s)).
Proof.
  assert (Htasks : NoDup (map id (UseTasks.tasks s))).
  { unfold idsInUse in Hunique. now apply NoDup_app_remove_r in Hunique. }
  split; [|split; [|split; [|split]]].
  - intros task uuid now Hfresh. unfold idsInUse, UseTasks.addTask in *.
    cbn [UseTasks.tasks UseTasks.lastDeleted]. rewrite map_app. cbn [map id].
    rewrite <- app_assoc. cbn [app].
    apply (Permutation_NoDup (l := uuid :: (map id (UseTasks.tasks s)
                  ++ match UseTasks.lastDeleted s with Some t => [id t] | None => [] end))).
    + apply Permutation_middle.
    + now constructor.
  - intros i patch Hp. unfold idsInUse, UseTasks.updateTask.
    cbn [UseTasks.tasks UseTasks.lastDeleted]. now rewrite map_id_spread.
  - intros i. unfold idsInUse, UseTasks.deleteTask. cbn [UseTasks.tasks UseTasks.lastDeleted].
    apply (Permutation_NoDup (l := map id (UseTasks.tasks s))); [|assumption].
    apply Permutation_sym.
    replace (map id (filter (fun t => negb (hasId i t)) (UseTasks.tasks s))
             ++ match find (hasId i) (UseTasks.tasks s) with Some t => [id t] | None => [] end)
      with (map id (filter (fun t => negb (hasId i t)) (UseTasks.tasks s)
                    ++ match find (hasId i) (UseTasks.tasks s) with
                       | Some t => [t] | None => [] end))
      by (rewrite map_app; now destruct (find (hasId i) (UseTasks.tasks s))).
    apply Permutation_map. now apply delete_then_restore_perm.
  - unfold idsInUse, UseTasks.undoDelete in *.
    destruct (UseTasks.lastDeleted s) as [t|] eqn:E.
    + cbn [UseTasks.tasks UseTasks.lastDeleted]. rewrite map_app, app_nil_r. exact Hunique.
    + now rewrite E.
  - unfold idsInUse, UseTasks.clearLastDeleted. cbn [UseTasks.tasks UseTasks.lastDeleted].
    now rewrite app_nil_r.
Qed.

Lemma ids_stay_unique_witness :
  (forall task uuid now,
      ~ In uuid (idsInUse twoTasks) -> NoDup (idsInUse (UseTasks.addTask task uuid now twoTasks)))
  /\ (forall i patch,
         p_id patch = None -> NoDup (idsInUse (UseTasks.updateTask i patch twoTasks)))
  /\ (forall i, NoDup (idsInUse (UseTasks.deleteTask i twoTasks)))
  /\ NoDup (idsInUse (UseTasks.undoDelete twoTasks))
  /\ NoDup (idsInUse (UseTasks.clearLastDeleted twoTasks)).
Proof.
  apply (ids_stay_unique twoTasks).
  repeat constructor; cbn; intuition discriminate.
Defined.

Lemma positiveOr1_positive (v : num) : ngtb (UseTasksGuarded.positiveOr1 v) zero = true.
Proof.
  unfold UseTasksGuarded.positiveOr1. destruct (ngtb v zero) eqn:E; [exact E | reflexivity].
Qed.

Lemma patched_positive (t : Task) (patch : Patch) (now : Z) :
  positiveTime t = true -> positiveTime (UseTasksGuarded.patched t patch now) = true.
Proof.
  unfold positiveTime, UseTasksGuarded.patched, UseTasksGuarded.patchesTime. cbn [timeTaken].
  intros Ht. destruct (p_timeTaken patch) as [v|]; [|exact Ht].
  destruct (ngtb v zero) eqn:E; [exact E | exact Ht].
Qed.

(** The guarded copy of the hook keeps every time taken greater than
    zero: adding replaces a time that is not by 1, updating ignores a
    patched time that is not, and deleting and undoing move tasks as they
    are. *)
Lemma guarded_times_stay_positive (s : UseTasks.State) (Hpos : positiveTimes s = true) :
  (forall task uuid now, positiveTimes (UseTasksGuarded.addTask task uuid now s) = true)
  /\ (forall i patch now, positiveTimes (UseTasksGuarded.updateTask i patch now s) = true)
  /\ (forall i, positiveTimes (UseTasks.deleteTask i s) = true)
  /\ positiveTimes (UseTasks.undoDelete s) = true.
Proof.
  unfold positiveTimes in Hpos. apply andb_prop in Hpos. destruct Hpos as [Ht Hd].
  pose proof (proj1 (forallb_forall _ _) Ht) as Hall.
  split; [|split; [|split]].
  - intros task uuid now. unfold positiveTimes, UseTasksGuarded.addTask.
    cbn [UseTasks.tasks UseTasks.lastDeleted]. rewrite forallb_app, Ht, Hd. cbn [forallb andb].
    unfold positiveTime at 1. cbn [timeTaken]. now rewrite positiveOr1_positive.
  - intros i patch now. unfold positiveTimes, UseTasksGuarded.updateTask.
    cbn [UseTasks.tasks UseTasks.lastDeleted]. rewrite Hd, andb_true_r.
    apply forallb_forall. intros u Hu. apply in_map_iff in Hu. destruct Hu as (t & <- & Hin).
    destruct (hasId i t); [apply patched_positive|]; now apply Hall.
  - intros i. unfold positiveTimes, UseTasks.deleteTask.
    cbn [UseTasks.tasks UseTasks.lastDeleted]. apply andb_true_intro. split.
    + apply forallb_forall. intros u Hu. apply filter_In in Hu. now apply Hall.
    + destruct (find (hasId i) (UseTasks.tasks s)) as [t|] eqn:E; [|reflexivity].
      apply Hall. now apply (find_hasId i _ E).
  - unfold positiveTimes, UseTasks.undoDelete.
    destruct (UseTasks.lastDeleted s) as [t|] eqn:E.
    + cbn [UseTasks.tasks UseTasks.lastDeleted]. rewrite forallb_app, Ht. cbn [forallb].
      now rewrite Hd.
    + now rewrite E, Ht.
Qed.

Lemma guarded_times_stay_positive_witness :
  (forall task uuid now, positiveTimes (UseTasksGuarded.addTask task uuid now twoTasks) = true)
  /\ (forall i patch now, positiveTimes (UseTasksGuarded.updateTask i patch now twoTasks) = true)
  /\ (forall i, positiveTimes (UseTasks.deleteTask i twoTasks) = true)
  /\ positiveTimes (UseTasks.undoDelete twoTasks) = true.
Proof. exact (guarded_times_stay_positive twoTasks eq_refl). Defined.

Lemma spread_twice (t : Task) (patch : Patch) : spread (spread t patch) patch = spread t patch.
Proof.
  unfold spread. cbn.
  destruct (p_id patch), (p_title patch), (p_revenue patch), (p_timeTaken patch),
    (p_priority patch), (p_status patch), (p_notes patch), (p_createdAt patch),
    (p_completedAt patch); reflexivity.
Qed.

Lemma patched_twice (t : Task) (patch : Patch) (now : Z) :
  UseTasksGuarded.patched (UseTasksGuarded.patched t patch now) patch now
  = UseTasksGuarded.patched t patch now.
Proof.
  unfold UseTasksGuarded.patched, UseTasksGuarded.patchesTime, spread. cbn.
  f_equal.
  - now destruct (p_id patch).
  - now destruct (p_title patch).
  - now destruct (p_revenue patch).
  - destruct (p_timeTaken patch) as [v|]; [|reflexivity]. now destruct (ngtb v zero).
  - now destruct (p_priority patch).
  - now destruct (p_status patch).
  - now destruct (p_notes patch).
  - now destruct (p_createdAt patch).
  - destruct (p_status patch) as [st|]; cbn [nullish].
    + destruct (String.eqb st "Done") eqn:E; cbn [negb andb].
      * rewrite andb_true_r. now destruct (String.eqb (status t) "Done").
      * rewrite !andb_false_r. reflexivity.
    + rewrite !andb_false_r. reflexivity.
Qed.

(** Updating is idempotent in both copies of the hook, keeps the number of
    tasks, and leaves every task with another id as it is, in its place. *)
Lemma updateTask_idempotent (i : string) (patch : Patch) (now : Z) (s : UseTasks.State) :
  UseTasks.updateTask i patch (UseTasks.updateTask i patch s) = UseTasks.updateTask i patch s
  /\ UseTasksGuarded.updateTask i patch now (UseTasksGuarded.updateTask i patch now s)
     = UseTasksGuarded.updateTask i patch now s
  /\ List.length (UseTasks.tasks (UseTasks.updateTask i patch s))
     = List.length (UseTasks.tasks s)
  /\ (forall k t, nth_error (UseTasks.tasks s) k = Some t -> id t <> i ->
                  nth_error (UseTasks.tasks (UseTasks.updateTask i patch s)) k = Some t
                  /\ nth_error (UseTasks.tasks (UseTasksGuarded.updateTask i patch now s)) k
                     = Some t).
Proof.
  split; [|split; [|split]].
  - unfold UseTasks.updateTask. cbn [UseTasks.tasks UseTasks.lastDeleted]. f_equal.
    rewrite map_map. apply map_ext. intros t.
    destruct (hasId i t) eqn:E; [|now rewrite E].
    destruct (hasId i (spread t patch)); [apply spread_twice | reflexivity].
  - unfold UseTasksGuarded.updateTask. cbn [UseTasks.tasks UseTasks.lastDeleted]. f_equal.
    rewrite map_map. apply map_ext. intros t.
    destruct (hasId i t) eqn:E; [|now rewrite E].
    destruct (hasId i (UseTasksGuarded.patched t patch now));
      [apply patched_twice | reflexivity].
  - unfold UseTasks.updateTask. cbn [UseTasks.tasks]. apply length_map.
  - intros k t Hk Hid.
    assert (E : hasId i t = false) by now apply String.eqb_neq.
    unfold UseTasks.updateTask, UseTasksGuarded.updateTask. cbn [UseTasks.tasks].
    rewrite !nth_error_map, Hk. cbn [option_map]. now rewrite E.
Qed.

(** ** Grouping into a [Map] *)

Lemma map_get_set_same {V : Type} (m : list (string * V)) (k : string) (v : V) :
  map_get (map_set m k v) k = Some v.
Proof.
  induction m as [|[k' v'] m IH]; cbn [map_set map_get].
  - now rewrite String.eqb_refl.
  - destruct (String.eqb k' k) eqn:E; cbn [map_get].
    + now rewrite String.eqb_refl.
    + now rewrite E.
Qed.

Lemma map_get_set_other {V : Type} (m : list (string * V)) (k k0 : string) (v : V) :
  k <> k0 -> map_get (map_set m k v) k0 = map_get m k0.
Proof.
  intros Hne. induction m as [|[k' v'] m IH]; cbn [map_set map_get].
  - now rewrite (proj2 (String.eqb_neq k k0) Hne).
  - destruct (String.eqb_spec k' k) as [->|N]; cbn [map_get].
    + now rewrite (proj2 (String.eqb_neq k k0) Hne).
    + now rewrite IH.
Qed.

Lemma map_set_keys {V : Type} (m : list (string * V)) (k : string) (v : V) :
  map fst (map_set m k v)
  = if existsb (String.eqb k) (map fst m) then map fst m else map fst m ++ [k].
Proof.
  induction m as [|[k' v'] m IH]; cbn [map_set map fst existsb app]; [reflexivity|].
  rewrite (String.eqb_sym k k').
  destruct (String.eqb_spec k' k) as [->|N]; cbn [map fst orb]; [reflexivity|].
  rewrite IH. now destruct (existsb (String.eqb k) (map fst m)).
Qed.

Lemma map_set_NoDup {V : Type} (m : list (string * V)) (k : string) (v : V) :
  NoDup (map fst m) -> NoDup (map fst (map_set m k v)).
Proof.
  intros H. rewrite map_set_keys.
  destruct (existsb (String.eqb k) (map fst m)) eqn:E; [assumption|].
  apply (Permutation_NoDup (l := k :: map fst m)); [apply Permutation_cons_append|].
  constructor; [|assumption].
  intros Hin. assert (E' : existsb (String.eqb k) (map fst m) = true).
  { apply existsb_exists. exists k. split; [assumption | apply String.eqb_refl]. }
  congruence.
Qed.

Lemma map_get_In {V : Type} (m : list (string * V)) (k : string) (v : V) :
  map_get m k = Some v -> In (k, v) m.
Proof.
  induction m as [|[k' v'] m IH]; cbn [map_get]; [discriminate|].
  destruct (String.eqb_spec k' k) as [->|N].
  - intros [= <-]. now left.
  - intros H. right. now apply IH.
Qed.

Lemma In_map_get {V : Type} (m : list (string * V)) (k : string) (v : V) :
  NoDup (map fst m) -> In (k, v) m -> map_get m k = Some v.
Proof.
  induction m as [|[k' v'] m IH]; intros Hnd Hin; [contradiction|].
  cbn [map fst] in Hnd. inversion Hnd as [|? ? Hnotin Hnd']; subst. cbn [map_get].
  destruct Hin as [[= -> ->]|Hin].
  - now rewrite String.eqb_refl.
  - destruct (String.eqb_spec k' k) as [->|N]; [|now apply IH].
    exfalso. apply Hnotin. apply in_map_iff. now exists (k, v).
Qed.

Section GroupByFacts.
Context {A V : Type} (key : A -> option string) (upd : option V -> A -> V).

Lemma groupStep_NoDup (l : list A) :
  forall m, NoDup (map fst m) -> NoDup (map fst (fold_left (groupStep key upd) l m)).
Proof.
  induction l as [|x l IH]; intros m H; cbn [fold_left]; [assumption|].
  apply IH. unfold groupStep. destruct (key x); [now apply map_set_NoDup | assumption].
Qed.

(** What a key holds at the end: the fold of the updates of the records
    filed under it, in their order. *)
Lemma groupStep_get (l : list A) :
  forall m k,
    map_get (fold_left (groupStep key upd) l m) k
    = foldGroup upd (map_get m k) (filter (filedUnder key k) l).
Proof.
  induction l as [|x l IH]; intros m k; cbn [fold_left filter]; [reflexivity|].
  rewrite IH.
  assert (Ef : filedUnder key k x
               = match key x with Some k' => String.eqb k' k | None => false end)
    by reflexivity.
  rewrite Ef. unfold groupStep.
  destruct (key x) as [kx|]; [|reflexivity].
  destruct (String.eqb_spec kx k) as [E|N].
  - rewrite E. unfold foldGroup. cbn [fold_left]. now rewrite map_get_set_same.
  - now rewrite map_get_set_other.
Qed.

End GroupByFacts.

Lemma foldGroup_countAndAdd (l : list Task) :
  forall o,
    foldGroup countAndAdd o l
    = match l with
      | [] => o
      | _ :: _ => Some ((fst (nullish o (0%nat, zero)) + List.length l)%nat,
                        (snd (nullish o (0%nat, zero)) + sumOver revenue l)%num)
      end.
Proof.
  induction l as [|t l IH]; intros o; [reflexivity|].
  unfold foldGroup in *. cbn [fold_left]. rewrite IH.
  destruct l as [|u l]; unfold countAndAdd; cbn [nullish fst snd List.length sumOver fold_right].
  - f_equal. f_equal; [lia | now rewrite nadd_zero_r].
  - f_equal. f_equal; [lia | now rewrite <- nadd_assoc].
Qed.

Lemma foldGroup_addRevenue (l : list Task) :
  forall o,
    foldGroup addRevenue o l
    = match l with
      | [] => o
      | _ :: _ => Some (nullish o zero + sumOver revenue l)%num
      end.
Proof.
  induction l as [|t l IH]; intros o; [reflexivity|].
  unfold foldGroup in *. cbn [fold_left]. rewrite IH.
  destruct l as [|u l]; unfold addRevenue; cbn [nullish sumOver fold_right].
  - now rewrite nadd_zero_r.
  - now rewrite <- nadd_assoc.
Qed.

Lemma fold_left_pointwise {A B : Type} (f g : B -> A -> B) (l : list A) :
  (forall acc x, f acc x = g acc x) -> forall acc, fold_left f l acc = fold_left g l acc.
Proof.
  intros H. induction l as [|x l IH]; intros acc; cbn [fold_left]; [reflexivity|].
  now rewrite H, IH.
Qed.

(** A value that adds [g x] to what was stored adds [g x] to the total. *)
Lemma map_set_total {V : Type} (f : V -> num) (g : num) (m : list (string * V))
  (k : string) (v : V) :
  f v = (match map_get m k with Some old => f old | None => zero end + g)%num ->
  sumOver (fun e => f (snd e)) (map_set m k v) = (sumOver (fun e => f (snd e)) m + g)%num.
Proof.
  induction m as [|[k' v'] m IH]; cbn [map_get map_set]; intros H.
  - unfold sumOver. cbn [fold_right snd]. rewrite H. now rewrite nadd_zero_r.
  - destruct (String.eqb k' k).
    + unfold sumOver. cbn [fold_right snd]. rewrite H.
      rewrite <- !nadd_assoc. f_equal. apply nadd_comm.
    + unfold sumOver in *. cbn [fold_right snd]. rewrite (IH H). apply nadd_assoc.
Qed.

Lemma map_set_count {V : Type} (f : V -> nat) (m : list (string * V)) (k : string) (v : V) :
  f v = S (match map_get m k with Some old => f old | None => 0%nat end) ->
  list_sum (map (fun e => f (snd e)) (map_set m k v))
  = S (list_sum (map (fun e => f (snd e)) m)).
Proof.
  unfold list_sum.
  induction m as [|[k' v'] m IH]; cbn [map_get map_set]; intros H.
  - cbn [map fold_right snd]. rewrite H. lia.
  - destruct (String.eqb k' k); cbn [map fold_right snd].
    + rewrite H. lia.
    + rewrite (IH H). lia.
Qed.

Section ThroughputGroups.
Context {C : Collator}.

Lemma throughput_map (tasks : list Task) :
  computeThroughputByWeek tasks
  = map (fun e => Bucket.mk (fst e) (fst (snd e)) (snd (snd e)))
      (array_sort byKey (fold_left (groupStep weekOfCompletion countAndAdd) tasks [])).
Proof.
  unfold computeThroughputByWeek. do 2 f_equal.
  apply fold_left_pointwise. intros m t.
  unfold groupStep, weekOfCompletion. now destruct (completedAt t).
Qed.

Lemma filedUnder_week (k : string) (tasks : list Task) :
  filter (filedUnder weekOfCompletion k) tasks = filter (completedInWeek k) tasks.
Proof.
  apply filter_ext. intros t. unfold filedUnder, weekOfCompletion, completedInWeek.
  now destruct (completedAt t).
Qed.

(** [computeThroughputByWeek] groups correctly: the week keys of the
    buckets are pairwise different; a bucket counts the completed tasks
    with its week key, at least one, and sums their revenue; and the week
    of every completed task has a bucket. *)
Lemma computeThroughputByWeek_groups (tasks : list Task) :
  NoDup (map Bucket.week (computeThroughputByWeek tasks))
  /\ (forall b, In b (computeThroughputByWeek tasks) ->
        (1 <= Bucket.count b)%nat
        /\ Bucket.count b = List.length (filter (completedInWeek (Bucket.week b)) tasks)
        /\ Bucket.revenue b = sumOver revenue (filter (completedInWeek (Bucket.week b)) tasks))
  /\ (forall t d, In t tasks -> completedAt t = Some d ->
        exists b, In b (computeThroughputByWeek tasks) /\ Bucket.week b = weekKey d).
Proof.
  rewrite throughput_map.
  set (m := fold_left (groupStep weekOfCompletion countAndAdd) tasks []).
  assert (Hnd : NoDup (map fst m)) by (apply groupStep_NoDup; constructor).
  assert (Hget : forall k, map_get m k
                           = match filter (completedInWeek k) tasks with
                             | [] => None
                             | _ :: _ =>
                                 Some (List.length (filter (completedInWeek k) tasks),
                                       sumOver revenue (filter (completedInWeek k) tasks))
                             end).
  { intros k. unfold m. rewrite groupStep_get, foldGroup_countAndAdd, filedUnder_week.
    cbn [map_get nullish fst snd].
    destruct (filter (completedInWeek k) tasks); [reflexivity|].
    now rewrite nadd_zero_l. }
  assert (Hperm := array_sort_perm byKey m).
  split; [|split].
  - rewrite map_map. cbn [Bucket.week].
    apply (Permutation_NoDup (l := map fst m)); [|assumption].
    apply Permutation_map, Permutation_sym, Hperm.
  - intros b Hb. apply in_map_iff in Hb. destruct Hb as ([k [c r]] & <- & He).
    cbn [Bucket.week Bucket.count Bucket.revenue fst snd].
    apply (Permutation_in _ Hperm) in He.
    apply (In_map_get _ _ _ Hnd) in He. rewrite Hget in He.
    destruct (filter (completedInWeek k) tasks) as [|t l]; [discriminate|].
    injection He as <- <-. cbn [List.length]. repeat split. lia.
  - intros t d Ht Hd.
    destruct (map_get m (weekKey d)) as [[c r]|] eqn:E.
    + exists (Bucket.mk (weekKey d) c r). split; [|reflexivity].
      apply in_map_iff. exists (weekKey d, (c, r)). split; [reflexivity|].
      apply (Permutation_in _ (Permutation_sym Hperm)). now apply map_get_In.
    + rewrite Hget in E.
      assert (Hin : In t (filter (completedInWeek (weekKey d)) tasks)).
      { apply filter_In. split; [assumption|]. unfold completedInWeek.
        rewrite Hd. apply String.eqb_refl. }
      destruct (filter (completedInWeek (weekKey d)) tasks); [contradiction | discriminate].
Qed.

(** Nothing is lost or counted twice: the counts of the buckets add up to
    the number of completed tasks, and their revenues to the revenue of the
    completed tasks. *)
Lemma computeThroughputByWeek_conserves (tasks : list Task) :
  list_sum (map Bucket.count (computeThroughputByWeek tasks))
  = List.length (filter isCompleted tasks)
  /\ sumOver Bucket.revenue (computeThroughputByWeek tasks)
     = sumOver revenue (filter isCompleted tasks).
Proof.
  rewrite throughput_map.
  set (m := fold_left (groupStep weekOfCompletion countAndAdd) tasks []).
  assert (Hperm := array_sort_perm byKey m).
  rewrite map_map, sumOver_map. cbn [Bucket.count Bucket.revenue].
  rewrite (Permutation_list_sum
             (Permutation_map (fun e : string * (nat * num) => fst (snd e)) Hperm)).
  rewrite (sumOver_perm (fun e : string * (nat * num) => snd (snd e)) Hperm).
  unfold m. clear m Hperm.
  enough (G : forall m0,
             list_sum (map (fun e : string * (nat * num) => fst (snd e))
                         (fold_left (groupStep weekOfCompletion countAndAdd) tasks m0))
             = (list_sum (map (fun e : string * (nat * num) => fst (snd e)) m0)
                + List.length (filter isCompleted tasks))%nat
             /\ sumOver (fun e : string * (nat * num) => snd (snd e))
                  (fold_left (groupStep weekOfCompletion countAndAdd) tasks m0)
                = (sumOver (fun e : string * (nat * num) => snd (snd e)) m0
                   + sumOver revenue (filter isCompleted tasks))%num).
  { destruct (G []) as [G1 G2]. split; [exact G1|]. rewrite G2. apply nadd_zero_l. }
  induction tasks as [|t tasks IH]; intros m0; cbn [fold_left filter].
  - cbn [List.length]. unfold sumOver at 3. cbn [fold_right].
    split; [lia | now rewrite nadd_zero_r].
  - destruct (IH (groupStep weekOfCompletion countAndAdd m0 t)) as [IH1 IH2].
    rewrite IH1, IH2. unfold groupStep, weekOfCompletion, isCompleted.
    destruct (completedAt t) as [d|]; cbn [option_map]; [|now split].
    split.
    + rewrite (map_set_count fst).
      * cbn [List.length]. lia.
      * unfold countAndAdd. cbn [fst]. now destruct (map_get m0 (weekKey d)).
    + rewrite (map_set_total snd (revenue t)).
      * unfold sumOver at 4. cbn [fold_right]. fold (sumOver revenue (filter
          (fun t0 => match completedAt t0 with Some _ => true | None => false end) tasks)).
        now rewrite nadd_assoc.
      * unfold countAndAdd. cbn [snd]. now destruct (map_get m0 (weekKey d)).
Qed.

End ThroughputGroups.

(** ** Cohort keys *)

Lemma string_app_nil_r (s : string) : (s ++ EmptyString)%string = s.
Proof. induction s as [|c s IH]; cbn [String.append]; [reflexivity | now rewrite IH]. Qed.

Lemma string_app_snoc (s t : string) (c : ascii) :
  ((s ++ String c EmptyString) ++ t)%string = (s ++ String c t)%string.
Proof. induction s as [|a s IH]; cbn [String.append]; [reflexivity | now rewrite IH]. Qed.

Lemma noBar_app (s t : string) : noBar (s ++ t)%string = noBar s && noBar t.
Proof.
  induction s as [|c s IH]; cbn [String.append noBar]; [reflexivity|].
  rewrite IH. now rewrite andb_assoc.
Qed.

Lemma noBar_uint (d : Decimal.uint) : noBar (NilEmpty.string_of_uint d) = true.
Proof. induction d; cbn [NilEmpty.string_of_uint noBar]; auto. Qed.

Lemma noBar_decimal (z : Z) : noBar (decimal z) = true.
Proof.
  unfold decimal, NilZero.string_of_int, NilZero.string_of_uint.
  destruct (Z.to_int z) as [d|d]; destruct d; try reflexivity;
    try apply (noBar_uint (Decimal.D0 _)); try apply (noBar_uint (Decimal.D1 _));
    try apply (noBar_uint (Decimal.D2 _)); try apply (noBar_uint (Decimal.D3 _));
    try apply (noBar_uint (Decimal.D4 _)); try apply (noBar_uint (Decimal.D5 _));
    try apply (noBar_uint (Decimal.D6 _)); try apply (noBar_uint (Decimal.D7 _));
    try apply (noBar_uint (Decimal.D8 _)); try apply (noBar_uint (Decimal.D9 _)).
Qed.

Lemma noBar_weekKey (d : Z) : noBar (weekKey d) = true.
Proof.
  unfold weekKey. rewrite !noBar_app, noBar_decimal. cbn [noBar andb].
  unfold toStringNum. destruct (getWeekNumber d); try reflexivity. apply noBar_decimal.
Qed.

Lemma split_bar_noBar (s : string) :
  forall current, noBar s = true -> split_bar s current = [(current ++ s)%string].
Proof.
  induction s as [|c s IH]; intros current H; cbn [split_bar noBar] in *.
  - now rewrite string_app_nil_r.
  - apply andb_prop in H. destruct H as [Hc Hs].
    destruct (Ascii.eqb c "|"); [discriminate|].
    rewrite (IH _ Hs). now rewrite string_app_snoc.
Qed.

Lemma split_bar_prefix (w s : string) :
  forall current,
    noBar w = true ->
    split_bar (w ++ String "|" s) current = (current ++ w)%string :: split_bar s EmptyString.
Proof.
  induction w as [|c w IH]; intros current H; cbn [String.append split_bar noBar] in *.
  - rewrite string_app_nil_r. now rewrite Ascii.eqb_refl.
  - apply andb_prop in H. destruct H as [Hc Hw].
    destruct (Ascii.eqb c "|"); [discriminate|].
    rewrite (IH _ Hw). now rewrite string_app_snoc.
Qed.

(** The key of a cohort splits back into its week and, when the priority
    holds no separator, its priority. *)
Lemma cohortKey_parts (t : Task) :
  part (split_bar (cohortKey t) EmptyString) 0 = weekKey (createdAt t)
  /\ (noBar (priority t) = true ->
      part (split_bar (cohortKey t) EmptyString) 1 = priority t).
Proof.
  unfold cohortKey. cbn [String.append].
  rewrite (split_bar_prefix _ _ EmptyString (noBar_weekKey (createdAt t))).
  cbn [String.append part nth]. split; [reflexivity|].
  intros Hp. now rewrite (split_bar_noBar _ EmptyString Hp).
Qed.

Lemma cohort_map (tasks : list Task) :
  computeCohortRevenue tasks
  = map (fun e => Cohort.mk (part (split_bar (fst e) EmptyString) 0)
                    (part (split_bar (fst e) EmptyString) 1) (snd e))
      (fold_left (groupStep (fun t => Some (cohortKey t)) addRevenue) tasks []).
Proof. reflexivity. Qed.

Lemma cohort_get (tasks : list Task) (k : string) :
  map_get (fold_left (groupStep (fun t => Some (cohortKey t)) addRevenue) tasks []) k
  = match filter (inCohort k) tasks with
    | [] => None
    | _ :: _ => Some (sumOver revenue (filter (inCohort k) tasks))
    end.
Proof.
  rewrite groupStep_get, foldGroup_addRevenue.
  replace (filter (filedUnder (fun t => Some (cohortKey t)) k) tasks)
    with (filter (inCohort k) tasks) by (apply filter_ext; reflexivity).
  cbn [map_get nullish]. destruct (filter (inCohort k) tasks); [reflexivity|].
  now rewrite nadd_zero_l.
Qed.

Lemma filter_filter {A : Type} (f g : A -> bool) (l : list A) :
  filter f (filter g l) = filter (fun x => g x && f x) l.
Proof.
  induction l as [|x l IH]; cbn [filter]; [reflexivity|].
  destruct (g x); cbn [filter andb]; [destruct (f x)|]; now rewrite IH.
Qed.

(** The keys of a [Map] filled by a loop: those it held, then the new
    ones in the order of their first occurrence. *)
Lemma groupStep_keys {A V : Type} (key : A -> string) (upd : option V -> A -> V)
  (l : list A) :
  forall m,
    map fst (fold_left (groupStep (fun x => Some (key x)) upd) l m)
    = map fst m
      ++ filter (fun k => negb (existsb (String.eqb k) (map fst m)))
           (firstOccurrences (map key l)).
Proof.
  induction l as [|x l IH]; intros m; cbn [fold_left map firstOccurrences filter].
  - now rewrite app_nil_r.
  - assert (Eg : map fst (groupStep (fun x => Some (key x)) upd m x)
                 = if existsb (String.eqb (key x)) (map fst m) then map fst m
                   else map fst m ++ [key x])
      by (unfold groupStep; apply map_set_keys).
    rewrite IH, Eg, filter_filter.
    destruct (existsb (String.eqb (key x)) (map fst m)) eqn:E; cbn [negb].
    + f_equal. apply filter_ext_in. intros k _.
      destruct (String.eqb_spec k (key x)) as [->|N]; cbn [negb andb]; [|reflexivity].
      now rewrite E.
    + rewrite <- app_assoc. cbn [app]. do 2 f_equal. apply filter_ext. intros k.
      rewrite existsb_app. cbn [existsb]. rewrite orb_false_r, negb_orb.
      now rewrite andb_comm.
Qed.

(** [computeCohortRevenue] has one entry per cohort key in use, in the
    order in which the keys first occur among the tasks; an entry carries
    the two parts of its key and the sum of the revenue of the tasks with
    that key.  A task whose priority holds no separator finds its week, its
    priority and the revenue of its cohort in one entry. *)
Lemma computeCohortRevenue_groups (tasks : list Task) :
  computeCohortRevenue tasks
  = map (fun k => Cohort.mk (part (split_bar k EmptyString) 0)
                    (part (split_bar k EmptyString) 1)
                    (sumOver revenue (filter (inCohort k) tasks)))
      (firstOccurrences (map cohortKey tasks))
  /\ (forall t, In t tasks -> noBar (priority t) = true ->
        In (Cohort.mk (weekKey (createdAt t)) (priority t)
              (sumOver revenue (filter (inCohort (cohortKey t)) tasks)))
           (computeCohortRevenue tasks)).
Proof.
  rewrite cohort_map.
  set (m := fold_left (groupStep (fun t => Some (cohortKey t)) addRevenue) tasks []).
  assert (Hnd : NoDup (map fst m)) by (apply groupStep_NoDup; constructor).
  assert (Hget := cohort_get tasks). fold m in Hget.
  assert (Hval : forall e, In e m -> snd e = sumOver revenue (filter (inCohort (fst e)) tasks)).
  { intros [k v] He. cbn [fst snd]. apply (In_map_get _ _ _ Hnd) in He.
    rewrite Hget in He. destruct (filter (inCohort k) tasks); [discriminate|].
    now injection He as <-. }
  assert (Hin : forall t, In t tasks -> In (cohortKey t) (map fst m)).
  { intros t Ht.
    destruct (map_get m (cohortKey t)) as [v|] eqn:E.
    - apply in_map_iff. exists (cohortKey t, v). split; [reflexivity | now apply map_get_In].
    - rewrite Hget in E.
      assert (Hf : In t (filter (inCohort (cohortKey t)) tasks))
        by (apply filter_In; split; [assumption | apply String.eqb_refl]).
      destruct (filter (inCohort (cohortKey t)) tasks); [contradiction | discriminate]. }
  assert (Hkeys : map fst m = firstOccurrences (map cohortKey tasks)).
  { unfold m. rewrite (groupStep_keys cohortKey addRevenue tasks []). cbn [map fst app existsb].
    cbn [negb]. clear. induction (firstOccurrences (map cohortKey tasks)) as [|k l IH];
      cbn [filter]; [reflexivity | now rewrite IH]. }
  assert (Hout : map (fun e => Cohort.mk (part (split_bar (fst e) EmptyString) 0)
                                  (part (split_bar (fst e) EmptyString) 1) (snd e)) m
                 = map (fun k => Cohort.mk (part (split_bar k EmptyString) 0)
                                   (part (split_bar k EmptyString) 1)
                                   (sumOver revenue (filter (inCohort k) tasks)))
                     (map fst m)).
  { rewrite map_map. apply map_ext_in. intros e He. now rewrite (Hval e He). }
  split.
  - now rewrite Hout, Hkeys.
  - intros t Ht Hp. rewrite Hout. apply in_map_iff. exists (cohortKey t). split.
    + destruct (cohortKey_parts t) as [E0 E1]. now rewrite E0, (E1 Hp).
    + now apply Hin.
Qed.

(** The revenues of the cohort entries add up to the revenue of all the
    tasks. *)
Lemma computeCohortRevenue_conserves (tasks : list Task) :
  sumOver Cohort.revenue (computeCohortRevenue tasks) = sumOver revenue tasks.
Proof.
  rewrite cohort_map, sumOver_map. cbn [Cohort.revenue].
  enough (G : forall m0,
             sumOver (fun e : string * num => snd e)
               (fold_left (groupStep (fun t => Some (cohortKey t)) addRevenue) tasks m0)
             = (sumOver (fun e : string * num => snd e) m0 + sumOver revenue tasks)%num).
  { rewrite (G []). apply nadd_zero_l. }
  induction tasks as [|t tasks IH]; intros m0; cbn [fold_left].
  - unfold sumOver at 3. cbn [fold_right]. now rewrite nadd_zero_r.
  - rewrite IH. unfold groupStep.
    rewrite (map_set_total (fun v : num => v) (revenue t)).
    + unfold sumOver at 4. cbn [fold_right]. fold (sumOver revenue tasks).
      now rewrite nadd_assoc.
    + unfold addRevenue. now destruct (map_get m0 (cohortKey t)).
Qed.

(** ** Completion stamps of the guarded hook *)

Lemma patched_stamped (t : Task) (patch : Patch) (now : Z) :
  stamped t = true -> stamped (UseTasksGuarded.patched t patch now) = true.
Proof.
  unfold stamped, isDone, isCompleted, UseTasksGuarded.patched, spread.
  cbn [status completedAt].
  destruct (String.eqb (status t) "Done") eqn:Et; cbn [negb andb orb].
  - intros H. rewrite H. apply orb_true_r.
  - intros _. destruct (p_status patch) as [st|]; cbn [nullish].
    + destruct (String.eqb st "Done"); reflexivity.
    + now rewrite Et.
Qed.

(** In the guarded copy of the hook a task that is done always carries
    its completion time: a task added as done is stamped, a task moved to
    done is stamped by the update, an update never removes a stamp, and
    deleting and undoing move tasks as they are. *)
Lemma guarded_done_tasks_are_stamped (s : UseTasks.State)
  (Hinv : completionsRecorded s = true) :
  (forall task uuid now, completionsRecorded (UseTasksGuarded.addTask task uuid now s) = true)
  /\ (forall i patch now,
         completionsRecorded (UseTasksGuarded.updateTask i patch now s) = true)
  /\ (forall i, completionsRecorded (UseTasks.deleteTask i s) = true)
  /\ completionsRecorded (UseTasks.undoDelete s) = true.
Proof.
  unfold completionsRecorded in Hinv. apply andb_prop in Hinv. destruct Hinv as [Ht Hd].
  pose proof (proj1 (forallb_forall _ _) Ht) as Hall.
  split; [|split; [|split]].
  - intros task uuid now. unfold completionsRecorded, UseTasksGuarded.addTask.
    cbn [UseTasks.tasks UseTasks.lastDeleted]. rewrite forallb_app, Ht, Hd. cbn [forallb andb].
    unfold stamped, isDone, isCompleted. cbn [status completedAt].
    now destruct (String.eqb (n_status task) "Done").
  - intros i patch now. unfold completionsRecorded, UseTasksGuarded.updateTask.
    cbn [UseTasks.tasks UseTasks.lastDeleted]. rewrite Hd, andb_true_r.
    apply forallb_forall. intros u Hu. apply in_map_iff in Hu. destruct Hu as (t & <- & Hin).
    destruct (hasId i t); [apply patched_stamped|]; now apply Hall.
  - intros i. unfold completionsRecorded, UseTasks.deleteTask.
    cbn [UseTasks.tasks UseTasks.lastDeleted]. apply andb_true_intro. split.
    + apply forallb_forall. intros u Hu. apply filter_In in Hu. now apply Hall.
    + destruct (find (hasId i) (UseTasks.tasks s)) as [t|] eqn:E; [|reflexivity].
      apply Hall. now apply (find_hasId i _ E).
  - unfold completionsRecorded, UseTasks.undoDelete.
    destruct (UseTasks.lastDeleted s) as [t|] eqn:E.
    + cbn [UseTasks.tasks UseTasks.lastDeleted]. rewrite forallb_app, Ht. cbn [forallb].
      now rewrite Hd.
    + now rewrite E, Ht.
Qed.

Lemma guarded_done_tasks_are_stamped_witness :
  (forall task uuid now,
      completionsRecorded (UseTasksGuarded.addTask task uuid now stampedTasks) = true)
  /\ (forall i patch now,
         completionsRecorded (UseTasksGuarded.updateTask i patch now stampedTasks) = true)
  /\ (forall i, completionsRecorded (UseTasks.deleteTask i stampedTasks) = true)
  /\ completionsRecorded (UseTasks.undoDelete stampedTasks) = true.
Proof. exact (guarded_done_tasks_are_stamped stampedTasks eq_refl). Defined.

(** ** Whole numbers out of quotients *)

Lemma qc_div_Z (a b : Z) :
  ((Q2Qc (inject_Z a) / Q2Qc (inject_Z b))%Qc : Q) == (inject_Z a / inject_Z b)%Q.
Proof.
  unfold Qcdiv, Qcmult, Qcinv. cbn [this Q2Qc].
  rewrite !Qred_correct. reflexivity.
Qed.

Lemma floor_ratio (a b : Z) :
  floorQc (Q2Qc (inject_Z a) / Q2Qc (inject_Z b))%Qc = (a / b)%Z.
Proof.
  unfold floorQc. rewrite (Qfloor_comp _ _ (qc_div_Z a b)). symmetry. apply Zdiv_Qdiv.
Qed.

Lemma ndiv_num_of_Z (a b : Z) :
  b <> 0%Z -> (num_of_Z a / num_of_Z b)%num = Fin (Q2Qc (inject_Z a) / Q2Qc (inject_Z b)).
Proof. intros Hb. unfold num_of_Z. apply ndiv_Fin. now apply qz_nonzero. Qed.

Lemma nsub_num_of_Z (a b : Z) : (num_of_Z a - num_of_Z b)%num = num_of_Z (a - b).
Proof.
  unfold num_of_Z. rewrite nsub_Fin. f_equal.
  unfold Z.sub. rewrite qz_add, qz_opp. reflexivity.
Qed.

Lemma nadd_num_of_Z (a b : Z) : (num_of_Z a + num_of_Z b)%num = num_of_Z (a + b).
Proof. unfold num_of_Z. rewrite nadd_Fin. f_equal. now rewrite qz_add. Qed.

Lemma half_Qc : Q2Qc (1 # 2) = (1 / Q2Qc (inject_Z 2))%Qc.
Proof. now apply Qc_is_canon. Qed.

Lemma Math_round_ratio (a b : Z) :
  b <> 0%Z ->
  Math_round (num_of_Z a / num_of_Z b)%num = num_of_Z ((2 * a + b) / (2 * b)).
Proof.
  intros Hb. rewrite (ndiv_num_of_Z a Hb). unfold Math_round. f_equal.
  rewrite <- floor_ratio. f_equal.
  rewrite half_Qc, qz_add, !qz_mul.
  pose proof (qz_nonzero Hb) as Hb'.
  assert (H2 : Q2Qc (inject_Z 2) <> 0%Qc) by now apply qz_nonzero.
  field. split; assumption.
Qed.

(** [daysBetween] rounds the distance to the nearest whole day, half a
    day upwards, and gives 0 when the end is not after the start: the
    result is [k] exactly when the distance is within half a day of [k]
    days. *)
Lemma daysBetween_nearest_day (a b : Z) :
  daysBetween a b = num_of_Z (Z.max 0 ((b - a + msPerDay / 2) / msPerDay))
  /\ ((b <= a)%Z -> daysBetween a b = zero)
  /\ (forall k, (0 <= k)%Z ->
        (k * msPerDay - msPerDay / 2 <= b - a < k * msPerDay + msPerDay / 2)%Z ->
        daysBetween a b = num_of_Z k).
Proof.
  assert (E : daysBetween a b = num_of_Z (Z.max 0 ((b - a + msPerDay / 2) / msPerDay))).
  { unfold daysBetween. rewrite nsub_num_of_Z, Math_round_ratio by discriminate.
    rewrite Math_max_zero_num_of_Z. do 2 f_equal.
    change (msPerDay / 2)%Z with 43200000%Z. change msPerDay with (2 * 43200000)%Z.
    replace (2 * (b - a) + 2 * 43200000)%Z with (2 * (b - a + 43200000))%Z by lia.
    now rewrite Z.div_mul_cancel_l by discriminate. }
  change (msPerDay / 2)%Z with 43200000%Z in *. change msPerDay with 86400000%Z in *.
  split; [exact E|]. split.
  - intros Hle. rewrite E. unfold zero. f_equal.
    assert ((b - a + 43200000) / 86400000 <= 0)%Z; [|lia].
    apply Z.lt_succ_r. apply Z.div_lt_upper_bound; lia.
  - intros k Hk Hd. rewrite E. f_equal.
    assert ((b - a + 43200000) / 86400000 = k)%Z; [|lia].
    symmetry. apply Z.div_unique with (r := (b - a + 43200000 - 86400000 * k)%Z); lia.
Qed.

Lemma Qccompare_ratio (a n k : Z) :
  (0 < n)%Z ->
  Qccompare (Q2Qc (inject_Z a) / Q2Qc (inject_Z n)) (Q2Qc (inject_Z k)) = Z.compare a (k * n).
Proof.
  intros Hn. unfold Qccompare.
  assert (Ek : (Q2Qc (inject_Z k) : Q) == inject_Z k) by apply Qred_correct.
  rewrite (qc_div_Z a n), Ek.
  assert (Hn' : (0 < inject_Z n)%Q) by (rewrite (Zlt_Qlt 0 n) in Hn; exact Hn).
  destruct (Z.compare_spec a (k * n)) as [E|L|G].
  - apply Qeq_alt. subst a. rewrite inject_Z_mult. field.
    intros H0. rewrite H0 in Hn'. now apply Qlt_irrefl in Hn'.
  - apply Qlt_alt. apply Qlt_shift_div_r; [exact Hn'|].
    rewrite <- inject_Z_mult. now rewrite <- Zlt_Qlt.
  - apply Qgt_alt. apply Qlt_shift_div_l; [exact Hn'|].
    rewrite <- inject_Z_mult. now rewrite <- Zlt_Qlt.
Qed.

Lemma filter_length_le {A : Type} (f : A -> bool) (l : list A) :
  (List.length (filter f l) <= List.length l)%nat.
Proof.
  induction l as [|x l IH]; cbn [filter List.length]; [lia|].
  destruct (f x); cbn [List.length]; lia.
Qed.

Lemma filter_length_all {A : Type} (f : A -> bool) (l : list A) :
  List.length (filter f l) = List.length l <-> forallb f l = true.
Proof.
  induction l as [|x l IH]; cbn [filter List.length forallb]; [tauto|].
  pose proof (filter_length_le f l) as Hle.
  destruct (f x); cbn [List.length andb].
  - rewrite <- IH. lia.
  - split; [lia | discriminate].
Qed.

Lemma percentage (d n : nat) :
  n <> 0%nat ->
  (num_of_nat d / num_of_nat n * num_of_Z 100)%num
  = Fin (Q2Qc (inject_Z (100 * Z.of_nat d)) / Q2Qc (inject_Z (Z.of_nat n))).
Proof.
  intros Hn. unfold num_of_nat. rewrite ndiv_num_of_Z by lia.
  unfold num_of_Z. rewrite nmul_Fin. f_equal. rewrite qz_mul.
  assert (Hq : Q2Qc (inject_Z (Z.of_nat n)) <> 0%Qc) by (apply qz_nonzero; lia).
  field. exact Hq.
Qed.

(** [computeTimeEfficiency] is a percentage: it lies between 0 and 100,
    it is 0 for the empty collection, and on a collection that is not
    empty it is 100 exactly when every task is done and 0 exactly when
    none is. *)
Lemma computeTimeEfficiency_percentage (tasks : list Task) :
  ngeb (computeTimeEfficiency tasks) zero = true
  /\ nleb (computeTimeEfficiency tasks) (num_of_Z 100) = true
  /\ computeTimeEfficiency [] = zero
  /\ (tasks <> [] ->
      (computeTimeEfficiency tasks = num_of_Z 100 <-> forallb isDone tasks = true)
      /\ (computeTimeEfficiency tasks = zero <-> filter isDone tasks = [])).
Proof.
  pose proof (filter_length_le isDone tasks) as Hle.
  destruct tasks as [|t l] eqn:Et.
  { split; [reflexivity|]. split; [reflexivity|]. split; [reflexivity|]. intros H0. now elim H0. }
  rewrite <- Et in *. assert (Hn : List.length tasks <> 0%nat) by (subst tasks; discriminate).
  assert (E : computeTimeEfficiency tasks
              = Fin (Q2Qc (inject_Z (100 * Z.of_nat (List.length (filter isDone tasks))))
                     / Q2Qc (inject_Z (Z.of_nat (List.length tasks))))).
  { unfold computeTimeEfficiency. destruct (Nat.eqb_spec (List.length tasks) 0); [contradiction|].
    now apply percentage. }
  assert (Hc : forall k,
             ncmp (computeTimeEfficiency tasks) (num_of_Z k)
             = Some (Z.compare (100 * Z.of_nat (List.length (filter isDone tasks)))
                       (k * Z.of_nat (List.length tasks)))).
  { intros k. rewrite E. unfold num_of_Z. cbn [ncmp]. f_equal. apply Qccompare_ratio. lia. }
  assert (Heq : forall k,
             computeTimeEfficiency tasks = num_of_Z k
             <-> (100 * Z.of_nat (List.length (filter isDone tasks))
                  = k * Z.of_nat (List.length tasks))%Z).
  { intros k. rewrite <- Z.compare_eq_iff. split.
    - intros H. specialize (Hc k). rewrite H, ncmp_num_of_Z, Z.compare_refl in Hc. congruence.
    - intros H. specialize (Hc k). rewrite H in Hc. rewrite E in *. unfold num_of_Z in *.
      cbn [ncmp] in Hc. f_equal. apply Qceq_alt. congruence. }
  split; [|split; [|split; [reflexivity|]]].
  - unfold ngeb, zero. rewrite Hc.
    destruct (Z.compare_spec (100 * Z.of_nat (List.length (filter isDone tasks)))
                (0 * Z.of_nat (List.length tasks))); try reflexivity. lia.
  - unfold nleb. rewrite Hc.
    destruct (Z.compare_spec (100 * Z.of_nat (List.length (filter isDone tasks)))
                (100 * Z.of_nat (List.length tasks))); try reflexivity. lia.
  - intros _. split.
    + rewrite (Heq 100%Z), <- filter_length_all. lia.
    + unfold zero. rewrite (Heq 0%Z). rewrite <- length_zero_iff_nil. lia.
Qed.

(** ** The funnel *)

Lemma funnel_counts (tasks : list Task) :
  (countStatus "Todo" tasks + countStatus "In Progress" tasks + countStatus "Done" tasks
   = List.length (filter inFunnel tasks))%nat.
Proof.
  unfold countStatus.
  induction tasks as [|t l IH]; [reflexivity|].
  cbn [filter]. unfold inFunnel at 1.
  destruct (String.eqb_spec (status t) "Todo") as [E1|N1];
    destruct (String.eqb_spec (status t) "In Progress") as [E2|N2];
    destruct (String.eqb_spec (status t) "Done") as [E3|N3];
    try (rewrite E1 in E2; discriminate E2);
    try (rewrite E1 in E3; discriminate E3);
    try (rewrite E2 in E3; discriminate E3);
    cbn [orb List.length]; lia.
Qed.

Lemma ratio_of_counts (a n : nat) :
  n <> 0%nat ->
  forall k, ncmp (num_of_nat a / num_of_nat n)%num (num_of_Z k)
            = Some (Z.compare (Z.of_nat a) (k * Z.of_nat n)).
Proof.
  intros Hn k. unfold num_of_nat. rewrite ndiv_num_of_Z by lia.
  unfold num_of_Z. cbn [ncmp]. f_equal. apply Qccompare_ratio. lia.
Qed.

(** The funnel counts the tasks of its three stages, each once, and no
    other task.  The first conversion rate is a proportion, between 0 and
    1.  The second is not: it exceeds 1 exactly when there are tasks in
    progress and more tasks done than in progress. *)
Lemma computeFunnel_counts_and_rates (tasks : list Task) :
  (todo (computeFunnel tasks) + inProgress (computeFunnel tasks) + done (computeFunnel tasks)
   = List.length (filter inFunnel tasks))%nat
  /\ (todo (computeFunnel tasks) + inProgress (computeFunnel tasks)
      + done (computeFunnel tasks) <= List.length tasks)%nat
  /\ ngeb (conversionTodoToInProgress (computeFunnel tasks)) zero = true
  /\ nleb (conversionTodoToInProgress (computeFunnel tasks)) one = true
  /\ (ngtb (conversionInProgressToDone (computeFunnel tasks)) one = true
      <-> (0 < inProgress (computeFunnel tasks) < done (computeFunnel tasks))%nat).
Proof.
  unfold computeFunnel.
  cbn [todo inProgress done conversionTodoToInProgress conversionInProgressToDone].
  set (a := countStatus "Todo" tasks). set (b := countStatus "In Progress" tasks).
  set (c := countStatus "Done" tasks).
  split; [apply funnel_counts|]. split.
  { unfold a, b, c. rewrite funnel_counts. apply filter_length_le. }
  split; [|split].
  - destruct (Nat.eqb_spec (a + b + c) 0) as [E|N]; [reflexivity|].
    unfold ngeb, zero. rewrite (ratio_of_counts (b + c) N).
    destruct (Z.compare_spec (Z.of_nat (b + c)) (0 * Z.of_nat (a + b + c)));
      try reflexivity; lia.
  - destruct (Nat.eqb_spec (a + b + c) 0) as [E|N]; [reflexivity|].
    unfold nleb, one. rewrite (ratio_of_counts (b + c) N).
    destruct (Z.compare_spec (Z.of_nat (b + c)) (1 * Z.of_nat (a + b + c)));
      try reflexivity; lia.
  - destruct (Nat.eqb_spec b 0) as [E|N].
    + split; [discriminate | lia].
    + unfold ngtb, one. rewrite (ratio_of_counts c N).
      destruct (Z.compare_spec (Z.of_nat c) (1 * Z.of_nat b)); split;
        try discriminate; try reflexivity; lia.
Qed.

(** ** The calendar *)

Open Scope Z_scope.

(** The day number of a date given by the parts [civil_from_days] works
    with: the era, the year of the era and the day of the year, which
    starts in March. *)
Lemma days_from_civil_parts (era yoe m d : Z) :
  0 <= yoe <= 399 -> 1 <= m <= 12 ->
  days_from_civil (yoe + era * 400 + (if m <=? 2 then 1 else 0)) m d
  = era * 146097
    + (yoe * 365 + yoe / 4 - yoe / 100
       + ((153 * (if 2 <? m then m - 3 else m + 9) + 2) / 5 + d - 1))
    - 719468.
Proof.
  intros Hy Hm. unfold days_from_civil. cbv zeta.
  replace (if m <=? 2
           then yoe + era * 400 + (if m <=? 2 then 1 else 0) - 1
           else yoe + era * 400 + (if m <=? 2 then 1 else 0))
    with (yoe + era * 400) by (destruct (m <=? 2); lia).
  rewrite Z.div_add by discriminate. rewrite (Z.div_small yoe 400) by lia.
  replace (yoe + era * 400 - (0 + era) * 400) with yoe by lia. lia.
Qed.

Lemma civil_parts (z : Z) :
  exists era yoe doy,
    0 <= yoe <= 399 /\ 0 <= doy <= 365
    /\ z = era * 146097 + (yoe * 365 + yoe / 4 - yoe / 100 + doy) - 719468
    /\ civil_from_days z
       = (yoe + era * 400
          + (if (if (5 * doy + 2) / 153 <? 10 then (5 * doy + 2) / 153 + 3
                 else (5 * doy + 2) / 153 - 9) <=? 2 then 1 else 0),
          if (5 * doy + 2) / 153 <? 10 then (5 * doy + 2) / 153 + 3
          else (5 * doy + 2) / 153 - 9,
          doy - (153 * ((5 * doy + 2) / 153) + 2) / 5 + 1).
Proof.
  set (era := (z + 719468) / 146097).
  set (doe := z + 719468 - era * 146097).
  set (yoe := (doe - doe / 1460 + doe / 36524 - doe / 146096) / 365).
  set (doy := doe - (365 * yoe + yoe / 4 - yoe / 100)).
  exists era, yoe, doy.
  assert (Hdoe : 0 <= doe <= 146096).
  { unfold doe, era. Z.div_mod_to_equations. lia. }
  assert (Hyoe : 0 <= yoe <= 399) by (unfold yoe; Z.div_mod_to_equations; lia).
  assert (Hdoy : 0 <= doy <= 365) by (unfold doy, yoe; Z.div_mod_to_equations; lia).
  split; [exact Hyoe|]. split; [exact Hdoy|]. split; [unfold doy, doe; lia | reflexivity].
Qed.

(** The first of January of the year after year [yoe] of an era. *)
Lemma newYearsDay_parts (era yoe : Z) :
  0 <= yoe <= 399 ->
  newYearsDay (yoe + era * 400 + 1)
  = era * 146097 + (yoe * 365 + yoe / 4 - yoe / 100 + 306) - 719468.
Proof.
  intros Hy. unfold newYearsDay.
  pose proof (@days_from_civil_parts era yoe 1 1 Hy ltac:(lia)) as E.
  change (if 1 <=? 2 then 1 else 0) with 1 in E.
  change ((153 * (if 2 <? 1 then 1 - 3 else 1 + 9) + 2) / 5 + 1 - 1) with 306 in E.
  exact E.
Qed.

Lemma calendar_facts (z : Z) :
  1 <= monthOfDay z <= 12
  /\ days_from_civil (yearOfDay z) (monthOfDay z) (dateOfDay z) = z
  /\ 0 <= dayOfYear z <= 365.
Proof.
  destruct (civil_parts z) as (era & yoe & doy & Hyoe & Hdoy & Hz & E).
  unfold dayOfYear, yearOfDay, monthOfDay, dateOfDay. rewrite E. cbn [fst snd].
  set (mp := (5 * doy + 2) / 153) in *.
  assert (Hmp : 0 <= mp <= 11) by (unfold mp; Z.div_mod_to_equations; lia).
  set (m := if mp <? 10 then mp + 3 else mp - 9).
  assert (Hm : 1 <= m <= 12) by (unfold m; destruct (Z.ltb_spec mp 10); lia).
  assert (Emp : (if 2 <? m then m - 3 else m + 9) = mp).
  { unfold m. destruct (Z.ltb_spec mp 10) as [L|G].
    - destruct (Z.ltb_spec 2 (mp + 3)); lia.
    - destruct (Z.ltb_spec 2 (mp - 9)); lia. }
  split; [exact Hm|]. split.
  - rewrite days_from_civil_parts by assumption. rewrite Emp. lia.
  - destruct (Z.leb_spec m 2) as [Hjf|Hmar].
    + (* January and February belong to the year that began the March before *)
      rewrite newYearsDay_parts by assumption.
      assert (10 <= mp) by (unfold m in Hjf; destruct (Z.ltb_spec mp 10); lia).
      unfold mp in *. Z.div_mod_to_equations. lia.
    + assert (mp < 10) by (unfold m in Hmar; destruct (Z.ltb_spec mp 10); lia).
      destruct (Z.eq_dec yoe 0) as [E0|N0].
      * (* the first year of an era: its first of January is in the era before *)
        replace (yoe + era * 400 + 0) with (399 + (era - 1) * 400 + 1) by lia.
        rewrite newYearsDay_parts by lia.
        change (399 / 4) with 99. change (399 / 100) with 3.
        rewrite E0 in Hz. change (0 / 4) with 0 in Hz. change (0 / 100) with 0 in Hz.
        unfold mp in *. Z.div_mod_to_equations. lia.
      * replace (yoe + era * 400 + 0) with (yoe - 1 + era * 400 + 1) by lia.
        rewrite newYearsDay_parts by lia.
        unfold mp in *. Z.div_mod_to_equations. lia.
Qed.

Close Scope Z_scope.

(** ** The week number *)

Open Scope Z_scope.

Lemma days_from_civil_date (y m d : Z) :
  days_from_civil y m 1 + d - 1 = days_from_civil y m d.
Proof. unfold days_from_civil. cbv zeta. lia. Qed.

Lemma MakeDay_of_day (z : Z) :
  MakeDay (yearOfDay z) (monthOfDay z - 1) (dateOfDay z) = z.
Proof.
  destruct (calendar_facts z) as (Hm & Hr & _).
  unfold MakeDay.
  rewrite (Z.div_small (monthOfDay z - 1) 12) by lia.
  rewrite (Z.mod_small (monthOfDay z - 1) 12) by lia.
  rewrite Z.add_0_r. replace (monthOfDay z - 1 + 1) with (monthOfDay z) by lia.
  now rewrite days_from_civil_date.
Qed.

Lemma MakeDay_date (y m d c : Z) : MakeDay y m (d + c) = MakeDay y m d + c.
Proof. unfold MakeDay. lia. Qed.

Lemma MakeDay_january (y : Z) : MakeDay y 0 1 = newYearsDay y.
Proof.
  unfold MakeDay, newYearsDay. change (0 / 12) with 0. change (0 mod 12 + 1) with 1.
  rewrite Z.add_0_r. lia.
Qed.

Lemma Day_midnight (n : Z) : Day (n * msPerDay) = n.
Proof. unfold Day. apply Z.div_mul. discriminate. Qed.

Lemma midnight_mod (n : Z) : (n * msPerDay) mod msPerDay = 0.
Proof. apply Z.mod_mul. discriminate. Qed.

(** [Date.UTC] of the year, month and date of an instant: the midnight
    that starts its day. *)
Lemma Date_UTC_of_day (d : Z) :
  Date_UTC (getUTCFullYear d) (getUTCMonth d) (getUTCDate d) = Day d * msPerDay.
Proof.
  unfold Date_UTC, getUTCFullYear, getUTCMonth, getUTCDate.
  change (MakeDay (yearOfDay (Day d)) (monthOfDay (Day d) - 1) (dateOfDay (Day d)) * msPerDay
          = Day d * msPerDay).
  now rewrite MakeDay_of_day.
Qed.

(** Moving a midnight to the Thursday of its week. *)
Lemma setUTCDate_thursday (n : Z) :
  setUTCDate (n * msPerDay)
    (getUTCDate (n * msPerDay) + 4
     - (if getUTCDay (n * msPerDay) =? 0 then 7 else getUTCDay (n * msPerDay)))
  = thursdayOf n * msPerDay.
Proof.
  unfold setUTCDate. rewrite midnight_mod, Z.add_0_r. f_equal.
  rewrite <- Z.add_sub_assoc, MakeDay_date.
  unfold getUTCFullYear, getUTCMonth, getUTCDate, getUTCDay. rewrite Day_midnight.
  change (MakeDay (yearOfDay n) (monthOfDay n - 1) (dateOfDay n)
          + (4 - (if (n + 4) mod 7 =? 0 then 7 else (n + 4) mod 7)) = thursdayOf n).
  rewrite MakeDay_of_day. unfold thursdayOf, mondayOf.
  destruct (Z.eqb_spec ((n + 4) mod 7) 0) as [E|N];
    Z.div_mod_to_equations; lia.
Qed.

Close Scope Z_scope.

Lemma ndiv_exact (a b : Z) : b <> 0%Z -> (num_of_Z (a * b) / num_of_Z b)%num = num_of_Z a.
Proof.
  intros Hb. rewrite ndiv_num_of_Z by assumption. unfold num_of_Z. f_equal.
  rewrite qz_mul. pose proof (qz_nonzero Hb) as Hq. field. exact Hq.
Qed.

Lemma Math_ceil_ratio (a b : Z) :
  b <> 0%Z -> Math_ceil (num_of_Z a / num_of_Z b)%num = num_of_Z (- ((- a) / b)).
Proof.
  intros Hb. rewrite ndiv_num_of_Z by assumption. unfold Math_ceil. do 2 f_equal.
  rewrite <- floor_ratio. f_equal. rewrite qz_opp.
  pose proof (qz_nonzero Hb) as Hq. field. exact Hq.
Qed.

Lemma getWeekNumber_isoWeek (d : Z) : getWeekNumber d = num_of_Z (isoWeek (Day d)).
Proof.
  unfold getWeekNumber. cbv zeta.
  rewrite Date_UTC_of_day, setUTCDate_thursday.
  unfold Date_UTC at 1, getUTCFullYear. rewrite Day_midnight, MakeDay_january.
  fold (yearOfDay (thursdayOf (Day d))).
  rewrite nsub_num_of_Z, <- Z.mul_sub_distr_r.
  change 86400000%Z with msPerDay. rewrite ndiv_exact by discriminate.
  unfold one. rewrite nadd_num_of_Z, Math_ceil_ratio by discriminate. f_equal.
  unfold isoWeek, dayOfYear.
  Z.div_mod_to_equations; lia.
Qed.

Lemma isoWeek_range (z : Z) : (1 <= isoWeek z <= 53)%Z.
Proof.
  unfold isoWeek. destruct (calendar_facts (thursdayOf z)) as (_ & _ & Hr).
  Z.div_mod_to_equations; lia.
Qed.

Lemma isoWeek_of_week (z z' : Z) : mondayOf z' = mondayOf z -> isoWeek z' = isoWeek z.
Proof. intros H. unfold isoWeek, thursdayOf. now rewrite H. Qed.

(** [getWeekNumber] gives the ISO 8601 week number: the rank of the
    Thursday of the week among the Thursdays of its calendar year.  It is
    one of 1 .. 53, it does not depend on the time of the day, and all the
    instants from a Monday to the following Sunday have the same. *)
Lemma getWeekNumber_iso_week (d : Z) (Hd : modelledInstant d) :
  getWeekNumber d = num_of_Z (isoWeek (Day d))
  /\ (1 <= isoWeek (Day d) <= 53)%Z
  /\ (forall d', modelledInstant d' -> mondayOf (Day d') = mondayOf (Day d) ->
        getWeekNumber d' = getWeekNumber d).
Proof.
  split; [apply getWeekNumber_isoWeek|]. split; [apply isoWeek_range|].
  intros d' _ Hw. rewrite !getWeekNumber_isoWeek. f_equal. now apply isoWeek_of_week.
Qed.

Lemma getWeekNumber_iso_week_witness :
  modelledInstant (Date_UTC 2021 0 1)
  /\ getWeekNumber (Date_UTC 2021 0 1) = num_of_Z 53.
Proof.
  assert (H : modelledInstant (Date_UTC 2021 0 1)) by (split; vm_compute; discriminate).
  exact (conj H (proj1 (getWeekNumber_iso_week H))).
Defined.

(** ** The guarded store and the ROI *)

Lemma positive_finite_hasROI (t : Task) :
  positiveTime t = true -> finiteTask t = true -> hasROI t = true.
Proof.
  unfold positiveTime, finiteTask, hasROI, computeROI, ngtb, nleb.
  intros Hp Hf. apply andb_prop in Hf. destruct Hf as [Hr Ht]. rewrite Hr, Ht. cbn [negb orb].
  destruct (ncmp (timeTaken t) zero) as [[| |]|]; try discriminate. reflexivity.
Qed.

Lemma filter_all {A : Type} (f : A -> bool) (l : list A) :
  (forall x, In x l -> f x = true) -> filter f l = l.
Proof.
  induction l as [|x l IH]; intros H; cbn [filter]; [reflexivity|].
  rewrite (H x) by now left. f_equal. apply IH. intros y Hy. apply H. now right.
Qed.

(** What the guard on the times buys.  In a state whose tasks have a time
    greater than zero, when revenues and times are finite, no task is left
    without an ROI: the ROI of each is its revenue over its time, the
    average ROI is the mean over all the tasks, and the display has no
    task with an undefined ROI. *)
Lemma positive_times_rate_every_task {C : Collator} (s : UseTasks.State)
  (Hpos : positiveTimes s = true)
  (Hfin : forallb finiteTask (UseTasks.tasks s) = true) :
  (forall t, In t (UseTasks.tasks s) ->
     computeROI (revenue t) (timeTaken t) = Some (revenue t / timeTaken t)%num)
  /\ computeAverageROI (UseTasks.tasks s)
     = (if Nat.eqb (List.length (UseTasks.tasks s)) 0 then zero
        else (sumOver (fun t => revenue t / timeTaken t) (UseTasks.tasks s)
              / num_of_nat (List.length (UseTasks.tasks s)))%num)
  /\ Forall (fun d => exists q, roi d = Some (Fin q)) (UseTasks.derivedSorted s).
Proof.
  unfold positiveTimes in Hpos. apply andb_prop in Hpos. destruct Hpos as [Hp _].
  assert (Hall : forall t, In t (UseTasks.tasks s) -> hasROI t = true).
  { intros t Ht. apply positive_finite_hasROI.
    - now apply (proj1 (forallb_forall _ _) Hp).
    - now apply (proj1 (forallb_forall _ _) Hfin). }
  split; [|split].
  - intros t Ht. apply hasROI_value. now apply Hall.
  - rewrite computeAverageROI_eq. now rewrite (filter_all _ _ Hall).
  - apply Forall_forall. intros d Hd.
    assert (Hin : In d (map withDerived (UseTasks.tasks s))).
    { eapply Permutation_in; [apply array_sort_perm | exact Hd]. }
    apply in_map_iff in Hin. destruct Hin as (t & <- & Ht).
    destruct (hasROI_value t (Hall t Ht)) as [E Hf].
    unfold withDerived. cbn [roi]. rewrite E.
    destruct (revenue t / timeTaken t)%num as [| | |q]; try discriminate. now exists q.
Qed.

Lemma positive_times_rate_every_task_witness :
  (forall t, In t (UseTasks.tasks twinTasks) ->
     computeROI (revenue t) (timeTaken t) = Some (revenue t / timeTaken t)%num)
  /\ computeAverageROI (UseTasks.tasks twinTasks)
     = (if Nat.eqb (List.length (UseTasks.tasks twinTasks)) 0 then zero
        else (sumOver (fun t => revenue t / timeTaken t) (UseTasks.tasks twinTasks)
              / num_of_nat (List.length (UseTasks.tasks twinTasks)))%num)
  /\ Forall (fun d => exists q, roi d = Some (Fin q))
       (@UseTasks.derivedSorted codeUnitCollator twinTasks).
Proof. exact (@positive_times_rate_every_task codeUnitCollator twinTasks eq_refl eq_refl). Defined.

(** ** The forecast of a linear series *)

Section LinearSeries.
Variables a b : Qc.

Lemma linear_sums (pts : list (Qc * Qc)) :
  (forall p, In p pts -> snd p = (a + b * fst p)%Qc) ->
  sumY pts = (qn (List.length pts) * a + b * sumX pts)%Qc
  /\ sumXY pts = (a * sumX pts + b * sumXX pts)%Qc.
Proof.
  unfold sumY, sumXY, sumX, sumXX, sumQc.
  induction pts as [|[x y] l IH]; intros H; cbn [map fold_right List.length fst snd].
  - change (qn 0) with 0%Qc. split; ring.
  - destruct IH as [IH1 IH2]; [intros p Hp; apply H; now right|].
    pose proof (H (x, y) (or_introl eq_refl)) as Hxy. cbn [fst snd] in Hxy.
    rewrite IH1, IH2, qn_S, Hxy. split; ring.
Qed.

Lemma linear_points (n : nat) (p : Qc * Qc) :
  In p (pointsOf (map (fun i => a + b * qn i)%Qc (seq 0 n))) -> snd p = (a + b * fst p)%Qc.
Proof.
  unfold pointsOf. rewrite length_map, length_seq.
  generalize (seq 0 n). intros l. induction l as [|i l IH]; cbn [map combine]; [contradiction|].
  intros [<-|Hp]; [reflexivity | now apply IH].
Qed.

Lemma ols_linear (n : nat) :
  (2 <= n)%nat ->
  olsSlope (pointsOf (map (fun i => a + b * qn i)%Qc (seq 0 n))) = b
  /\ olsIntercept (pointsOf (map (fun i => a + b * qn i)%Qc (seq 0 n))) = a.
Proof.
  intros Hn.
  set (ys := map (fun i => a + b * qn i)%Qc (seq 0 n)).
  assert (Hlen : List.length ys = n) by (unfold ys; now rewrite length_map, length_seq).
  destruct (linear_sums (pointsOf ys) (linear_points n)) as [EY EXY].
  assert (Hq : qn (List.length (pointsOf ys)) <> 0%Qc)
    by (rewrite pointsOf_length, Hlen; apply qn_nonzero; lia).
  assert (Hd : (qn (List.length (pointsOf ys)) * sumXX (pointsOf ys)
                - sumX (pointsOf ys) * sumX (pointsOf ys))%Qc <> 0%Qc).
  { rewrite pointsOf_length, pointsOf_sumXX. unfold sumX. rewrite pointsOf_fst, Hlen.
    now apply indices_denominator_nonzero. }
  assert (Es : olsSlope (pointsOf ys) = b).
  { unfold olsSlope. cbv zeta. rewrite EY, EXY. field. exact Hd. }
  split; [exact Es|].
  unfold olsIntercept. rewrite Es, EY. field. exact Hq.
Qed.

End LinearSeries.

(** A history that grows by the same amount every week is continued
    exactly: when the revenues are [a + b * i] at the indices [i] of two
    weeks or more, the forecast is [max(0, a + b * x)] at the indices that
    follow. *)
Lemma computeForecast_linear_series (weekly : list Weekly) (a b : Qc) (horizonWeeks : nat)
  (Hn : (2 <= List.length weekly)%nat)
  (Hlinear : map weekRevenue weekly
             = map (fun i => Fin (a + b * qn i)) (seq 0 (List.length weekly))) :
  map weekRevenue (computeForecast weekly horizonWeeks)
  = map (fun i => Math_max zero (Fin (a + b * qn (List.length weekly + i))))
      (seq 0 horizonWeeks).
Proof.
  set (n := List.length weekly) in *.
  set (ys := map (fun i => a + b * qn i)%Qc (seq 0 n)).
  assert (Hy : map weekRevenue weekly = map Fin ys)
    by (unfold ys; now rewrite map_map).
  assert (Hlen : List.length ys = n) by (unfold ys; now rewrite length_map, length_seq).
  rewrite (computeForecast_finite weekly ys horizonWeeks Hy) by lia.
  destruct (ols_linear a b Hn) as [Es Ei]. fold ys in Es, Ei.
  rewrite Es, Ei, Hlen. apply map_ext. intros i. do 2 f_equal. ring.
Qed.

Lemma computeForecast_linear_series_witness :
  map weekRevenue (computeForecast twoWeeks 3)
  = map (fun i => Math_max zero
                    (Fin (Q2Qc (inject_Z 10)
                          + Q2Qc (inject_Z 10) * qn (List.length twoWeeks + i))))
      (seq 0 3).
Proof.
  apply (@computeForecast_linear_series twoWeeks (Q2Qc (inject_Z 10)) (Q2Qc (inject_Z 10)) 3).
  - cbn [twoWeeks List.length]. lia.
  - apply nums_eqb_eq. reflexivity.
Defined.

(** * The engine within the range of binary64 *)

(** ** Order on exact numbers, through [Q] *)

Lemma this_add (a b : Qc) : (this (a + b)%Qc == this a + this b)%Q.
Proof. unfold Qcplus. cbn [this Q2Qc]. apply Qred_correct. Qed.

Lemma this_opp (a : Qc) : (this (- a)%Qc == - this a)%Q.
Proof. unfold Qcopp. cbn [this Q2Qc]. apply Qred_correct. Qed.

Lemma this_mul (a b : Qc) : (this (a * b)%Qc == this a * this b)%Q.
Proof. unfold Qcmult. cbn [this Q2Qc]. apply Qred_correct. Qed.

Lemma this_qz (z : Z) : (this (Q2Qc (inject_Z z)) == inject_Z z)%Q.
Proof. cbn [this Q2Qc]. apply Qred_correct. Qed.

Ltac qc_to_q :=
  unfold Qcle, Qclt, Qcminus in *;
  repeat first [ rewrite this_add in * | rewrite this_opp in * | rewrite this_mul in *
               | rewrite this_qz in * ];
  change (this 0%Qc) with 0%Q in *; change (this 1%Qc) with 1%Q in *.

Ltac qc_lra := qc_to_q; lra.

Lemma Qccompare_Lt_elim (a b : Qc) : Qccompare a b = Lt -> (a < b)%Qc.
Proof. apply Qclt_alt. Qed.

Lemma Qccompare_Lt_intro (a b : Qc) : (a < b)%Qc -> Qccompare a b = Lt.
Proof. apply Qclt_alt. Qed.

Lemma Qccompare_Gt_elim (a b : Qc) : Qccompare a b = Gt -> (b < a)%Qc.
Proof. apply Qcgt_alt. Qed.

Lemma Qccompare_Gt_intro (a b : Qc) : (b < a)%Qc -> Qccompare a b = Gt.
Proof. apply Qcgt_alt. Qed.

(** ** [ranged] *)

Lemma threshold_pos : (0 < Binary64.threshold)%Qc.
Proof. apply Qccompare_Lt_elim. now vm_compute. Qed.

Lemma ranged_inside (q : Qc) :
  (- Binary64.threshold < q)%Qc -> (q < Binary64.threshold)%Qc ->
  Binary64.ranged (Fin q) = Fin q.
Proof.
  intros Hl Hu. unfold Binary64.ranged.
  now rewrite (Qccompare_Lt_intro Hu), (Qccompare_Lt_intro Hl).
Qed.

(** An infinity stands for a number of its own sign, and [ranged] makes
    no NaN. *)
Lemma ranged_sign (x : num) : ncmp (Binary64.ranged x) zero = ncmp x zero.
Proof.
  destruct x as [| | |q]; try reflexivity. unfold Binary64.ranged.
  pose proof threshold_pos as Hp.
  assert (Hz : forall c, Qccompare q 0 = c -> Some c = ncmp (Fin q) zero) by (now intros c <-).
  destruct (Qccompare q Binary64.threshold) eqn:E1.
  - apply Qceq_alt in E1. apply Hz, Qccompare_Gt_intro. rewrite E1. exact Hp.
  - destruct (Qccompare (- Binary64.threshold) q) eqn:E2; [| reflexivity |].
    + apply Qceq_alt in E2. apply Hz, Qccompare_Lt_intro. rewrite <- E2. qc_lra.
    + apply Qccompare_Gt_elim in E2. apply Hz, Qccompare_Lt_intro. qc_lra.
  - apply Qccompare_Gt_elim in E1. apply Hz, Qccompare_Gt_intro. qc_lra.
Qed.

Lemma ranged_isNaN (x : num) : isNaN (Binary64.ranged x) = isNaN x.
Proof.
  destruct x as [| | |q]; try reflexivity. unfold Binary64.ranged.
  destruct (Qccompare q Binary64.threshold); try reflexivity.
  now destruct (Qccompare (- Binary64.threshold) q).
Qed.

Lemma ranged_ngtb (x : num) : ngtb (Binary64.ranged x) zero = ngtb x zero.
Proof. unfold ngtb. now rewrite ranged_sign. Qed.

(** ** [computeROI] *)

Lemma b64_computeROI_cases (r t : num) :
  ((isFinite r = false \/ isFinite t = false \/ nleb t zero = true)
   /\ Binary64.computeROI r t = None)
  \/ (exists a b, r = Fin a /\ t = Fin b /\ (0 < b)%Qc
                  /\ Binary64.computeROI r t = Some (Binary64.ranged (Fin (a / b)))).
Proof.
  unfold Binary64.computeROI.
  destruct r as [| | |a]; simpl; try (left; split; [now left | reflexivity]).
  destruct t as [| | |b]; simpl; try (left; split; [right; now left | reflexivity]).
  destruct (nleb (Fin b) zero) eqn:E; simpl.
  - left. split; [right; now right | reflexivity].
  - right. exists a, b. apply nleb_zero_Fin in E. repeat split; auto.
    unfold Binary64.div. rewrite ndiv_Fin; [reflexivity|].
    intros ->. now apply (Qclt_not_eq _ _ E).
Qed.

(** [computeROI] guards its arguments, not its quotient: the result is
    never NaN, and it is an infinity when the quotient leaves the range. *)
Lemma b64_computeROI_not_NaN (r t v : num) :
  Binary64.computeROI r t = Some v -> isNaN v = false.
Proof.
  destruct (b64_computeROI_cases r t) as [[_ E]|(a & b & _ & _ & _ & E)];
    rewrite E; [discriminate|].
  intros H. injection H as H. rewrite <- H. apply (ranged_isNaN (Fin (a / b))).
Qed.

(** C4.  [computeROI] is [null] exactly when the revenue is not finite,
    the time is not finite or the time is not positive, and a result that
    is not [null] is the quotient, never NaN; but the quotient of two
    finite numbers can leave the range.  [computeROI(2**1023, 0.25)]: both
    arguments are finite and the time is positive, so the guard lets them
    through; the quotient, 2^1025, is beyond the range, and the function
    returns [Infinity], which the comment above it (lines 269-275) says it
    prevents. *)
Theorem computeROI_quotient_overflows :
  (forall r t,
      Binary64.computeROI r t = None <->
      isFinite r = false \/ isFinite t = false \/ nleb t zero = true)
  /\ (forall r t v,
         Binary64.computeROI r t = Some v -> v = Binary64.div r t /\ isNaN v = false)
  /\ isFinite (num_of_Z (2 ^ 1023)) = true
  /\ isFinite (Fin (Q2Qc (1 # 4))) = true
  /\ ngtb (Fin (Q2Qc (1 # 4))) zero = true
  /\ Binary64.computeROI (num_of_Z (2 ^ 1023)) (Fin (Q2Qc (1 # 4))) = Some PInf
  /\ isFinite PInf = false.
Proof.
  split; [|split; [|repeat split; now vm_compute]].
  - intros r t.
    destruct (b64_computeROI_cases r t) as [[Hc E]|(a & b & -> & -> & Hb & E)]; rewrite E.
    + split; auto.
    + split; [discriminate|]. intros [H|[H|H]]; try discriminate H.
      apply nleb_zero_Fin in Hb. congruence.
  - intros r t v Hv. split; [|exact (b64_computeROI_not_NaN _ _ Hv)].
    unfold Binary64.computeROI in Hv.
    destruct (negb (isFinite r) || negb (isFinite t) || nleb t zero); [discriminate|].
    now injection Hv as <-.
Qed.

(** ** [withDerived] and the display order *)

(** The ROI that [withDerived] attaches is absent or a number other than
    NaN, so every derived record is one of the data model; the number can
    be an infinity: the ROI of [hugeDeal] is. *)
Lemma withDerived_roi_never_NaN (t : Task) :
  validROI (Binary64.withDerived t) = true
  /\ (roi (Binary64.withDerived t) = None
      \/ exists v, roi (Binary64.withDerived t) = Some v /\ isNaN v = false)
  /\ roi (Binary64.withDerived hugeDeal) = Some PInf.
Proof.
  assert (H : roi (Binary64.withDerived t) = None
              \/ exists v, roi (Binary64.withDerived t) = Some v /\ isNaN v = false).
  { unfold Binary64.withDerived. cbn [roi].
    destruct (Binary64.computeROI (revenue t) (timeTaken t)) as [v|] eqn:E; [|now left].
    right. exists v. split; [reflexivity|]. now apply (b64_computeROI_not_NaN _ _ E). }
  split; [|split; [exact H | now vm_compute]].
  unfold validROI, roiKey. destruct H as [->|(v & -> & Hv)]; [reflexivity|].
  cbn [nullish]. now rewrite Hv.
Qed.

Lemma b64_forallb_validROI (ts : list Task) :
  forallb validROI (map Binary64.withDerived ts) = true.
Proof.
  apply forallb_forall. intros d Hd. apply in_map_iff in Hd.
  destruct Hd as (t & <- & _).
  unfold validROI, roiKey, Binary64.withDerived. cbn [roi].
  destruct (Binary64.computeROI (revenue t) (timeTaken t)) as [v|] eqn:E; [|reflexivity].
  cbn [nullish]. now rewrite (b64_computeROI_not_NaN _ _ E).
Qed.

(** Two comparators with the same sign sort alike. *)
Lemma array_sort_same_sign {A : Type} (c c' : A -> A -> num) (l : list A) :
  (forall x y, ngtb (c x y) zero = ngtb (c' x y) zero) ->
  array_sort c l = array_sort c' l.
Proof.
  intros H. induction l as [|x l IH]; cbn [array_sort]; [reflexivity|].
  rewrite IH. generalize (array_sort c' l). intros m.
  induction m as [|y m IHm]; cbn [sort_insert]; [reflexivity|].
  rewrite H, IHm. reflexivity.
Qed.

(** The subtraction of the comparator may overflow, to an infinity of the
    sign of the difference: the order is that of the exact comparator. *)
Lemma b64_sortTasks {C : Collator} (l : list DerivedTask) :
  Binary64.sortTasks l = sortTasks l.
Proof.
  unfold Binary64.sortTasks, sortTasks. apply array_sort_same_sign.
  intros a b. unfold Binary64.compareTasks, compareTasks. cbv zeta.
  destruct (strict_neqb (roiKey b) (roiKey a)); [|reflexivity].
  unfold Binary64.sub. apply ranged_ngtb.
Qed.

(** In the displayed list the tasks whose ROI is undefined come after
    every task whose ROI is above [-Infinity].  A task whose quotient
    overflowed to [-Infinity] has the key of the undefined ones,
    [roi ?? -Infinity], and is ranked among them. *)
Lemma derivedSorted_undefined_roi_last {C : Collator} (tasks : list Task) :
  exists rated rest,
    Binary64.derivedSorted tasks = rated ++ rest
    /\ Forall (fun d => exists v, roi d = Some v /\ ncmp v NInf = Some Gt) rated
    /\ Forall (fun d => roi d = None \/ roi d = Some NInf) rest.
Proof.
  set (P := fun d : DerivedTask => negb (strict_eqb (roiKey d) NInf)).
  assert (Hvalid := b64_forallb_validROI tasks).
  assert (Hnn : forall d, In d (Binary64.derivedSorted tasks) -> isNaN (roiKey d) = false).
  { intros d Hd. unfold Binary64.derivedSorted in Hd. rewrite b64_sortTasks in Hd.
    apply (Permutation_in _ (array_sort_perm _ _)) in Hd.
    apply (proj1 (forallb_forall _ _) Hvalid) in Hd. unfold validROI in Hd.
    now destruct (isNaN (roiKey d)). }
  exists (filter P (Binary64.derivedSorted tasks)),
         (filter (fun d => negb (P d)) (Binary64.derivedSorted tasks)).
  split; [|split].
  - apply StronglySorted_split with (R := rankedBefore).
    + unfold Binary64.derivedSorted. rewrite b64_sortTasks.
      now apply sortTasks_StronglySorted.
    + intros a b Ha Hb Hab Hpa. unfold P in *.
      apply negb_false_iff in Hpa. apply strict_eqb_true in Hpa.
      apply negb_false_iff. specialize (Hnn b Hb).
      unfold rankedBefore in Hab. rewrite Hpa in Hab.
      destruct Hab as [H|[[H _]|[H _]]].
      * destruct (roiKey b); discriminate.
      * rewrite <- H. reflexivity.
      * rewrite <- H. reflexivity.
  - apply Forall_forall. intros d Hd. apply filter_In in Hd. destruct Hd as [Hd Hp].
    unfold P, roiKey in Hp. specialize (Hnn d Hd). unfold roiKey in Hnn.
    destruct (roi d) as [v|]; [|discriminate]. cbn [nullish] in *.
    exists v. split; [reflexivity|]. destruct v; try discriminate; reflexivity.
  - apply Forall_forall. intros d Hd. apply filter_In in Hd. destruct Hd as [_ Hp].
    unfold P, roiKey in Hp. apply negb_true_iff, negb_false_iff in Hp.
    destruct (roi d) as [v|]; [|now left]. cbn [nullish] in Hp.
    right. f_equal. now apply strict_eqb_true in Hp.
Qed.

(** ** Bounds *)

Lemma this_div (a b : Qc) : (this (a / b)%Qc == this a / this b)%Q.
Proof.
  unfold Qcdiv, Qcmult, Qcinv. cbn [this Q2Qc]. rewrite !Qred_correct. reflexivity.
Qed.

Lemma qleb_le (a b : Qc) : qleb a b = true -> (a <= b)%Qc.
Proof.
  unfold qleb. intros H. apply Qcle_alt. intros E. now rewrite E in H.
Qed.

Lemma safe_pos : (0 < safe)%Qc.
Proof. apply Qccompare_Lt_elim. now vm_compute. Qed.

Lemma safe_threshold : (safe < Binary64.threshold)%Qc.
Proof. apply Qccompare_Lt_elim. now vm_compute. Qed.

Lemma magnitude_nonneg (x : num) : (0 <= magnitude x)%Qc.
Proof.
  destruct x as [| | |q]; cbn [magnitude]; try apply Qcle_refl.
  destruct (Qccompare q 0) eqn:E.
  - apply Qceq_alt in E. subst. apply Qcle_refl.
  - apply Qccompare_Lt_elim in E. qc_lra.
  - apply Qccompare_Gt_elim in E. qc_lra.
Qed.

Lemma bounded_magnitude (x : num) : isFinite x = true -> bounded (magnitude x) x.
Proof.
  destruct x as [| | |q]; try discriminate. intros _. exists q. split; [reflexivity|].
  cbn [magnitude]. destruct (Qccompare q 0) eqn:E.
  - apply Qceq_alt in E. subst. split; qc_lra.
  - apply Qccompare_Lt_elim in E. split; qc_lra.
  - apply Qccompare_Gt_elim in E. split; qc_lra.
Qed.

Lemma bounded_finite (B : Qc) (x : num) : bounded B x -> isFinite x = true.
Proof. now intros (q & -> & _). Qed.

Lemma bounded_weaken (A B : Qc) (x : num) : (A <= B)%Qc -> bounded A x -> bounded B x.
Proof. intros H (q & -> & Hl & Hu). exists q. split; [reflexivity|]. split; qc_lra. Qed.

Lemma bounded_zero : bounded 0 zero.
Proof. exists 0%Qc. split; [reflexivity|]. split; qc_lra. Qed.

Lemma ranged_bounded (B : Qc) (x : num) :
  (B < Binary64.threshold)%Qc -> bounded B x -> Binary64.ranged x = x.
Proof.
  intros HB (q & -> & Hl & Hu). apply ranged_inside; qc_lra.
Qed.

Lemma add_bounded (A B : Qc) (x y : num) :
  bounded A x -> bounded B y -> (A + B < Binary64.threshold)%Qc ->
  bounded (A + B) (Binary64.add x y).
Proof.
  intros (a & -> & Hal & Hau) (b & -> & Hbl & Hbu) H.
  assert (Hs : bounded (A + B) (Fin a + Fin b)%num).
  { exists (a + b)%Qc. split; [reflexivity|]. split; qc_lra. }
  unfold Binary64.add. now rewrite (ranged_bounded H Hs).
Qed.

(** Dividing by a number that is at least 1 does not leave the bound. *)
Lemma div_bounded (A : Qc) (x y : num) (b : Qc) :
  bounded A x -> y = Fin b -> (1 <= b)%Qc -> (A < Binary64.threshold)%Qc ->
  bounded A (Binary64.div x y).
Proof.
  intros (a & -> & Hal & Hau) -> Hb HA.
  assert (Hb0 : b <> 0%Qc) by (intros ->; qc_lra).
  assert (Hs : bounded A (Fin a / Fin b)%num).
  { rewrite (ndiv_Fin _ Hb0). exists (a / b)%Qc. split; [reflexivity|].
    unfold Qcle in *. rewrite this_div. rewrite this_opp in *.
    change (this 1%Qc) with 1%Q in Hb.
    assert (HA0 : (0 <= this A)%Q) by lra.
    assert (Hbp : (0 < this b)%Q) by lra.
    split.
    - apply Qle_shift_div_l; [exact Hbp|]. nra.
    - apply Qle_shift_div_r; [exact Hbp|]. nra. }
  unfold Binary64.div. now rewrite (ranged_bounded HA Hs).
Qed.

Lemma sumQc_nonneg {A : Type} (m : A -> Qc) (l : list A) :
  (forall x, (0 <= m x)%Qc) -> (0 <= sumQc (map m l))%Qc.
Proof.
  intros H. unfold sumQc. induction l as [|x l IH]; cbn [map fold_right].
  - apply Qcle_refl.
  - specialize (H x). qc_lra.
Qed.

Lemma sumQc_filter_le {A : Type} (m : A -> Qc) (f : A -> bool) (l : list A) :
  (forall x, (0 <= m x)%Qc) -> (sumQc (map m (filter f l)) <= sumQc (map m l))%Qc.
Proof.
  intros H. unfold sumQc. induction l as [|x l IH]; cbn [filter map fold_right].
  - apply Qcle_refl.
  - specialize (H x). destruct (f x); cbn [map fold_right]; qc_lra.
Qed.

(** A running sum whose terms are bounded stays within the sum of the
    bounds. *)
Lemma sum_bounded {A : Type} (f : A -> num) (m : A -> Qc) (l : list A) :
  forall (acc : num) (A0 : Qc),
    bounded A0 acc ->
    (forall x, In x l -> bounded (m x) (f x)) ->
    (A0 + sumQc (map m l) <= safe)%Qc ->
    bounded (A0 + sumQc (map m l))
      (fold_left (fun s x => Binary64.add s (f x)) l acc).
Proof.
  pose proof safe_threshold as Hst.
  induction l as [|x l IH]; intros acc A0 Hacc Hf Hsum; cbn [fold_left map].
  - unfold sumQc. cbn [fold_right]. apply (bounded_weaken (A := A0)); [qc_lra | exact Hacc].
  - unfold sumQc in *. cbn [map fold_right] in *.
    assert (Hm : forall y, In y l -> (0 <= m y)%Qc).
    { intros y Hy. destruct (Hf y (or_intror Hy)) as (q & _ & Hl & Hu). qc_lra. }
    assert (Hrest : (0 <= fold_right Qcplus 0%Qc (map m l))%Qc).
    { clear - Hm. induction l as [|y l IH]; cbn [map fold_right]; [apply Qcle_refl|].
      assert (H1 := Hm y (or_introl eq_refl)).
      assert (H2 := IH (fun z Hz => Hm z (or_intror Hz))). qc_lra. }
    assert (Hstep : bounded (A0 + m x) (Binary64.add acc (f x))).
    { apply add_bounded; [exact Hacc | apply Hf; now left | qc_lra]. }
    apply (bounded_weaken (A := A0 + m x + fold_right Qcplus 0%Qc (map m l))); [qc_lra|].
    apply (IH _ _ Hstep); [intros y Hy; apply Hf; now right | qc_lra].
Qed.

(** ** Sums inside the range *)

Lemma isFinite_Fin (x : num) : isFinite x = true -> exists q, x = Fin q.
Proof. destruct x; try discriminate; eauto. Qed.

Lemma finite_list (l : list num) :
  (forall x, In x l -> isFinite x = true) -> exists qs, l = map Fin qs.
Proof.
  induction l as [|x l IH]; intros H.
  - now exists [].
  - destruct (isFinite_Fin x) as [q ->]; [apply H; now left|].
    destruct IH as [qs ->]; [intros y Hy; apply H; now right|].
    now exists (q :: qs).
Qed.

Lemma fold_left_invariant {A B : Type} (f : B -> A -> B) (Inv : B -> Prop) (l : list A) :
  forall init,
    (forall acc x, In x l -> Inv acc -> Inv (f acc x)) -> Inv init -> Inv (fold_left f l init).
Proof.
  induction l as [|x l IH]; intros init Hstep Hinit; simpl; [assumption|].
  apply IH.
  - intros acc y Hy. apply Hstep. now right.
  - apply Hstep; [now left | assumption].
Qed.

Lemma map_get_Forall {V : Type} (P : V -> Prop) (m : list (string * V)) (k : string) (v : V) :
  Forall (fun e => P (snd e)) m -> map_get m k = Some v -> P v.
Proof.
  induction 1 as [|[k' v'] m Hv Hm IH]; simpl; [discriminate|].
  destruct (String.eqb k' k); [intros [= <-]; exact Hv | exact IH].
Qed.

Lemma map_set_Forall {V : Type} (P : V -> Prop) (m : list (string * V)) (k : string) (v : V) :
  Forall (fun e => P (snd e)) m -> P v -> Forall (fun e => P (snd e)) (map_set m k v).
Proof.
  intros Hm Hv. induction Hm as [|[k' v'] m Hv' Hm IH]; simpl.
  - now repeat constructor.
  - destruct (String.eqb k' k); constructor; auto.
Qed.

Lemma modest_facts (tasks : list Task) :
  modest tasks = true ->
  (forall t, In t tasks -> isFinite (revenue t) = true /\ isFinite (timeTaken t) = true)
  /\ (sumQc (map (fun t => magnitude (revenue t)) tasks) <= safe)%Qc
  /\ (sumQc (map (fun t => magnitude (timeTaken t)) tasks) <= safe)%Qc.
Proof.
  unfold modest. intros H.
  apply andb_prop in H. destruct H as [H Ht]. apply andb_prop in H. destruct H as [Hf Hr].
  split; [|split; now apply qleb_le].
  intros t Hin. apply (proj1 (forallb_forall _ _) Hf) in Hin.
  unfold finiteTask in Hin. now apply andb_prop in Hin.
Qed.

Lemma b64_computeTotalTimeTaken_bounded (tasks : list Task) :
  modest tasks = true -> bounded safe (Binary64.computeTotalTimeTaken tasks).
Proof.
  intros H. destruct (modest_facts tasks H) as (Hf & _ & Ht).
  unfold Binary64.computeTotalTimeTaken.
  apply (bounded_weaken (A := 0 + sumQc (map (fun t => magnitude (timeTaken t)) tasks)));
    [qc_lra|].
  apply (sum_bounded timeTaken (fun t => magnitude (timeTaken t))).
  - apply bounded_zero.
  - intros t Hin. apply bounded_magnitude. now apply Hf.
  - qc_lra.
Qed.

Lemma b64_computeTotalRevenue_bounded (tasks : list Task) :
  modest tasks = true -> bounded safe (Binary64.computeTotalRevenue tasks).
Proof.
  intros H. destruct (modest_facts tasks H) as (Hf & Hr & _).
  unfold Binary64.computeTotalRevenue.
  pose proof (sumQc_filter_le (fun t => magnitude (revenue t)) isDone tasks
                (fun t => magnitude_nonneg (revenue t))) as Hle.
  apply (bounded_weaken
           (A := 0 + sumQc (map (fun t => magnitude (revenue t)) (filter isDone tasks))));
    [qc_lra|].
  apply (sum_bounded revenue (fun t => magnitude (revenue t))).
  - apply bounded_zero.
  - intros t Hin. apply filter_In in Hin. apply bounded_magnitude. now apply Hf.
  - qc_lra.
Qed.

(** A factor of magnitude 1 at most keeps a product within the bound. *)
Lemma mul_bounded (A : Qc) (x w : num) :
  bounded A x -> bounded 1 w -> (A < Binary64.threshold)%Qc ->
  bounded A (Binary64.mul x w).
Proof.
  intros (a & -> & Hal & Hau) (b & -> & Hbl & Hbu) HA.
  assert (Hs : bounded A (Fin a * Fin b)%num).
  { exists (a * b)%Qc. split; [reflexivity|]. qc_to_q. split; nra. }
  unfold Binary64.mul. now rewrite (ranged_bounded HA Hs).
Qed.

Lemma weight_bounded (s : string) :
  inherited s = false -> bounded 1 (nullish (weights s) zero).
Proof.
  intros H. unfold weights. rewrite H.
  destruct (String.eqb s "Todo");
    [exists (Q2Qc (1 # 10)); split; [reflexivity|]; split; apply Qcle_alt; now vm_compute|].
  destruct (String.eqb s "In Progress");
    [exists (Q2Qc (1 # 2)); split; [reflexivity|]; split; apply Qcle_alt; now vm_compute|].
  destruct (String.eqb s "Done");
    [exists (Q2Qc (inject_Z 1)); split; [reflexivity|]; split; apply Qcle_alt; now vm_compute|].
  exists (Q2Qc (inject_Z 0)). split; [reflexivity|]. split; apply Qcle_alt; now vm_compute.
Qed.

Lemma b64_computeWeightedPipeline_bounded (tasks : list Task) :
  modest tasks = true -> ownStatuses tasks = true ->
  bounded safe (Binary64.computeWeightedPipeline tasks).
Proof.
  intros H Hown. destruct (modest_facts tasks H) as (Hf & Hr & _).
  pose proof safe_threshold as Hst.
  unfold Binary64.computeWeightedPipeline.
  apply (bounded_weaken (A := 0 + sumQc (map (fun t => magnitude (revenue t)) tasks)));
    [qc_lra|].
  apply (sum_bounded (fun t => Binary64.mul (revenue t) (nullish (weights (status t)) zero))
           (fun t => magnitude (revenue t))).
  - apply bounded_zero.
  - intros t Hin. apply mul_bounded.
    + apply bounded_magnitude. now apply Hf.
    + apply weight_bounded. apply (proj1 (forallb_forall _ _) Hown) in Hin.
      now apply negb_true_iff in Hin.
    + assert (Hm : (magnitude (revenue t) <= sumQc (map (fun t => magnitude (revenue t)) tasks))%Qc).
      { clear - Hin. induction tasks as [|u l IH]; [contradiction|].
        unfold sumQc in *. cbn [map fold_right].
        pose proof (magnitude_nonneg (revenue u)) as Hu.
        pose proof (sumQc_nonneg (fun t => magnitude (revenue t)) l
                      (fun t => magnitude_nonneg (revenue t))) as Hl. unfold sumQc in Hl.
        destruct Hin as [->|Hin]; [qc_lra|]. specialize (IH Hin). qc_lra. }
      qc_lra.
  - qc_lra.
Qed.

(** ** Buckets inside the range *)

Lemma Forall_bounded_weaken {V : Type} (proj : V -> num) (A B : Qc) (m : list (string * V)) :
  (A <= B)%Qc ->
  Forall (fun e => bounded A (proj (snd e))) m -> Forall (fun e => bounded B (proj (snd e))) m.
Proof.
  intros H. apply Forall_impl. intros e. now apply bounded_weaken.
Qed.

Lemma throughput_map_bounded (l : list Task) :
  forall (m : list (string * (nat * num))) (A0 : Qc),
    (0 <= A0)%Qc ->
    Forall (fun e => bounded A0 (snd (snd e))) m ->
    (forall t, In t l -> isFinite (revenue t) = true) ->
    (A0 + sumQc (map (fun t => magnitude (revenue t)) l) <= safe)%Qc ->
    Forall (fun e => bounded safe (snd (snd e)))
      (fold_left
         (fun map t =>
            match completedAt t with
            | None => map
            | Some d =>
                map_set map (weekKey d)
                  (S (fst (nullish (map_get map (weekKey d)) (0%nat, zero))),
                   Binary64.add (snd (nullish (map_get map (weekKey d)) (0%nat, zero)))
                     (revenue t))
            end) l m).
Proof.
  pose proof safe_threshold as Hst.
  induction l as [|t l IH]; intros m A0 HA Hm Hf Hsum; cbn [fold_left].
  - unfold sumQc in Hsum. cbn [map fold_right] in Hsum.
    apply (Forall_bounded_weaken (fun v : nat * num => snd v) (A := A0)); [qc_lra | exact Hm].
  - unfold sumQc in Hsum. cbn [map fold_right] in Hsum.
    pose proof (magnitude_nonneg (revenue t)) as Ht.
    pose proof (sumQc_nonneg (fun t => magnitude (revenue t)) l
                  (fun t => magnitude_nonneg (revenue t))) as Hl. unfold sumQc in Hl.
    assert (Hm' : Forall (fun e : string * (nat * num) =>
                            bounded (A0 + magnitude (revenue t)) (snd (snd e))) m)
      by (apply (Forall_bounded_weaken (fun v : nat * num => snd v) (A := A0));
          [qc_lra | exact Hm]).
    apply (IH _ (A0 + magnitude (revenue t))%Qc).
    + qc_lra.
    + destruct (completedAt t) as [d|]; [|exact Hm'].
      apply (map_set_Forall (fun v : nat * num => bounded (A0 + magnitude (revenue t)) (snd v)));
        [exact Hm'|].
      cbn [snd]. apply add_bounded.
      * destruct (map_get m (weekKey d)) as [v|] eqn:E; cbn [nullish snd].
        -- exact (map_get_Forall (fun v : nat * num => bounded A0 (snd v)) _ Hm E).
        -- apply (bounded_weaken (A := 0)); [exact HA | apply bounded_zero].
      * apply bounded_magnitude. apply Hf. now left.
      * qc_lra.
    + intros u Hu. apply Hf. now right.
    + unfold sumQc. qc_lra.
Qed.

Lemma b64_computeThroughputByWeek_bounded {C : Collator} (tasks : list Task) :
  modest tasks = true ->
  forall b, In b (Binary64.computeThroughputByWeek tasks) -> bounded safe (Bucket.revenue b).
Proof.
  intros H b Hb. destruct (modest_facts tasks H) as (Hf & Hr & _).
  unfold Binary64.computeThroughputByWeek in Hb.
  apply in_map_iff in Hb. destruct Hb as (e & <- & He). cbn [Bucket.revenue].
  apply (Permutation_in _ (array_sort_perm byKey _)) in He.
  revert e He. apply Forall_forall.
  apply (throughput_map_bounded tasks (m := []) (A0 := 0%Qc)).
  - apply Qcle_refl.
  - constructor.
  - intros t Ht. now apply Hf.
  - qc_lra.
Qed.

Lemma cohort_map_bounded (l : list Task) :
  forall (m : list (string * num)) (A0 : Qc),
    (0 <= A0)%Qc ->
    Forall (fun e => bounded A0 (snd e)) m ->
    (forall t, In t l -> isFinite (revenue t) = true) ->
    (A0 + sumQc (map (fun t => magnitude (revenue t)) l) <= safe)%Qc ->
    Forall (fun e => bounded safe (snd e))
      (fold_left
         (fun map t =>
            map_set map (weekKey (createdAt t) ++ "|" ++ priority t)%string
              (Binary64.add
                 (nullish (map_get map (weekKey (createdAt t) ++ "|" ++ priority t)%string)
                    zero)
                 (revenue t))) l m).
Proof.
  pose proof safe_threshold as Hst.
  induction l as [|t l IH]; intros m A0 HA Hm Hf Hsum; cbn [fold_left].
  - unfold sumQc in Hsum. cbn [map fold_right] in Hsum.
    apply (Forall_bounded_weaken (fun v : num => v) (A := A0)); [qc_lra | exact Hm].
  - unfold sumQc in Hsum. cbn [map fold_right] in Hsum.
    pose proof (magnitude_nonneg (revenue t)) as Ht.
    pose proof (sumQc_nonneg (fun t => magnitude (revenue t)) l
                  (fun t => magnitude_nonneg (revenue t))) as Hl. unfold sumQc in Hl.
    assert (Hm' : Forall (fun e : string * num =>
                            bounded (A0 + magnitude (revenue t)) (snd e)) m)
      by (apply (Forall_bounded_weaken (fun v : num => v) (A := A0)); [qc_lra | exact Hm]).
    apply (IH _ (A0 + magnitude (revenue t))%Qc).
    + qc_lra.
    + apply (map_set_Forall (fun v : num => bounded (A0 + magnitude (revenue t)) v));
        [exact Hm'|].
      apply add_bounded.
      * destruct (map_get m (weekKey (createdAt t) ++ "|" ++ priority t)%string) as [v|] eqn:E;
          cbn [nullish].
        -- exact (map_get_Forall (fun v : num => bounded A0 v) _ Hm E).
        -- apply (bounded_weaken (A := 0)); [exact HA | apply bounded_zero].
      * apply bounded_magnitude. apply Hf. now left.
      * qc_lra.
    + intros u Hu. apply Hf. now right.
    + unfold sumQc. qc_lra.
Qed.

Lemma b64_computeCohortRevenue_bounded (tasks : list Task) :
  modest tasks = true ->
  forall c, In c (Binary64.computeCohortRevenue tasks) -> bounded safe (Cohort.revenue c).
Proof.
  intros H c Hc. destruct (modest_facts tasks H) as (Hf & Hr & _).
  unfold Binary64.computeCohortRevenue in Hc.
  apply in_map_iff in Hc. destruct Hc as (e & <- & He). cbn [Cohort.revenue].
  revert e He. apply Forall_forall.
  apply (cohort_map_bounded tasks (m := []) (A0 := 0%Qc)).
  - apply Qcle_refl.
  - constructor.
  - intros t Ht. now apply Hf.
  - qc_lra.
Qed.

(** ** Ratios of counts *)

Lemma Qcle_of_compare (a b : Qc) : Qccompare a b <> Gt -> (a <= b)%Qc.
Proof. apply Qcle_alt. Qed.

Lemma Qcge_of_compare (a b : Qc) : Qccompare a b <> Lt -> (b <= a)%Qc.
Proof.
  intros H. destruct (Qccompare a b) eqn:E; [| congruence |].
  - apply Qceq_alt in E. subst. apply Qcle_refl.
  - apply Qccompare_Gt_elim in E. now apply Qclt_le_weak.
Qed.

Lemma ratio_bounded (a n : nat) (K : Z) :
  n <> 0%nat -> (Z.of_nat a <= K * Z.of_nat n)%Z ->
  (Q2Qc (inject_Z K) < Binary64.threshold)%Qc ->
  bounded (Q2Qc (inject_Z K)) (Binary64.div (num_of_nat a) (num_of_nat n)).
Proof.
  intros Hn Ha HK.
  assert (Hs : bounded (Q2Qc (inject_Z K)) (num_of_nat a / num_of_nat n)%num).
  { unfold num_of_nat. rewrite ndiv_num_of_Z by lia.
    eexists. split; [reflexivity|].
    assert (K0 : (0 <= K)%Z) by nia.
    assert (Hu : (Q2Qc (inject_Z (Z.of_nat a)) / Q2Qc (inject_Z (Z.of_nat n))
                  <= Q2Qc (inject_Z K))%Qc).
    { apply Qcle_of_compare. rewrite Qccompare_ratio by lia.
      intros E. apply Z.compare_gt_iff in E. lia. }
    assert (Hl : (Q2Qc (inject_Z 0)
                  <= Q2Qc (inject_Z (Z.of_nat a)) / Q2Qc (inject_Z (Z.of_nat n)))%Qc).
    { apply Qcge_of_compare. rewrite Qccompare_ratio by lia.
      intros E. apply (proj1 (Z.compare_lt_iff _ _)) in E. lia. }
    split; [|exact Hu].
    assert (HK0 : (Q2Qc (inject_Z 0) <= Q2Qc (inject_Z K))%Qc).
    { apply Qcle_of_compare. rewrite Qccompare_inject_Z.
      intros E. apply Z.compare_gt_iff in E. lia. }
    change (Q2Qc (inject_Z 0)) with 0%Qc in *. qc_lra. }
  unfold Binary64.div. now rewrite (ranged_bounded HK Hs).
Qed.

Lemma small_constants :
  (Q2Qc (inject_Z 1) < Binary64.threshold)%Qc
  /\ (Q2Qc (inject_Z 100) < Binary64.threshold)%Qc
  /\ (Q2Qc (inject_Z (2 ^ 32)) < Binary64.threshold)%Qc.
Proof. repeat split; apply Qccompare_Lt_elim; now vm_compute. Qed.

Lemma b64_computeTimeEfficiency_finite (tasks : list Task) :
  isFinite (Binary64.computeTimeEfficiency tasks) = true.
Proof.
  unfold Binary64.computeTimeEfficiency.
  destruct (Nat.eqb_spec (List.length tasks) 0) as [|Hn]; [reflexivity|].
  destruct small_constants as (H1 & H100 & _).
  pose proof (filter_length_le isDone tasks) as Hle.
  destruct (ratio_bounded (List.length (filter isDone tasks)) (K := 1) Hn ltac:(lia) H1)
    as (q & -> & Hl & Hu).
  unfold Binary64.mul, num_of_Z. cbn [nmul].
  rewrite ranged_inside; [reflexivity | |]; qc_to_q.
  - assert (E : (inject_Z 100 == 100)%Q) by reflexivity.
    assert (E1 : (inject_Z 1 == 1)%Q) by reflexivity. rewrite E1 in *. rewrite E in *.
    pose proof threshold_pos as Hp. qc_to_q. lra.
  - assert (E : (inject_Z 100 == 100)%Q) by reflexivity.
    assert (E1 : (inject_Z 1 == 1)%Q) by reflexivity. rewrite E1 in *. rewrite E in *. lra.
Qed.

Lemma b64_computeFunnel_finite (tasks : list Task) :
  arrayLength tasks = true ->
  isFinite (conversionTodoToInProgress (Binary64.computeFunnel tasks)) = true
  /\ isFinite (conversionInProgressToDone (Binary64.computeFunnel tasks)) = true.
Proof.
  intros Hlen. unfold arrayLength in Hlen. apply Z.ltb_lt in Hlen.
  destruct small_constants as (H1 & _ & H32).
  unfold Binary64.computeFunnel.
  cbn [conversionTodoToInProgress conversionInProgressToDone]. split.
  - destruct (Nat.eqb_spec (countStatus "Todo" tasks + countStatus "In Progress" tasks
                            + countStatus "Done" tasks) 0) as [|Hn]; [reflexivity|].
    apply (bounded_finite (B := Q2Qc (inject_Z 1))).
    apply ratio_bounded; [exact Hn | lia | exact H1].
  - destruct (Nat.eqb_spec (countStatus "In Progress" tasks) 0) as [|Hn]; [reflexivity|].
    apply (bounded_finite (B := Q2Qc (inject_Z (2 ^ 32)))).
    apply ratio_bounded; [exact Hn | | exact H32].
    assert (Hd : (countStatus "Done" tasks <= List.length tasks)%nat)
      by apply filter_length_le.
    nia.
Qed.

(** ** The velocity statistics *)

Lemma bounded_num_of_Z (B z : Z) :
  (- B <= z <= B)%Z -> bounded (Q2Qc (inject_Z B)) (num_of_Z z).
Proof.
  intros [Hl Hu]. exists (Q2Qc (inject_Z z)). split; [reflexivity|].
  rewrite <- qz_opp. split; apply Qcle_of_compare; rewrite Qccompare_inject_Z;
    intros E; apply Z.compare_gt_iff in E; lia.
Qed.

Lemma daysBetween_formula (a b : Z) :
  daysBetween a b = num_of_Z (Z.max 0 ((2 * (b - a) + msPerDay) / (2 * msPerDay))).
Proof.
  unfold daysBetween. rewrite nsub_num_of_Z, Math_round_ratio by discriminate.
  apply Math_max_zero_num_of_Z.
Qed.

Lemma date_constants :
  (Q2Qc (inject_Z 17280000000000000) < Binary64.threshold)%Qc
  /\ (1 <= Q2Qc (inject_Z msPerDay))%Qc.
Proof.
  split; [apply Qccompare_Lt_elim; now vm_compute|].
  apply Qcle_of_compare. now vm_compute.
Qed.

(** Between valid dates the subtraction and the division of [daysBetween]
    stay inside the range. *)
Lemma b64_daysBetween (a b : Z) :
  validTime a = true -> validTime b = true ->
  Binary64.daysBetween a b = daysBetween a b /\ dayCount (daysBetween a b).
Proof.
  unfold validTime. intros Ha Hb.
  apply andb_prop in Ha, Hb. destruct Ha as [Ha1 Ha2], Hb as [Hb1 Hb2].
  apply Z.leb_le in Ha1, Ha2, Hb1, Hb2.
  destruct date_constants as [Hspan Hms].
  split.
  - unfold Binary64.daysBetween, Binary64.daysBetweenTimes, daysBetween.
    assert (Hsub : bounded (Q2Qc (inject_Z 17280000000000000))
                     (num_of_Z b - num_of_Z a)%num)
      by (rewrite nsub_num_of_Z; apply bounded_num_of_Z; lia).
    assert (Es : Binary64.sub (num_of_Z b) (num_of_Z a) = (num_of_Z b - num_of_Z a)%num)
      by (unfold Binary64.sub; now apply (ranged_bounded Hspan)).
    rewrite Es.
    assert (Hdiv : bounded (Q2Qc (inject_Z 17280000000000000))
                     (Binary64.div (num_of_Z b - num_of_Z a)%num (num_of_Z msPerDay)))
      by (apply (div_bounded Hsub eq_refl Hms Hspan)).
    destruct Hsub as (q & Eq & _). rewrite Eq in *.
    unfold Binary64.div in *. unfold num_of_Z at 1 in Hdiv. unfold num_of_Z at 1.
    assert (Hnz : Q2Qc (inject_Z msPerDay) <> 0%Qc) by (apply qz_nonzero; discriminate).
    rewrite (ndiv_Fin _ Hnz) in *.
    destruct Hdiv as (q' & Eq' & Hl & Hu).
    unfold num_of_Z. rewrite (ndiv_Fin _ Hnz).
    rewrite ranged_inside; [reflexivity | |].
    + destruct (Qccompare (q / Q2Qc (inject_Z msPerDay)) Binary64.threshold) eqn:E1;
        cbn [Binary64.ranged] in Eq'; rewrite E1 in Eq'; try discriminate Eq'.
      destruct (Qccompare (- Binary64.threshold) (q / Q2Qc (inject_Z msPerDay))) eqn:E2;
        try discriminate Eq'. now apply Qccompare_Lt_elim.
    + destruct (Qccompare (q / Q2Qc (inject_Z msPerDay)) Binary64.threshold) eqn:E1;
        cbn [Binary64.ranged] in Eq'; rewrite E1 in Eq'; try discriminate Eq'.
      now apply Qccompare_Lt_elim.
  - rewrite daysBetween_formula. eexists. split; [reflexivity|].
    change msPerDay with 86400000%Z.
    assert ((2 * (b - a) + 86400000) / (2 * 86400000) <= 200000001)%Z.
    { apply Z.lt_succ_r. apply Z.div_lt_upper_bound; lia. }
    lia.
Qed.

Lemma b64_collectDays (tasks : list Task) :
  validDates tasks = true ->
  forall groups, Binary64.collectDays tasks groups = collectDays tasks groups.
Proof.
  induction tasks as [|t tasks IH]; intros H groups; [reflexivity|].
  cbn [validDates forallb] in H. apply andb_prop in H. destruct H as [Ht Hrest].
  apply andb_prop in Ht. destruct Ht as [Hc Hd].
  cbn [Binary64.collectDays collectDays].
  destruct (completedAt t) as [c|]; [|now apply IH].
  rewrite (proj1 (b64_daysBetween _ _ Hc Hd)).
  destruct (pushKey groups (priority t) (daysBetween (createdAt t) c)); [|reflexivity].
  now apply IH.
Qed.

Lemma completedDays_dayCount (p : string) (tasks : list Task) :
  validDates tasks = true ->
  Forall dayCount (completedDays p tasks)
  /\ (List.length (completedDays p tasks) <= List.length tasks)%nat.
Proof.
  induction tasks as [|t tasks IH]; intros H; [split; [constructor | apply Nat.le_refl]|].
  cbn [validDates forallb] in H. apply andb_prop in H. destruct H as [Ht Hrest].
  apply andb_prop in Ht. destruct Ht as [Hc Hd].
  destruct (IH Hrest) as [IH1 IH2]. rewrite completedDays_cons.
  destruct (completedAt t) as [c|]; cbn [app List.length]; [|split; [exact IH1 | lia]].
  destruct (String.eqb (priority t) p); cbn [app List.length]; [|split; [exact IH1 | lia]].
  split; [|lia]. constructor; [|exact IH1]. now apply b64_daysBetween.
Qed.

Lemma sumQc_const {A : Type} (c : Qc) (l : list A) :
  sumQc (map (fun _ => c) l) = (qn (List.length l) * c)%Qc.
Proof.
  unfold sumQc. induction l as [|x l IH]; cbn [map fold_right List.length].
  - change (qn 0) with 0%Qc. ring.
  - rewrite IH, qn_S. ring.
Qed.

Lemma velocity_constants (n : nat) :
  (Z.of_nat n < 2 ^ 32)%Z ->
  (0 + qn n * Q2Qc (inject_Z 200000001) <= safe)%Qc.
Proof.
  intros H. unfold qn. rewrite <- qz_mul, Qcplus_0_l. unfold safe.
  apply Qcle_of_compare. rewrite Qccompare_inject_Z.
  intros E. apply Z.compare_gt_iff in E.
  assert (Hb : (2 ^ 32 * 200000001 < 2 ^ 1023)%Z) by now vm_compute.
  nia.
Qed.

Lemma b64_velocityOf_finite (days : list num) :
  Forall dayCount days -> (Z.of_nat (List.length days) < 2 ^ 32)%Z ->
  finiteVelocity (Binary64.velocityOf days) = true.
Proof.
  intros Hd Hlen. unfold Binary64.velocityOf, finiteVelocity.
  pose proof (array_sort_perm Binary64.ascending days) as Hperm.
  set (arr := array_sort Binary64.ascending days) in *.
  assert (Harr : forall x, In x arr -> dayCount x).
  { intros x Hx. apply (Permutation_in _ Hperm) in Hx.
    now apply (proj1 (Forall_forall _ _) Hd). }
  assert (Hl : List.length arr = List.length days) by now apply Permutation_length.
  destruct (Nat.eqb_spec (List.length arr) 0) as [|Hn]; [reflexivity|].
  cbn [avgDays medianDays]. apply andb_true_intro. split.
  - pose proof safe_threshold as Hst.
    assert (Hsum : bounded safe (Binary64.total arr)).
    { unfold Binary64.total.
      apply (bounded_weaken
               (A := 0 + sumQc (map (fun _ : num => Q2Qc (inject_Z 200000001)) arr))).
      - rewrite sumQc_const, Hl. now apply velocity_constants.
      - apply (sum_bounded (fun x : num => x) (fun _ => Q2Qc (inject_Z 200000001))).
        + apply bounded_zero.
        + intros x Hx. destruct (Harr x Hx) as (k & -> & Hk).
          apply bounded_num_of_Z. lia.
        + rewrite sumQc_const, Hl. now apply velocity_constants. }
    apply (bounded_finite (B := safe)).
    apply (div_bounded Hsum (b := qn (List.length arr)) eq_refl); [|exact Hst].
    unfold qn. change 1%Qc with (Q2Qc (inject_Z 1)).
    apply Qcle_of_compare. rewrite Qccompare_inject_Z.
    intros E. apply Z.compare_gt_iff in E. lia.
  - unfold at_index.
    assert (Hin : In (nth (List.length arr / 2) arr NaN) arr).
    { apply nth_In. apply Nat.div_lt; lia. }
    now destruct (Harr _ Hin) as (k & -> & _).
Qed.

Lemma b64_computeVelocityByPriority_finite (tasks : list Task) :
  arrayLength tasks = true -> validDates tasks = true ->
  completedHaveKnownPriority tasks = true ->
  exists result,
    Binary64.computeVelocityByPriority tasks = Some result
    /\ finiteVelocity (High result) = true
    /\ finiteVelocity (Medium result) = true
    /\ finiteVelocity (Low result) = true.
Proof.
  intros Hlen Hd Hp. unfold arrayLength in Hlen. apply Z.ltb_lt in Hlen.
  unfold Binary64.computeVelocityByPriority.
  rewrite (b64_collectDays tasks Hd), (collectDays_spec tasks emptyGroups Hp).
  cbn [emptyGroups High Medium Low app].
  eexists. split; [reflexivity|]. cbn [High Medium Low].
  repeat split; apply b64_velocityOf_finite;
    try (now apply completedDays_dayCount);
    match goal with
    | |- (Z.of_nat (List.length (completedDays ?p tasks)) < _)%Z =>
        pose proof (proj2 (completedDays_dayCount p tasks Hd)); lia
    end.
Qed.

(** ** Revenue per hour and the average ROI *)

(** Within the bounds the running sum is the exact one. *)
Lemma sum_exact {A : Type} (f : A -> num) (m : A -> Qc) (l : list A) :
  forall (acc : num) (A0 : Qc),
    bounded A0 acc ->
    (forall x, In x l -> bounded (m x) (f x)) ->
    (A0 + sumQc (map m l) <= safe)%Qc ->
    fold_left (fun s x => Binary64.add s (f x)) l acc
    = fold_left (fun s x => (s + f x)%num) l acc.
Proof.
  pose proof safe_threshold as Hst.
  induction l as [|x l IH]; intros acc A0 Hacc Hf Hsum; cbn [fold_left]; [reflexivity|].
  unfold sumQc in *. cbn [map fold_right] in *.
  assert (Hrest : (0 <= fold_right Qcplus 0%Qc (map m l))%Qc).
  { assert (Hm : forall y, In y l -> (0 <= m y)%Qc).
    { intros y Hy. destruct (Hf y (or_intror Hy)) as (q & _ & Hl & Hu). qc_lra. }
    clear - Hm. induction l as [|y l IH]; cbn [map fold_right]; [apply Qcle_refl|].
    assert (H1 := Hm y (or_introl eq_refl)).
    assert (H2 := IH (fun z Hz => Hm z (or_intror Hz))). qc_lra. }
  assert (Hx := Hf x (or_introl eq_refl)).
  assert (Hlt : (A0 + m x < Binary64.threshold)%Qc) by qc_lra.
  assert (Hstep : bounded (A0 + m x) (Binary64.add acc (f x)))
    by now apply add_bounded.
  assert (E : Binary64.add acc (f x) = (acc + f x)%num).
  { destruct Hacc as (a & -> & Hal & Hau), Hx as (b & Eb & Hbl & Hbu). rewrite Eb.
    unfold Binary64.add. cbn [nadd]. apply ranged_inside; qc_lra. }
  rewrite <- E. apply (IH _ _ Hstep); [intros y Hy; apply Hf; now right | qc_lra].
Qed.

Lemma b64_computeTotalTimeTaken_exact (tasks : list Task) :
  modest tasks = true -> Binary64.computeTotalTimeTaken tasks = computeTotalTimeTaken tasks.
Proof.
  intros H. destruct (modest_facts tasks H) as (Hf & _ & Ht).
  unfold Binary64.computeTotalTimeTaken, computeTotalTimeTaken.
  apply (sum_exact timeTaken (fun t => magnitude (timeTaken t)) tasks (A0 := 0%Qc)).
  - apply bounded_zero.
  - intros t Hin. apply bounded_magnitude. now apply Hf.
  - qc_lra.
Qed.

Lemma b64_computeRevenuePerHour_finite (tasks : list Task) :
  modest tasks = true -> wholeHours tasks = true ->
  isFinite (Binary64.computeRevenuePerHour tasks) = true.
Proof.
  intros H Hw. unfold Binary64.computeRevenuePerHour. cbv zeta.
  pose proof (b64_computeTotalRevenue_bounded tasks H) as Hr.
  pose proof (b64_computeTotalTimeTaken_bounded tasks H) as Ht.
  rewrite (b64_computeTotalTimeTaken_exact tasks H) in *.
  destruct (ngtb (computeTotalTimeTaken tasks) zero) eqn:E; [|reflexivity].
  unfold wholeHours in Hw. apply andb_prop in Hw. destruct Hw as [_ Hw].
  rewrite E in Hw. cbn [negb] in Hw. rewrite orb_false_r in Hw.
  destruct Ht as (b & Eb & _). rewrite Eb in *.
  apply (bounded_finite (B := safe)).
  apply (div_bounded Hr eq_refl); [|apply safe_threshold].
  unfold ngeb, one, num_of_Z in Hw. cbn [ncmp] in Hw.
  change (Q2Qc (inject_Z 1)) with 1%Qc in Hw.
  apply Qcge_of_compare. intros E1. now rewrite E1 in Hw.
Qed.

Lemma b64_computeROI_ranged (r t : num) :
  Binary64.computeROI r t = option_map Binary64.ranged (computeROI r t).
Proof.
  unfold Binary64.computeROI, computeROI.
  now destruct (negb (isFinite r) || negb (isFinite t) || nleb t zero).
Qed.

Lemma numbersOf_ranged (tasks : list Task) :
  numbersOf (map (fun t => Binary64.computeROI (revenue t) (timeTaken t)) tasks)
  = map Binary64.ranged
      (numbersOf (map (fun t => computeROI (revenue t) (timeTaken t)) tasks)).
Proof.
  induction tasks as [|t tasks IH]; [reflexivity|]. cbn [map].
  rewrite b64_computeROI_ranged.
  destruct (computeROI (revenue t) (timeTaken t)); cbn [option_map numbersOf map];
    now rewrite IH.
Qed.

Lemma numbersOf_finite (tasks : list Task) (v : num) :
  In v (numbersOf (map (fun t => computeROI (revenue t) (timeTaken t)) tasks)) ->
  isFinite v = true.
Proof.
  induction tasks as [|t tasks IH]; [contradiction|]. cbn [map].
  destruct (computeROI_cases (revenue t) (timeTaken t)) as [[_ E]|(a & b & _ & _ & _ & E)];
    rewrite E; cbn [numbersOf]; [exact IH|].
  intros [<-|H]; [reflexivity | now apply IH].
Qed.

Lemma magnitude_le_sum (l : list num) (v : num) :
  In v l -> (magnitude v <= sumQc (map magnitude l))%Qc.
Proof.
  induction l as [|u l IH]; [contradiction|]. unfold sumQc in *. cbn [map fold_right].
  pose proof (magnitude_nonneg u) as Hu.
  pose proof (sumQc_nonneg magnitude l magnitude_nonneg) as Hl. unfold sumQc in Hl.
  intros [->|Hin]; [qc_lra|]. specialize (IH Hin). qc_lra.
Qed.

Lemma b64_computeAverageROI_finite (tasks : list Task) :
  modestROIs tasks = true -> isFinite (Binary64.computeAverageROI tasks) = true.
Proof.
  unfold modestROIs. intros H. apply qleb_le in H.
  pose proof safe_threshold as Hst.
  unfold Binary64.computeAverageROI. cbv zeta. rewrite numbersOf_ranged.
  set (values := numbersOf (map (fun t => computeROI (revenue t) (timeTaken t)) tasks)) in *.
  assert (Hv : forall v, In v values -> bounded (magnitude v) v).
  { intros v Hin. apply bounded_magnitude. now apply (numbersOf_finite tasks). }
  assert (Er : map Binary64.ranged values = values).
  { rewrite <- (map_id values) at 2. apply map_ext_in. intros v Hin.
    apply (ranged_bounded (B := magnitude v)); [|now apply Hv].
    pose proof (magnitude_le_sum values v Hin). qc_lra. }
  rewrite Er.
  destruct (Nat.eqb_spec (List.length values) 0) as [|Hn]; [reflexivity|].
  assert (Hsum : bounded safe (Binary64.total values)).
  { unfold Binary64.total.
    apply (bounded_weaken (A := 0 + sumQc (map magnitude values))); [qc_lra|].
    apply (sum_bounded (fun x : num => x) magnitude); [apply bounded_zero | exact Hv | qc_lra]. }
  apply (bounded_finite (B := safe)).
  apply (div_bounded Hsum (b := qn (List.length values)) eq_refl); [|exact Hst].
  unfold qn. change 1%Qc with (Q2Qc (inject_Z 1)).
  apply Qcle_of_compare. rewrite Qccompare_inject_Z.
  intros E. apply Z.compare_gt_iff in E. lia.
Qed.

(** ** The forecast *)

Lemma qz_below_threshold (K : Z) :
  (K < 2 ^ 1023)%Z -> (Q2Qc (inject_Z K) < Binary64.threshold)%Qc.
Proof.
  intros H. apply Qccompare_Lt_elim. unfold Binary64.threshold.
  rewrite Qccompare_inject_Z. apply Z.compare_lt_iff.
  assert (2 ^ 1023 < 2 ^ 1024 - 2 ^ 970)%Z by now vm_compute. lia.
Qed.

Lemma qz_le (a b : Z) : (a <= b)%Z -> (Q2Qc (inject_Z a) <= Q2Qc (inject_Z b))%Qc.
Proof.
  intros H. apply Qcle_of_compare. rewrite Qccompare_inject_Z.
  intros E. apply Z.compare_gt_iff in E. lia.
Qed.

Lemma add_bounded_Z (K1 K2 : Z) (x y : num) :
  bounded (Q2Qc (inject_Z K1)) x -> bounded (Q2Qc (inject_Z K2)) y ->
  (K1 + K2 < 2 ^ 1023)%Z ->
  bounded (Q2Qc (inject_Z (K1 + K2))) (Binary64.add x y).
Proof.
  intros Hx Hy H. rewrite qz_add. apply add_bounded; try assumption.
  rewrite <- qz_add. now apply qz_below_threshold.
Qed.

Lemma sub_bounded_Z (K1 K2 : Z) (x y : num) :
  bounded (Q2Qc (inject_Z K1)) x -> bounded (Q2Qc (inject_Z K2)) y ->
  (K1 + K2 < 2 ^ 1023)%Z ->
  bounded (Q2Qc (inject_Z (K1 + K2))) (Binary64.sub x y)
  /\ Binary64.sub x y = (x - y)%num.
Proof.
  intros (a & -> & Hal & Hau) (b & -> & Hbl & Hbu) H.
  pose proof (qz_below_threshold H) as Ht. rewrite qz_add in *.
  assert (Hs : bounded (Q2Qc (inject_Z K1) + Q2Qc (inject_Z K2)) (Fin a - Fin b)%num).
  { exists (a + - b)%Qc. split; [reflexivity|]. split; qc_lra. }
  unfold Binary64.sub. rewrite (ranged_bounded Ht Hs). now split.
Qed.

Lemma mul_bounded_Z (K1 K2 : Z) (x y : num) :
  bounded (Q2Qc (inject_Z K1)) x -> bounded (Q2Qc (inject_Z K2)) y ->
  (K1 * K2 < 2 ^ 1023)%Z ->
  bounded (Q2Qc (inject_Z (K1 * K2))) (Binary64.mul x y)
  /\ Binary64.mul x y = (x * y)%num.
Proof.
  intros (a & -> & Hal & Hau) (b & -> & Hbl & Hbu) H.
  pose proof (qz_below_threshold H) as Ht. rewrite qz_mul in *.
  assert (Hs : bounded (Q2Qc (inject_Z K1) * Q2Qc (inject_Z K2)) (Fin a * Fin b)%num).
  { exists (a * b)%Qc. split; [reflexivity|]. qc_to_q. split; nra. }
  unfold Binary64.mul. rewrite (ranged_bounded Ht Hs). now split.
Qed.

Lemma div_bounded_Z (K : Z) (x : num) (b : Qc) :
  bounded (Q2Qc (inject_Z K)) x -> (1 <= b)%Qc -> (K < 2 ^ 1023)%Z ->
  bounded (Q2Qc (inject_Z K)) (Binary64.div x (Fin b)).
Proof.
  intros Hx Hb H. apply (div_bounded Hx eq_refl Hb). now apply qz_below_threshold.
Qed.

Lemma bounded_le_Z (K1 K2 : Z) (x : num) :
  (K1 <= K2)%Z -> bounded (Q2Qc (inject_Z K1)) x -> bounded (Q2Qc (inject_Z K2)) x.
Proof. intros H. apply bounded_weaken. now apply qz_le. Qed.

(** A sum of [n] terms bounded by [K]. *)
Lemma total_bounded_Z (K N : Z) (l : list num) :
  (forall x, In x l -> bounded (Q2Qc (inject_Z K)) x) ->
  (Z.of_nat (List.length l) <= N)%Z -> (0 <= K)%Z -> (N * K < 2 ^ 1023)%Z ->
  bounded (Q2Qc (inject_Z (N * K))) (Binary64.total l)
  /\ Binary64.total l = total l.
Proof.
  intros Hl Hn HK0 H.
  assert (Hsum : (0 + sumQc (map (fun _ : num => Q2Qc (inject_Z K)) l) <= safe)%Qc).
  { rewrite sumQc_const, Qcplus_0_l. unfold qn. rewrite <- qz_mul. unfold safe.
    apply qz_le. nia. }
  split.
  - unfold Binary64.total.
    apply (bounded_weaken (A := 0 + sumQc (map (fun _ : num => Q2Qc (inject_Z K)) l))).
    + rewrite sumQc_const, Qcplus_0_l. unfold qn. rewrite <- qz_mul. apply qz_le. nia.
    + apply (sum_bounded (fun x : num => x) (fun _ => Q2Qc (inject_Z K)));
        [apply bounded_zero | exact Hl | exact Hsum].
  - unfold Binary64.total, total.
    apply (sum_exact (fun x : num => x) (fun _ => Q2Qc (inject_Z K)) l (A0 := 0%Qc));
      [apply bounded_zero | exact Hl | exact Hsum].
Qed.

Lemma Math_max_zero_finite (q : Qc) : isFinite (Math_max zero (Fin q)) = true.
Proof. unfold Math_max, zero, num_of_Z. simpl. now destruct (Qccompare _ q). Qed.

(** The divisor of the slope is a whole number, 1 at least. *)
Lemma indices_denominator_large (n : nat) :
  (2 <= n)%nat ->
  (1 <= qn n * sumQc (map (fun i => qn i * qn i) (seq 0 n))
        - sumQc (map qn (seq 0 n)) * sumQc (map qn (seq 0 n)))%Qc.
Proof.
  intros Hn.
  pose proof (sum_indices n) as H1. pose proof (sum_index_squares n) as H2.
  set (s1 := sumQc (map qn (seq 0 n))) in *.
  set (s2 := sumQc (map (fun i => qn i * qn i) (seq 0 n))) in *.
  assert (Ht : (Q2Qc (inject_Z 2) <= qn n)%Qc) by (unfold qn; apply qz_le; lia).
  change (Q2Qc (inject_Z 2)) with (1 + 1)%Qc in Ht.
  generalize dependent (qn n). intros t H1 H2 Ht.
  assert (E1 : (this ((1 + 1) * s1)%Qc == this (t * (t - 1))%Qc)%Q) by now rewrite H1.
  assert (E2 : (this ((1 + 1) * (1 + 1 + 1) * s2)%Qc
                == this ((t - 1) * t * ((1 + 1) * t - 1))%Qc)%Q) by now rewrite H2.
  clear H1 H2. clearbody s1 s2. qc_to_q.
  generalize dependent (this t). generalize (this s1) (this s2). clear.
  intros s1 s2 t Ht E1 E2.
  assert (Es1 : (s1 == t * (t - 1) * (1 # 2))%Q) by lra.
  assert (Es2 : (s2 == (t - 1) * t * (2 * t - 1) * (1 # 6))%Q) by lra.
  rewrite Es1, Es2.
  assert (H0 : (0 <= t - 2)%Q) by lra.
  assert (H1 : (0 <= (t - 2) * (t - 2))%Q) by nra.
  assert (H2 : (0 <= (t - 2) * (t - 2) * (t - 2))%Q) by nra.
  assert (H3 : (0 <= (t - 2) * (t - 2) * (t - 2) * (t - 2))%Q) by nra.
  nra.
Qed.

Lemma reduce_indexed_bounded (Kx Ky : Z) (y xs : list num) :
  (0 <= Kx)%Z -> (0 <= Ky)%Z ->
  forall (i : nat) (acc : num) (A0 : Z),
    (0 <= A0)%Z ->
    bounded (Q2Qc (inject_Z A0)) acc ->
    (forall v, In v xs -> bounded (Q2Qc (inject_Z Kx)) v) ->
    (forall j, (j < i + List.length xs)%nat -> bounded (Q2Qc (inject_Z Ky)) (at_index y j)) ->
    (A0 + Z.of_nat (List.length xs) * (Kx * Ky) < 2 ^ 1023)%Z ->
    bounded (Q2Qc (inject_Z (A0 + Z.of_nat (List.length xs) * (Kx * Ky))))
      (reduce_indexed (fun s v i => Binary64.add s (Binary64.mul v (at_index y i))) xs i acc).
Proof.
  intros HKx HKy. induction xs as [|v xs IH]; intros i acc A0 HA Hacc Hx Hy H;
    cbn [reduce_indexed List.length].
  - cbn [List.length] in *. replace (A0 + Z.of_nat 0 * (Kx * Ky))%Z with A0 by lia. exact Hacc.
  - cbn [List.length] in *.
    assert (Hterm : bounded (Q2Qc (inject_Z (Kx * Ky))) (Binary64.mul v (at_index y i))).
    { apply mul_bounded_Z; [apply Hx; now left | apply Hy; lia | nia]. }
    assert (Hacc' : bounded (Q2Qc (inject_Z (A0 + Kx * Ky)))
                      (Binary64.add acc (Binary64.mul v (at_index y i))))
      by (apply add_bounded_Z; [assumption | assumption | nia]).
    replace (A0 + Z.of_nat (S (List.length xs)) * (Kx * Ky))%Z
      with (A0 + Kx * Ky + Z.of_nat (List.length xs) * (Kx * Ky))%Z by lia.
    apply IH; [nia | exact Hacc' | intros u Hu; apply Hx; now right | intros j Hj; apply Hy; lia
              | lia].
Qed.

Lemma fold_left_ext_in {A B : Type} (f g : B -> A -> B) (l : list A) :
  (forall s x, In x l -> f s x = g s x) ->
  forall acc, fold_left f l acc = fold_left g l acc.
Proof.
  induction l as [|x l IH]; intros H acc; cbn [fold_left]; [reflexivity|].
  rewrite (H acc x (or_introl eq_refl)). apply IH. intros s y Hy. apply H. now right.
Qed.

(** The sum of the squares of the indices, inside the range. *)
Lemma index_squares_exact (n : nat) :
  (Z.of_nat n < 2 ^ 32)%Z ->
  bounded (Q2Qc (inject_Z (2 ^ 32 * (2 ^ 32 * 2 ^ 32))))
    (fold_left (fun s v => Binary64.add s (Binary64.mul v v)) (map Fin (map qn (seq 0 n))) zero)
  /\ fold_left (fun s v => Binary64.add s (Binary64.mul v v)) (map Fin (map qn (seq 0 n))) zero
     = Fin (sumQc (map (fun q => q * q)%Qc (map qn (seq 0 n)))).
Proof.
  intros Hn. rewrite <- sum_squares_Fin.
  set (x := map Fin (map qn (seq 0 n))).
  assert (Hx : forall v, In v x -> bounded (Q2Qc (inject_Z (2 ^ 32))) v).
  { intros v Hv. unfold x in Hv. rewrite map_map in Hv. apply in_map_iff in Hv.
    destruct Hv as (j & <- & Hj). apply in_seq in Hj.
    apply (bounded_num_of_Z (B := 2 ^ 32) (z := Z.of_nat j)). lia. }
  assert (Hlen : List.length x = n) by (unfold x; now rewrite !length_map, length_seq).
  assert (Hm : forall v, In v x ->
                 bounded (Q2Qc (inject_Z (2 ^ 32 * 2 ^ 32))) (Binary64.mul v v)
                 /\ Binary64.mul v v = (v * v)%num).
  { intros v Hv. apply mul_bounded_Z; [now apply Hx | now apply Hx | now vm_compute]. }
  assert (Hsum : (0 + sumQc (map (fun _ : num => Q2Qc (inject_Z (2 ^ 32 * 2 ^ 32))) x)
                  <= Q2Qc (inject_Z (2 ^ 32 * (2 ^ 32 * 2 ^ 32))))%Qc).
  { rewrite sumQc_const, Qcplus_0_l, Hlen. unfold qn. rewrite <- qz_mul.
    apply qz_le. nia. }
  assert (Hsafe : (Q2Qc (inject_Z (2 ^ 32 * (2 ^ 32 * 2 ^ 32))) <= safe)%Qc)
    by (unfold safe; apply qz_le; now vm_compute).
  split.
  - apply (bounded_weaken Hsum).
    apply (sum_bounded (fun v => Binary64.mul v v)
             (fun _ => Q2Qc (inject_Z (2 ^ 32 * 2 ^ 32))));
      [apply bounded_zero | intros v Hv; now apply Hm | qc_lra].
  - rewrite (sum_exact (fun v => Binary64.mul v v)
               (fun _ => Q2Qc (inject_Z (2 ^ 32 * 2 ^ 32))) x (A0 := 0%Qc)).
    + apply fold_left_ext_in. intros s v Hv. now rewrite (proj2 (Hm v Hv)).
    + apply bounded_zero.
    + intros v Hv. now apply Hm.
    + qc_lra.
Qed.

Lemma modestSeries_in (weekly : list Weekly) (v : num) :
  modestSeries weekly = true -> In v (map weekRevenue weekly) ->
  bounded (Q2Qc (inject_Z (2 ^ 500))) v.
Proof.
  intros Hm Hin. apply in_map_iff in Hin. destruct Hin as (p & <- & Hp).
  unfold modestSeries in Hm. rewrite forallb_forall in Hm. specialize (Hm p Hp).
  apply andb_prop in Hm. destruct Hm as [Hf Hq].
  apply (bounded_weaken (qleb_le _ _ Hq)). now apply bounded_magnitude.
Qed.

(** On at most 2^32 - 1 weekly revenues of magnitude 2^500 at most, and a
    horizon below 2^32, every sum, product and quotient of the regression
    stays in range: the forecast is finite. *)
Lemma b64_computeForecast_finite (weekly : list Weekly) (horizonWeeks : nat) :
  arrayLength weekly = true -> (Z.of_nat horizonWeeks < 2 ^ 32)%Z ->
  modestSeries weekly = true ->
  Forall (fun p => isFinite (weekRevenue p) = true)
    (Binary64.computeForecast weekly horizonWeeks).
Proof.
  intros Hlen Hh Hm. apply Forall_forall. intros p Hp.
  unfold Binary64.computeForecast in Hp.
  destruct (Nat.ltb_spec (List.length weekly) 2) as [Hlt|Hge]; [contradiction|].
  cbv zeta in Hp. unfold array_from in Hp. apply in_map_iff in Hp.
  destruct Hp as (i & <- & Hi). apply in_seq in Hi. cbn [weekRevenue].
  unfold arrayLength in Hlen. apply Z.ltb_lt in Hlen.
  assert (Hxlen : List.length (indices weekly) = List.length weekly)
    by (unfold indices; now rewrite length_map, length_seq).
  rewrite !Hxlen.
  set (n0 := List.length weekly) in *.
  set (y := map weekRevenue weekly).
  set (x := indices weekly) in *.
  pose (N := (2 ^ 32)%Z). pose (Y := (2 ^ 500)%Z).
  assert (Hx : forall v, In v x -> bounded (Q2Qc (inject_Z N)) v).
  { intros v Hv. unfold x, indices in Hv. apply in_map_iff in Hv.
    destruct Hv as (j & <- & Hj). apply in_seq in Hj. fold n0 in Hj.
    apply (bounded_num_of_Z (B := N) (z := Z.of_nat j)). unfold N. lia. }
  assert (Hy : forall v, In v y -> bounded (Q2Qc (inject_Z Y)) v)
    by (intros v Hv; now apply (modestSeries_in weekly)).
  assert (Hylen : List.length y = n0) by (unfold y; now rewrite length_map).
  assert (Hn : bounded (Q2Qc (inject_Z N)) (num_of_nat n0))
    by (apply (bounded_num_of_Z (B := N) (z := Z.of_nat n0)); unfold N; lia).
  assert (Hqn : (1 <= qn n0)%Qc).
  { unfold qn. change 1%Qc with (Q2Qc (inject_Z 1)). apply qz_le. lia. }
  destruct (@total_bounded_Z N N x Hx) as [HsumX EsumX];
    [rewrite Hxlen; unfold N; lia | now vm_compute | now vm_compute |].
  destruct (@total_bounded_Z Y N y Hy) as [HsumY EsumY];
    [rewrite Hylen; unfold N; lia | now vm_compute | now vm_compute |].
  assert (HsumXY : bounded (Q2Qc (inject_Z (N * (N * Y))))
            (reduce_indexed (fun s v i => Binary64.add s (Binary64.mul v (at_index y i)))
               x 0 zero)).
  { apply (@bounded_le_Z (0 + Z.of_nat (List.length x) * (N * Y)) (N * (N * Y))).
    - rewrite Hxlen. fold n0. assert (0 <= N * Y)%Z by now vm_compute. unfold N at 2. nia.
    - apply reduce_indexed_bounded; [now vm_compute | now vm_compute | lia | apply bounded_zero
        | exact Hx | | ].
      + intros j Hj. apply Hy. unfold at_index. apply nth_In. rewrite Hylen, Hxlen in *.
        fold n0 in Hj. lia.
      + rewrite Hxlen. fold n0.
        assert (N * (N * Y) < 2 ^ 1023)%Z by now vm_compute.
        assert (0 <= N * Y)%Z by now vm_compute. unfold N in H at 1. nia. }
  destruct (@index_squares_exact (List.length weekly) Hlen) as [HsumXX EsumXX].
  rewrite <- (indices_Fin weekly) in HsumXX, EsumXX. fold x in HsumXX, EsumXX.
  fold n0 in EsumXX. fold N in HsumXX.
  set (sumX := Binary64.total x) in *.
  set (sumY := Binary64.total y) in *.
  set (sumXY := reduce_indexed _ x 0 zero) in *.
  set (sumXX := fold_left _ x zero) in *.
  (* the numerator of the slope *)
  destruct (mul_bounded_Z Hn HsumXY) as [Hnxy _]; [now vm_compute|].
  destruct (mul_bounded_Z HsumX HsumY) as [Hxy _]; [now vm_compute|].
  destruct (sub_bounded_Z Hnxy Hxy) as [Hnum _]; [now vm_compute|].
  (* its denominator, a whole number *)
  destruct (mul_bounded_Z Hn HsumXX) as [Hnxx Enxx]; [now vm_compute|].
  destruct (mul_bounded_Z HsumX HsumX) as [Hxx Exx]; [now vm_compute|].
  destruct (sub_bounded_Z Hnxx Hxx) as [_ Eden]; [now vm_compute|].
  assert (ED : exists D, (1 <= D)%Qc
                 /\ Binary64.sub (Binary64.mul (num_of_nat n0) sumXX) (Binary64.mul sumX sumX)
                    = Fin D).
  { exists (qn n0 * sumQc (map (fun i => qn i * qn i) (seq 0 n0))
            - sumQc (map qn (seq 0 n0)) * sumQc (map qn (seq 0 n0)))%Qc.
    split; [apply indices_denominator_large; lia|].
    rewrite Eden, Enxx, Exx, EsumXX, EsumX.
    unfold x. rewrite indices_Fin. fold n0. rewrite total_Fin, map_map. reflexivity. }
  destruct ED as (D & HD & ED). rewrite ED.
  rewrite or_else_Fin by (intros E0; rewrite E0 in HD; now vm_compute in HD).
  pose proof (div_bounded_Z (K := N * (N * (N * Y)) + N * N * (N * Y)) Hnum HD) as Hslope.
  set (slope := Binary64.div _ (Fin D)) in *.
  specialize (Hslope ltac:(now vm_compute)).
  destruct (mul_bounded_Z Hslope HsumX) as [Hsx _]; [now vm_compute|].
  destruct (sub_bounded_Z HsumY Hsx) as [Hint0 _]; [now vm_compute|].
  assert (Hint := div_bounded_Z (b := qn n0) Hint0 Hqn ltac:(now vm_compute)).
  change (Fin (qn n0)) with (num_of_nat n0) in Hint.
  set (intercept := Binary64.div _ (num_of_nat n0)) in *.
  assert (Hi' : bounded (Q2Qc (inject_Z N)) (num_of_nat i))
    by (apply (bounded_num_of_Z (B := N) (z := Z.of_nat i)); unfold N; lia).
  assert (Hni := add_bounded_Z Hn Hi' ltac:(now vm_compute)).
  destruct (mul_bounded_Z Hslope Hni) as [Hs _]; [now vm_compute|].
  assert (Hv := add_bounded_Z Hs Hint ltac:(now vm_compute)).
  destruct Hv as (q & -> & _). apply Math_max_zero_finite.
Qed.

(** ** Finiteness of the engine's outputs *)

(** C3 (amended). On an array of tasks (fewer than 2^32 of them):
    [computeTimeEfficiency] and the two ratios of [computeFunnel] are
    finite whatever the fields hold; [computeROI] never returns NaN;
    [computeAverageROI] is finite when the magnitudes of the ROIs add up to
    2^1023 at most; [computeVelocityByPriority] returns, with finite
    statistics, when the dates are valid dates and every completed task has
    one of the three priorities; when every revenue and time is finite and
    their magnitudes add up to 2^1023 at most, [computeTotalRevenue],
    [computeTotalTimeTaken] and the bucket revenues of
    [computeThroughputByWeek] and [computeCohortRevenue] are finite, as is
    [computeWeightedPipeline] when no status is a name inherited from
    [Object.prototype], and [computeRevenuePerHour] when no time is
    negative and the total time is 0 or 1 at least; [computeForecast] returns finite
    revenues on a series of finite revenues of magnitude 2^500 at most and
    a horizon below 2^32. *)
Theorem engine_outputs_finite {C : Collator} (tasks : list Task) :
  arrayLength tasks = true ->
  isFinite (Binary64.computeTimeEfficiency tasks) = true
  /\ isFinite (conversionTodoToInProgress (Binary64.computeFunnel tasks)) = true
  /\ isFinite (conversionInProgressToDone (Binary64.computeFunnel tasks)) = true
  /\ (forall r t v, Binary64.computeROI r t = Some v -> isNaN v = false)
  /\ (modestROIs tasks = true -> isFinite (Binary64.computeAverageROI tasks) = true)
  /\ (validDates tasks = true -> completedHaveKnownPriority tasks = true ->
      exists result,
        Binary64.computeVelocityByPriority tasks = Some result
        /\ finiteVelocity (High result) = true
        /\ finiteVelocity (Medium result) = true
        /\ finiteVelocity (Low result) = true)
  /\ (modest tasks = true ->
      isFinite (Binary64.computeTotalRevenue tasks) = true
      /\ isFinite (Binary64.computeTotalTimeTaken tasks) = true
      /\ (forall b, In b (Binary64.computeThroughputByWeek tasks) ->
                    isFinite (Bucket.revenue b) = true)
      /\ (forall c, In c (Binary64.computeCohortRevenue tasks) ->
                    isFinite (Cohort.revenue c) = true)
      /\ (ownStatuses tasks = true ->
          isFinite (Binary64.computeWeightedPipeline tasks) = true)
      /\ (wholeHours tasks = true ->
          isFinite (Binary64.computeRevenuePerHour tasks) = true))
  /\ (forall weekly horizonWeeks,
         arrayLength weekly = true -> (Z.of_nat horizonWeeks < 2 ^ 32)%Z ->
         modestSeries weekly = true ->
         Forall (fun p => isFinite (weekRevenue p) = true)
           (Binary64.computeForecast weekly horizonWeeks)).
Proof.
  intros Hlen.
  split; [apply b64_computeTimeEfficiency_finite|].
  split; [now apply b64_computeFunnel_finite|].
  split; [now apply b64_computeFunnel_finite|].
  split; [exact b64_computeROI_not_NaN|].
  split; [apply b64_computeAverageROI_finite|].
  split; [now apply b64_computeVelocityByPriority_finite|].
  split; [|intros weekly h; apply b64_computeForecast_finite].
  intros Hm. repeat split.
  - exact (bounded_finite (b64_computeTotalRevenue_bounded tasks Hm)).
  - exact (bounded_finite (b64_computeTotalTimeTaken_bounded tasks Hm)).
  - intros b Hb. exact (bounded_finite (b64_computeThroughputByWeek_bounded tasks Hm b Hb)).
  - intros c Hc. exact (bounded_finite (b64_computeCohortRevenue_bounded tasks Hm c Hc)).
  - intros Hs. exact (bounded_finite (b64_computeWeightedPipeline_bounded tasks Hm Hs)).
  - now apply b64_computeRevenuePerHour_finite.
Qed.

Lemma engine_outputs_finite_witness :
  arrayLength [taskA; archived] = true
  /\ isFinite (Binary64.computeTotalRevenue [taskA; archived]) = true
  /\ isFinite (Binary64.computeTotalTimeTaken [taskA; archived]) = true
  /\ isFinite (Binary64.computeWeightedPipeline [taskA; archived]) = true
  /\ isFinite (Binary64.computeRevenuePerHour [taskA; archived]) = true
  /\ isFinite (Binary64.computeAverageROI [taskA; archived]) = true
  /\ Binary64.computeVelocityByPriority [taskA; archived] <> None
  /\ Forall (fun p => isFinite (weekRevenue p) = true) (Binary64.computeForecast twoWeeks 4).
Proof.
  destruct (@engine_outputs_finite codeUnitCollator [taskA; archived] eq_refl)
    as (_ & _ & _ & _ & Havg & Hvel & Hsums & Hforecast).
  destruct (Hsums eq_refl) as (Hrev & Htime & _ & _ & Hpipe & Hrph).
  destruct (Hvel eq_refl eq_refl) as (result & Hres & _).
  split; [reflexivity|].
  split; [exact Hrev|]. split; [exact Htime|]. split; [exact (Hpipe eq_refl)|].
  split; [exact (Hrph eq_refl)|]. split; [exact (Havg eq_refl)|].
  split; [rewrite Hres; discriminate|].
  apply Hforecast; [reflexivity | lia | reflexivity].
Defined.

(** C3 (as stated) fails: a NaN time and an infinite revenue reach the
    sums, two finite revenues add up to Infinity, a status named
    [constructor] finds a function where a weight is expected, a date that
    does not parse makes the days NaN, and a completed task of an unknown
    priority raises a TypeError. *)
Lemma engine_outputs_not_always_finite :
  Binary64.computeTotalTimeTaken [taskA; noTime] = NaN
  /\ isFinite (Binary64.computeTotalTimeTaken [taskA; noTime]) = false
  /\ Binary64.computeWeightedPipeline [taskA; windfall] = PInf
  /\ isFinite (Binary64.computeWeightedPipeline [taskA; windfall]) = false
  /\ forallb finiteTask [hugeDeal; hugeDeal] = true
  /\ Binary64.computeTotalRevenue [hugeDeal; hugeDeal] = PInf
  /\ forallb finiteTask [taskA; inheritedStatus] = true
  /\ Binary64.computeWeightedPipeline [taskA; inheritedStatus] = NaN
  /\ Binary64.daysBetweenTimes NaN (num_of_Z msPerDay) = NaN
  /\ Binary64.computeVelocityByPriority
       [mkTask "t-u" "Urgent deal" (num_of_Z 1) (num_of_Z 1) "Urgent" "Done" None 0
          (Some msPerDay)]
     = None.
Proof. repeat split; now vm_compute. Qed.
